(** * Behavioral-Mathematics: signature stream, alphabet growth, fracture metrics

    A shallow embedding of the two driver scripts of the repository,

    - [scripts/sbm_ai_monitor.py]  (state-sequence variant, module [AIMonitor]),
    - [scripts/sbm_test.py]        (index-operator variant, module [SBMTest]),

    and of the series helpers of [viz/plot_alpha_curve.py] (module
    [PlotAlpha]), followed by the properties of the specification, each settled against
    the embedded code.

    Python integers are [Z]; [%], [//], [&], [^], [<<], [>>] are [Z.modulo],
    [Z.div], [Z.land], [Z.lxor], [Z.shiftl], [Z.shiftr] (same rounding and
    sign conventions).  Python floats are binary64 primitive floats.  Python
    exceptions are the [Raise] outcome of [result].  Dictionaries are
    [gmap]s, [set] is [gset]. *)

From Stdlib Require Import ZArith Znumtheory Lia PrimFloat FloatOps SpecFloat.
From Stdlib.Strings Require Import Byte.
From stdpp Require Import gmap strings list sorting.

Local Open Scope Z_scope.

(* ===================================================================== *)
(** * The Python runtime used by the scripts *)
(* ===================================================================== *)

(** Exceptions the scripts can raise.  [Diverges] stands for a call that
    does not return (a [while] loop that never exits). *)
Inductive exn : Type :=
| ValueError (msg : string)
| ZeroDivisionError
| IndexError
| KeyError
| OverflowError
| Diverges.

Inductive result (A : Type) : Type :=
| Ok (a : A)
| Raise (e : exn).
Arguments Ok {A} a.
Arguments Raise {A} e.

#[global] Instance result_ret : MRet result := λ A a, Ok a.
#[global] Instance result_bind : MBind result := λ A B f r,
  match r with Ok a => f a | Raise e => Raise e end.
#[global] Instance result_fmap : FMap result := λ A B f r,
  match r with Ok a => Ok (f a) | Raise e => Raise e end.

(** [for x in xs: st = body(st, x)] where the body may raise. *)
Fixpoint for_each {A S} (body : S → A → result S) (xs : list A) (st : S) : result S :=
  match xs with
  | [] => Ok st
  | x :: xs' => st' ← body st x; for_each body xs' st'
  end.

(** [[f(x) for x in xs]] where [f] may raise. *)
Fixpoint map_each {A B} (f : A → result B) (xs : list A) : result (list B) :=
  match xs with
  | [] => Ok []
  | x :: xs' => y ← f x; ys ← map_each f xs'; Ok (y :: ys)
  end.

(** [range(lo, hi)]: empty when [hi <= lo]. *)
Definition range (lo hi : Z) : list Z := seqZ lo (hi - lo).

(** [enumerate(xs)] *)
Fixpoint enumerate_from {A} (i : Z) (xs : list A) : list (Z * A) :=
  match xs with
  | [] => []
  | x :: xs' => (i, x) :: enumerate_from (i + 1) xs'
  end.
Definition enumerate {A} (xs : list A) : list (Z * A) := enumerate_from 0 xs.

(** [len(xs)] *)
Definition len {A} (xs : list A) : Z := Z.of_nat (length xs).

(** [xs[i]] and [xs[i] = v]: a negative index counts from the end, an index
    out of range raises [IndexError]. *)
Definition norm_index {A} (xs : list A) (i : Z) : result nat :=
  let j := if i <? 0 then i + len xs else i in
  if (j <? 0) || (len xs <=? j) then Raise IndexError else Ok (Z.to_nat j).

Definition getitem (xs : list Z) (i : Z) : result Z :=
  j ← norm_index xs i;
  match xs !! j with Some x => Ok x | None => Raise IndexError end.

Definition setitem (xs : list Z) (i : Z) (v : Z) : result (list Z) :=
  j ← norm_index xs i; Ok (<[j := v]> xs).

(** [a % b] on integers. *)
Definition py_mod (a b : Z) : result Z :=
  if b =? 0 then Raise ZeroDivisionError else Ok (a mod b).

(** [int.bit_count()]: number of ones in the binary expansion of [|x|]. *)
Fixpoint pos_bit_count (p : positive) : Z :=
  match p with
  | xH => 1
  | xO q => pos_bit_count q
  | xI q => 1 + pos_bit_count q
  end.
Definition bit_count (x : Z) : Z :=
  match x with
  | Z0 => 0
  | Zpos p | Zneg p => pos_bit_count p
  end.

(** ** Floats *)

(** The least integer magnitude that [float(n)] cannot represent: the
    midpoint between the largest binary64 number and [2^1024], which rounds
    (half to even) up to [2^1024]. *)
Definition float_overflow_bound : Z := 2 ^ 1024 - 2 ^ 970.

(** [float(n)]: the nearest binary64 number, ties to even;
    [OverflowError] when [n] is too large. *)
Definition float_of_int (n : Z) : result float :=
  if float_overflow_bound <=? Z.abs n then Raise OverflowError
  else Ok (SF2Prim (binary_normalize prec emax n 0 false)).

(** [x / y] on floats. *)
Definition float_truediv (x y : float) : result float :=
  if PrimFloat.eqb y 0 then Raise ZeroDivisionError else Ok (PrimFloat.div x y).

(** [i / y], [i + y], [i - y] with an integer on the left: the integer is
    converted first. *)
Definition int_truediv_float (i : Z) (y : float) : result float :=
  x ← float_of_int i; float_truediv x y.
Definition int_add_float (i : Z) (y : float) : result float :=
  x ← float_of_int i; Ok (PrimFloat.add x y).
Definition int_sub_float (i : Z) (y : float) : result float :=
  x ← float_of_int i; Ok (PrimFloat.sub x y).

(** [x * k] with an integer on the right. *)
Definition float_mul_int (x : float) (k : Z) : result float :=
  y ← float_of_int k; Ok (PrimFloat.mul x y).

(** [int(x)]: truncation towards zero; infinities and NaN raise. *)
Definition int_of_float (x : float) : result Z :=
  match Prim2SF x with
  | S754_zero _ => Ok 0
  | S754_finite s m e =>
      let v := if 0 <=? e then Z.pos m * 2 ^ e else Z.pos m / 2 ^ (- e) in
      Ok (if s then - v else v)
  | S754_infinity _ => Raise OverflowError
  | S754_nan => Raise (ValueError "cannot convert float NaN to integer")
  end.

(** [math.sqrt(n)] for an integer [n]. *)
Definition math_sqrt (n : Z) : result float :=
  x ← float_of_int n;
  if PrimFloat.ltb x 0 then Raise (ValueError "math domain error")
  else Ok (PrimFloat.sqrt x).

(** [sorted(set(xs))] on integers.  The order in which a [set] hands out its
    elements is not specified by the language; [enum] is that order. *)
Definition set_enumeration (enum : gset Z → list Z) : Prop :=
  ∀ s, enum s ≡ₚ elements s.

Definition sorted_set (enum : gset Z → list Z) (xs : list Z) : list Z :=
  merge_sort Z.le (enum (list_to_set xs)).

(* ===================================================================== *)
(** * The alphabet tracker

    The loop body shared, line for line, by [run] of [sbm_ai_monitor.py]
    (lines 315-323) and [run] of [sbm_test.py] (lines 233-241):
<<
        sig = ...
        if sig not in alphabet:
            alphabet[sig] = n
            new_flag = 1
        else:
            new_flag = 0
        w.writerow([n, repr(sig), new_flag, alphabet[sig]])
        alpha_series.append((n, len(alphabet), new_flag))
>>
    A row keeps the signature itself where the script writes its [repr]. *)
(* ===================================================================== *)

Section Tracker.
Context {Sig : Type} `{Countable Sig}.

Record tracker : Type := Tracker {
  alphabet : gmap Sig Z;
  alpha_series : list (Z * Z * Z);
  rows : list (Z * Sig * Z * Z);
}.

Definition tracker_init : tracker :=
  {| alphabet := ∅; alpha_series := []; rows := [] |}.

Definition track (st : tracker) (n : Z) (sig : Sig) : tracker :=
  let '(alphabet', new_flag) :=
    match alphabet st !! sig with
    | None => (<[sig := n]> (alphabet st), 1)
    | Some _ => (alphabet st, 0)
    end in
  {| alphabet := alphabet';
     rows := rows st ++ [(n, sig, new_flag, alphabet' !!! sig)];
     alpha_series := alpha_series st ++ [(n, Z.of_nat (size alphabet'), new_flag)] |}.

(** The [for n in ...] loop around it.  When the signature function raises
    at some index the loop stops there; what was written before stays
    written. *)
Fixpoint sweep (sig_fn : Z → result Sig) (ns : list Z) (st : tracker) : tracker * option exn :=
  match ns with
  | [] => (st, None)
  | n :: ns' =>
      match sig_fn n with
      | Raise e => (st, Some e)
      | Ok sig => sweep sig_fn ns' (track st n sig)
      end
  end.

End Tracker.

Arguments tracker Sig {_ _}.

(** Accessors of the rows of the result stream and of the alpha series. *)
Definition row_n {Sig} (r : Z * Sig * Z * Z) : Z := r.1.1.1.
Definition row_sig {Sig} (r : Z * Sig * Z * Z) : Sig := r.1.1.2.
Definition row_new {Sig} (r : Z * Sig * Z * Z) : Z := r.1.2.
Definition row_first_seen {Sig} (r : Z * Sig * Z * Z) : Z := r.2.

Definition entry_n (e : Z * Z * Z) : Z := e.1.1.
Definition entry_alpha (e : Z * Z * Z) : Z := e.1.2.
Definition entry_new (e : Z * Z * Z) : Z := e.2.

(** Blocks that [compute_fracture_metrics] and [compute_metrics] have in
    common. *)

(** [alpha_series[-1][1] if alpha_series else 0] *)
Definition alpha_last (series : list (Z * Z * Z)) : Z :=
  match last series with Some e => entry_alpha e | None => 0 end.

(** [[n for (n, _a, newf) in alpha_series if newf == 1]] *)
Definition emergence_indices_of (series : list (Z * Z * Z)) : list Z :=
  entry_n <$> filter (λ e, entry_new e = 1) series.

(** [emergence_indices[-1] if emergence_count > 0 else 0] *)
Definition last_emergence_of (emergence_indices : list Z) : Z :=
  if 0 <? len emergence_indices then default 0 (last emergence_indices) else 0.

(** The gaps [emergence_indices[i + 1] - emergence_indices[i]] for
    [i in range(emergence_count - 1)], collected when there are at least two
    emergences. *)
Definition gaps_of (emergence_indices : list Z) : list Z :=
  if 2 <=? len emergence_indices
  then zip_with (λ e e', e' - e) emergence_indices (drop 1 emergence_indices)
  else [].

(** [idx_map = {n: distinct for (n, distinct, _new) in alpha_series}] *)
Definition idx_map_of (series : list (Z * Z * Z)) : gmap Z Z :=
  foldl (λ m e, <[entry_n e := entry_alpha e]> m) ∅ series.

(** [sum(gaps)] on integers. *)
Definition sum_int (xs : list Z) : Z := foldl Z.add 0 xs.

(** The float part of the metrics depends on three library functions whose
    results are fixed by the platform and not by the scripts. *)
Section FloatMetrics.
(** [log] of the C library on a positive binary64 number. *)
Variable libm_log : float → float.
(** [x ** k] for a float [x] and an integer [k]. *)
Variable float_pow_int : float → Z → result float.
(** The builtin [sum] on floats. *)
Variable float_sum : list float → float.

(** [math.log(x)] on a float. *)
Definition math_log (x : float) : result float :=
  if PrimFloat.leb x 0 then Raise (ValueError "math domain error")
  else Ok (libm_log x).

(** [math.log(n)] on an integer that [float] can represent.  (For larger
    integers [math.log] has a path of its own; the metrics code evaluates
    [float(cfg.N)] before it evaluates [math.log(cfg.N)], so that path is
    never taken there.) *)
Definition math_log_int (n : Z) : result float :=
  if n <=? 0 then Raise (ValueError "math domain error")
  else x ← float_of_int n; Ok (libm_log x).

(** [E_N = (emergence_count / float(cfg.N)) if cfg.N > 0 else 0.0] *)
Definition metric_E_N (emergence_count N : Z) : result float :=
  if 0 <? N then d ← float_of_int N; int_truediv_float emergence_count d
  else Ok 0%float.

(** [Hs_N = math.log(alpha_N + 1.0)] *)
Definition metric_Hs_N (alpha_N : Z) : result float :=
  x ← int_add_float alpha_N 1%float; math_log x.

(** [C_N = (Hs_N / math.log(cfg.N)) if cfg.N > 1 else 0.0] *)
Definition metric_C_N (Hs_N : float) (N : Z) : result float :=
  if 1 <? N then l ← math_log_int N; float_truediv Hs_N l
  else Ok 0%float.

(** [mean_gap] and [var_gap]. *)
Definition gap_stats (gaps : list Z) : result (float * float) :=
  if len gaps =? 0 then Ok (0%float, 0%float)
  else
    d ← float_of_int (len gaps);
    mean_gap ← int_truediv_float (sum_int gaps) d;
    var_gap ←
      (if len gaps =? 1 then Ok 0%float
       else
         sq ← map_each (λ g, x ← int_sub_float g mean_gap; float_pow_int x 2) gaps;
         d' ← float_of_int (len gaps);
         float_truediv (float_sum sq) d');
    Ok (mean_gap, var_gap).

End FloatMetrics.

(* ===================================================================== *)
(** * [scripts/sbm_ai_monitor.py]: the state-sequence variant *)
(* ===================================================================== *)

Module AIMonitor.

Record AIMConfig : Type := {
  N : Z;
  H : Z;
  M : Z;
  seed : Z;
  a1 : Z;
  c1 : Z;
  a2 : Z;
  c2 : Z;
  shift_n : Z;
  long_stable_L : Z;
  obs : string;
  pre_mode : string;
  post_mode : string;
}.

Definition Signature : Type := list Z.

(** ** Deterministic stream and observation *)

Definition parity_bit (x : Z) : Z :=
  if Z.land x 1 =? 0 then 0 else 1.

Definition popcnt32 (x : Z) : Z :=
  bit_count (Z.land x 0xFFFFFFFF).

Definition lcg_step (x a c M : Z) : result Z :=
  py_mod (a * x + c) M.

Definition stream_step (x t : Z) (mode : string) (a c M : Z) : result Z :=
  if (mode =? "lcg")%string then lcg_step x a c M
  else if (mode =? "plateau")%string then Ok x
  else if (mode =? "ramp")%string then py_mod (x + (t + 1)) M
  else Raise (ValueError "Unknown mode").

Definition build_stream (cfg : AIMConfig) : result (list Z) :=
  let T := N cfg + H cfg + 1 in
  let xs := replicate (Z.to_nat T) 0 in
  x0 ← py_mod (seed cfg) (M cfg);
  xs ← setitem xs 0 x0;
  for_each
    (λ xs t,
       x ← getitem xs t;
       x' ← (if t <? shift_n cfg
             then stream_step x t (pre_mode cfg) (a1 cfg) (c1 cfg) (M cfg)
             else stream_step x t (post_mode cfg) (a2 cfg) (c2 cfg) (M cfg));
       setitem xs (t + 1) x')
    (range 0 (T - 1)) xs.

Definition obs_bit (x0 x1 : Z) (cfg : AIMConfig) : result Z :=
  if (obs cfg =? "delta_parity")%string then
    d ← py_mod (x1 - x0) (M cfg); Ok (parity_bit d)
  else if (obs cfg =? "xor_parity")%string then
    Ok (parity_bit (Z.land (Z.lxor x0 x1) 0xFFFFFFFF))
  else if (obs cfg =? "x_lsb")%string then
    Ok (parity_bit (Z.land x0 1))
  else if (obs cfg =? "popcnt_parity")%string then
    Ok (parity_bit (popcnt32 (Z.land (Z.lxor x0 x1) 0xFFFFFFFF)))
  else Raise (ValueError "Unknown obs").

Definition signature_at (n : Z) (xs : list Z) (cfg : AIMConfig) : result Signature :=
  for_each
    (λ sig k,
       x0 ← getitem xs (n + k);
       x1 ← getitem xs (n + k + 1);
       b ← obs_bit x0 x1 cfg;
       Ok (sig ++ [b]))
    (range 0 (H cfg)) [].

(** ** Metrics *)

(** [alpha_before], [alpha_at_shift], [alpha_after] (lines 161-173). *)
Definition regime_markers (series : list (Z * Z * Z)) (cfg : AIMConfig) : Z * Z * Z :=
  match series with
  | [] => (0, 0, 0)
  | _ =>
      let '(before, at_shift, after) :=
        foldl (λ '(before, at_shift, after) e,
                 (if entry_n e =? shift_n cfg - 1 then entry_alpha e else before,
                  if entry_n e =? shift_n cfg then entry_alpha e else at_shift,
                  if entry_n e =? N cfg - 1 then entry_alpha e else after))
              (0, 0, 0) series in
      (if shift_n cfg - 1 <? 0 then 0 else before, at_shift, after)
  end.

(** [d_alpha]: first differences of alpha, the value before the first entry
    being 0 (lines 175-179). *)
Fixpoint d_alpha_from (prev : Z) (series : list (Z * Z * Z)) : list Z :=
  match series with
  | [] => []
  | e :: series' => (entry_alpha e - prev) :: d_alpha_from (entry_alpha e) series'
  end.
Definition d_alpha (series : list (Z * Z * Z)) : list Z := d_alpha_from 0 series.

(** The running state of the stability / fracture scan (lines 181-186). *)
Record scan_state : Type := {
  max_spike : Z;
  spike_at_n : Z;
  stable_run : Z;
  max_stable_run : Z;
  fracture_candidate : Z;
  fracture_at_n : Z;
}.

Definition scan_init : scan_state :=
  {| max_spike := 0; spike_at_n := 0; stable_run := 0;
     max_stable_run := 0; fracture_candidate := 0; fracture_at_n := 0 |}.

(** One turn of [for i, da in enumerate(d_alpha)] (lines 188-202). *)
Definition scan_step (L : Z) (st : scan_state) (ida : Z * Z) : scan_state :=
  let '(i, da) := ida in
  let n := i in
  if da =? 0 then
    let stable_run' := stable_run st + 1 in
    {| max_spike := max_spike st; spike_at_n := spike_at_n st;
       stable_run := stable_run';
       max_stable_run :=
         if max_stable_run st <? stable_run' then stable_run' else max_stable_run st;
       fracture_candidate := fracture_candidate st;
       fracture_at_n := fracture_at_n st |}
  else
    let spike := max_spike st <? da in
    let fracture := (L <=? stable_run st) && (1 <=? da) in
    {| max_spike := if spike then da else max_spike st;
       spike_at_n := if spike then n else spike_at_n st;
       stable_run := 0;
       max_stable_run := max_stable_run st;
       fracture_candidate :=
         if fracture then fracture_candidate st + 1 else fracture_candidate st;
       fracture_at_n :=
         if fracture && (fracture_at_n st =? 0) then n else fracture_at_n st |}.

Definition fracture_scan (L : Z) (ds : list Z) : scan_state :=
  foldl (scan_step L) scan_init (enumerate ds).

(** The returned dictionary.  Its first thirteen keys echo the
    configuration, [m_cfg]. *)
Record metrics : Type := {
  m_cfg : AIMConfig;
  alpha_N : Z;
  E_N : float;
  Hs_N : float;
  C_N : float;
  emergence_count : Z;
  last_emergence_n : Z;
  mean_gap : float;
  var_gap : float;
  alpha_before_shift : Z;
  alpha_at_shift : Z;
  alpha_after : Z;
  m_max_stable_run : Z;
  m_max_spike : Z;
  m_spike_at_n : Z;
  fracture_candidate_count : Z;
  fracture_first_at_n : Z;
}.

Section Run.
Variable libm_log : float → float.
Variable float_pow_int : float → Z → result float.
Variable float_sum : list float → float.

Definition compute_fracture_metrics (series : list (Z * Z * Z)) (cfg : AIMConfig)
  : result metrics :=
  let alpha_N := alpha_last series in
  let emergence_indices := emergence_indices_of series in
  let emergence_count := len emergence_indices in
  let last_emergence_n := last_emergence_of emergence_indices in
  E_N ← metric_E_N emergence_count (N cfg);
  Hs_N ← metric_Hs_N libm_log alpha_N;
  C_N ← metric_C_N libm_log Hs_N (N cfg);
  let gaps := gaps_of emergence_indices in
  '(mean_gap, var_gap) ← gap_stats float_pow_int float_sum gaps;
  let '(alpha_before, alpha_at_shift, alpha_after) := regime_markers series cfg in
  let st := fracture_scan (long_stable_L cfg) (d_alpha series) in
  Ok {| m_cfg := cfg;
        alpha_N := alpha_N;
        E_N := E_N;
        Hs_N := Hs_N;
        C_N := C_N;
        emergence_count := emergence_count;
        last_emergence_n := last_emergence_n;
        mean_gap := mean_gap;
        var_gap := var_gap;
        alpha_before_shift := alpha_before;
        alpha_at_shift := alpha_at_shift;
        alpha_after := alpha_after;
        m_max_stable_run := max_stable_run st;
        m_max_spike := max_spike st;
        m_spike_at_n := spike_at_n st;
        fracture_candidate_count := fracture_candidate st;
        fracture_first_at_n := fracture_at_n st |}.

(** ** Main run *)

(** The simulation phase of [run] (lines 306-323): the state stream, then
    the sweep over [range(0, cfg.N)].  The first component is what has been
    written to the results file when the phase ends, normally or not. *)
Definition simulate (cfg : AIMConfig)
  : list (Z * Signature * Z * Z) * result (list (Z * Z * Z)) :=
  match build_stream cfg with
  | Raise e => ([], Raise e)
  | Ok xs =>
      let '(st, err) :=
        sweep (λ n, signature_at n xs cfg) (range 0 (N cfg)) tracker_init in
      (rows st, match err with Some e => Raise e | None => Ok (alpha_series st) end)
  end.

(** The alphabet checkpoints (lines 326-338). *)
Definition checkpoint_candidates (cfg : AIMConfig) : list Z :=
  [100; 200; 500; 1000; 2000; 5000; 10000; 20000; 50000; 100000;
   shift_n cfg - 1; shift_n cfg; N cfg - 1].

Definition checkpoints (enum : gset Z → list Z) (cfg : AIMConfig)
    (series : list (Z * Z * Z)) : result (list (Z * Z)) :=
  let cps :=
    sorted_set enum
      (filter (λ c, 0 ≤ c ∧ c ≤ N cfg - 1) (checkpoint_candidates cfg)) in
  let idx_map := idx_map_of series in
  map_each
    (λ c, match idx_map !! c with Some a => Ok (c, a) | None => Raise KeyError end)
    cps.

(** [run]: the rows of the results file, and, when nothing raised, the
    checkpoint rows and the metrics. *)
Definition run (enum : gset Z → list Z) (cfg : AIMConfig)
  : list (Z * Signature * Z * Z) * result (list (Z * Z) * metrics) :=
  let '(written, outcome) := simulate cfg in
  (written,
   series ← outcome;
   cps ← checkpoints enum cfg series;
   m ← compute_fracture_metrics series cfg;
   Ok (cps, m)).

End Run.

(** The regime-switch index that [main] hands to [run] (lines 375-381): a
    negative argument stands for [N // 2], and the result is clamped, not
    rejected. *)
Definition main_shift_n (N shift_n : Z) : Z :=
  let shift_n := if shift_n <? 0 then N / 2 else shift_n in
  let shift_n := if shift_n <? 0 then 0 else shift_n in
  if N - 1 <? shift_n then N - 1 else shift_n.

End AIMonitor.

(* ===================================================================== *)
(** * [scripts/sbm_test.py]: the index-operator variant *)
(* ===================================================================== *)

Module SBMTest.

Record SBMConfig : Type := {
  op : string;
  H : Z;
  N : Z;
  bands : Z * Z * Z * Z;
}.

(** A signature is the pair [(band, bucket)] of [ssnt_closure] or the tuple
    of integers of the other four operators. *)
Inductive Signature : Type :=
| SigBand (band : string) (bucket : Z)
| SigTrace (trace : list Z).

#[global] Instance Signature_eq_dec : EqDecision Signature.
Proof. solve_decision. Defined.

#[global] Instance Signature_countable : Countable Signature :=
  inj_countable'
    (λ s, match s with SigBand b k => inl (b, k) | SigTrace t => inr t end)
    (λ x, match x with inl (b, k) => SigBand b k | inr t => SigTrace t end)
    (λ s, match s with SigBand _ _ => eq_refl | SigTrace _ => eq_refl end).

(** ** Operators and signatures *)

Definition d_min (n : Z) : Z :=
  if n <=? 3 then (if (n =? 2) || (n =? 3) then 0 else 2)
  else
    let r := Z.sqrt n in
    match list_find (λ d, n mod d = 0) (range 2 (r + 1)) with
    | Some (_, d) => d
    | None => 0
    end.

Definition band_from_dmin (d : Z) (thresholds : Z * Z * Z * Z) : string :=
  if d =? 0 then "P"
  else
    let '(t1, t2, t3, t4) := thresholds in
    if d <=? t1 then "A"
    else if d <=? t2 then "B"
    else if d <=? t3 then "C"
    else if d <=? t4 then "D"
    else "E".

(** [eps = 1e-12], the binary64 number the literal denotes. *)
Definition eps : float := 0x1.19799812dea11p-40%float.

Definition bucket01 (x : float) (k : Z) : result Z :=
  if k <=? 1 then Ok 0
  else
    let x := if PrimFloat.ltb x 0 then 0%float else x in
    let x := if PrimFloat.ltb 1 x then 1%float else x in
    if PrimFloat.ltb 0 x
    then y ← float_mul_int (PrimFloat.sub x eps) k; int_of_float y
    else Ok 0.

Definition op_ssnt_signature (n : Z) (cfg : SBMConfig) : result Signature :=
  let d := d_min n in
  let b := band_from_dmin d (bands cfg) in
  if d =? 0 then Ok (SigBand b 0)
  else
    s ← math_sqrt n;
    hn ← int_truediv_float d s;
    hardness_bucket ← bucket01 hn (H cfg);
    Ok (SigBand b hardness_bucket).

Definition odd_bit (x : Z) : Z := if Z.land x 1 =? 0 then 0 else 1.

Definition op_collatz_parity_signature (n : Z) (cfg : SBMConfig) : result Signature :=
  let '(_, sig) :=
    foldl (λ '(x, sig) _,
             (if Z.land x 1 =? 0 then x / 2 else 3 * x + 1, sig ++ [odd_bit x]))
          (n, []) (range 0 (H cfg)) in
  Ok (SigTrace sig).

Definition xorshift32 (x : Z) : Z :=
  let x := Z.lxor x (Z.land (Z.shiftl x 13) 0xFFFFFFFF) in
  let x := Z.lxor x (Z.land (Z.shiftr x 17) 0xFFFFFFFF) in
  let x := Z.lxor x (Z.land (Z.shiftl x 5) 0xFFFFFFFF) in
  Z.land x 0xFFFFFFFF.

Definition op_xorshift_parity_signature (n : Z) (cfg : SBMConfig) : result Signature :=
  let '(_, sig) :=
    foldl (λ '(x, sig) _, (xorshift32 x, sig ++ [odd_bit x]))
          (Z.land n 0xFFFFFFFF, []) (range 0 (H cfg)) in
  Ok (SigTrace sig).

(** [sdig]: [while x: s += x % 10; x //= 10].  The loop is run with fuel;
    [sdig_fuel x] turns are enough when [0 <= x], and for [x < 0] the loop
    never exits ([x //= 10] sticks at [-1]). *)
Fixpoint sdig_loop (fuel : nat) (s x : Z) : result Z :=
  match fuel with
  | O => Raise Diverges
  | S fuel' => if x =? 0 then Ok s else sdig_loop fuel' (s + x mod 10) (x / 10)
  end.
Definition sdig_fuel (x : Z) : nat := S (Z.to_nat (Z.log2 x + 1)).
Definition sdig (x : Z) : result Z := sdig_loop (sdig_fuel x) 0 x.

Definition op_digitsum_mod9_signature (n : Z) (cfg : SBMConfig) : result Signature :=
  '(_, sig) ←
    for_each (λ '(x, sig) _, x' ← sdig x; Ok (x', sig ++ [x mod 9]))
             (range 0 (H cfg)) (n, []);
  Ok (SigTrace sig).

(** [x.to_bytes(4, byteorder="big")] for [0 <= x < 2^32] and
    [int.from_bytes(bs, byteorder="big")]. *)
Definition byte_of_int (z : Z) : Byte.byte :=
  default Byte.x00 (Byte.of_N (Z.to_N (Z.land z 255))).
Definition to_bytes4 (x : Z) : list Byte.byte :=
  [byte_of_int (Z.shiftr x 24); byte_of_int (Z.shiftr x 16);
   byte_of_int (Z.shiftr x 8); byte_of_int x].
Definition from_bytes (bs : list Byte.byte) : Z :=
  foldl (λ acc b, acc * 256 + Z.of_N (Byte.to_N b)) 0 bs.

Section Run.
(** [hashlib.sha1(data).digest()] *)
Variable sha1_digest : list Byte.byte → list Byte.byte.
Variable libm_log : float → float.
Variable float_pow_int : float → Z → result float.
Variable float_sum : list float → float.

Definition sha1_step (x : Z) : Z :=
  let h := sha1_digest (to_bytes4 x) in
  Z.land (from_bytes (take 4 h)) 0xFFFFFFFF.

Definition op_sha1_parity_signature (n : Z) (cfg : SBMConfig) : result Signature :=
  let '(_, sig) :=
    foldl (λ '(x, sig) _, (sha1_step x, sig ++ [odd_bit x]))
          (Z.land n 0xFFFFFFFF, []) (range 0 (H cfg)) in
  Ok (SigTrace sig).

Definition get_signature_fn (op : string)
  : result (Z → SBMConfig → result Signature) :=
  if (op =? "ssnt_closure")%string then Ok op_ssnt_signature
  else if (op =? "collatz_parity")%string then Ok op_collatz_parity_signature
  else if (op =? "xorshift_parity")%string then Ok op_xorshift_parity_signature
  else if (op =? "digitsum_mod9")%string then Ok op_digitsum_mod9_signature
  else if (op =? "sha1_parity")%string then Ok op_sha1_parity_signature
  else Raise (ValueError ("Unknown op: " +:+ op)).

(** ** Metrics *)

(** The returned dictionary; the keys [op], [N], [H] and [bands] echo the
    configuration, [m_cfg]. *)
Record metrics : Type := {
  m_cfg : SBMConfig;
  alpha_N : Z;
  E_N : float;
  Hs_N : float;
  C_N : float;
  emergence_count : Z;
  last_emergence_n : Z;
  mean_gap : float;
  var_gap : float;
}.

Definition compute_metrics (cfg : SBMConfig) (series : list (Z * Z * Z))
  : result metrics :=
  let alpha_N := alpha_last series in
  let emergence_indices := emergence_indices_of series in
  let emergence_count := len emergence_indices in
  let last_emergence_n := last_emergence_of emergence_indices in
  E_N ← metric_E_N emergence_count (N cfg);
  Hs_N ← metric_Hs_N libm_log alpha_N;
  C_N ← metric_C_N libm_log Hs_N (N cfg);
  let gaps := gaps_of emergence_indices in
  '(mean_gap, var_gap) ← gap_stats float_pow_int float_sum gaps;
  Ok {| m_cfg := cfg;
        alpha_N := alpha_N;
        E_N := E_N;
        Hs_N := Hs_N;
        C_N := C_N;
        emergence_count := emergence_count;
        last_emergence_n := last_emergence_n;
        mean_gap := mean_gap;
        var_gap := var_gap |}.

(** ** Main run *)

(** The simulation phase of [run] (lines 219 and 227-241): operator
    lookup, then the sweep over [range(2, cfg.N + 1)]. *)
Definition simulate (cfg : SBMConfig)
  : list (Z * Signature * Z * Z) * result (list (Z * Z * Z)) :=
  match get_signature_fn (op cfg) with
  | Raise e => ([], Raise e)
  | Ok sig_fn =>
      let '(st, err) :=
        sweep (λ n, sig_fn n cfg) (range 2 (N cfg + 1)) tracker_init in
      (rows st, match err with Some e => Raise e | None => Ok (alpha_series st) end)
  end.

Definition checkpoint_candidates (cfg : SBMConfig) : list Z :=
  [100; 200; 500; 1000; 2000; 5000; 10000; 20000; 50000; 100000; N cfg].

Definition checkpoints (enum : gset Z → list Z) (cfg : SBMConfig)
    (series : list (Z * Z * Z)) : result (list (Z * Z)) :=
  let cps :=
    sorted_set enum
      (filter (λ c, 2 ≤ c ∧ c ≤ N cfg) (checkpoint_candidates cfg)) in
  let idx_map := idx_map_of series in
  map_each
    (λ c, match idx_map !! c with Some a => Ok (c, a) | None => Raise KeyError end)
    cps.

Definition run (enum : gset Z → list Z) (cfg : SBMConfig)
  : list (Z * Signature * Z * Z) * result (list (Z * Z) * metrics) :=
  let '(written, outcome) := simulate cfg in
  (written,
   series ← outcome;
   cps ← checkpoints enum cfg series;
   m ← compute_metrics cfg series;
   Ok (cps, m)).

End Run.

End SBMTest.

(* ===================================================================== *)
(** * [plot_alpha_curve.py]: the series helpers of the plotting script *)
(* ===================================================================== *)

Module PlotAlpha.

(** [filter_emergence_points]: the first point, then every point whose
    alpha differs from the last alpha kept. *)
Definition filter_emergence_points (Ns alphas : list Z) : list Z * list Z :=
  match Ns, alphas with
  | n0 :: Ns', a0 :: alphas' =>
      let '(eN, eA, _) :=
        foldl (λ '(eN, eA, last) '(n, a),
                 if a =? last then (eN, eA, last)
                 else (eN ++ [n], eA ++ [a], a))
              ([n0], [a0], a0) (zip Ns' alphas') in
      (eN, eA)
  | _, _ => ([], [])
  end.

(** [compute_delta_series]: the nonzero differences of consecutive alphas,
    each with the index it occurs at. *)
Definition compute_delta_series (Ns alphas : list Z) : list Z * list Z :=
  match Ns, alphas with
  | _ :: Ns', a0 :: alphas' =>
      let '(dN, dA, _) :=
        foldl (λ '(dN, dA, last) '(n, a),
                 let d := a - last in
                 if d =? 0 then (dN, dA, a) else (dN ++ [n], dA ++ [d], a))
              ([], [], a0) (zip Ns' alphas') in
      (dN, dA)
  | _, _ => ([], [])
  end.

(** The loop of [cap_by_N]: it stops at the first index above the cap. *)
Fixpoint cap_loop (xcap : Z) (pairs : list (Z * Z)) (outN outY : list Z)
  : list Z * list Z :=
  match pairs with
  | [] => (outN, outY)
  | (n, y) :: pairs' =>
      if n <=? xcap then cap_loop xcap pairs' (outN ++ [n]) (outY ++ [y])
      else (outN, outY)
  end.

(** [cap_by_N]; [None] is no cap. *)
Definition cap_by_N (Ns Ys : list Z) (xcap : option Z) : list Z * list Z :=
  match xcap with
  | None => (Ns, Ys)
  | Some c => cap_loop c (zip Ns Ys) [] []
  end.

End PlotAlpha.

(* ===================================================================== *)
(** * Vocabulary of the specification *)
(* ===================================================================== *)

(** ** Growth curve *)

(** The last alpha of a series, [prev] when the series is empty. *)
Definition alpha_last_from (prev : Z) (series : list (Z * Z * Z)) : Z :=
  match last series with Some e => entry_alpha e | None => prev end.

(** Every entry raises alpha by its own new-flag, which is 0 or 1. *)
Fixpoint unit_steps (prev : Z) (series : list (Z * Z * Z)) : Prop :=
  match series with
  | [] => True
  | e :: series' =>
      entry_alpha e - prev = entry_new e
      ∧ (entry_new e = 0 ∨ entry_new e = 1)
      ∧ unit_steps (entry_alpha e) series'
  end.

(** Monotonicity as the specification words it: consecutive entries are
    consecutive indices, alpha does not decrease and grows by 0 or 1. *)
Definition unit_growth (series : list (Z * Z * Z)) : Prop :=
  ∀ (i : nat) e e',
    series !! i = Some e → series !! S i = Some e' →
    entry_n e' = entry_n e + 1
    ∧ entry_alpha e ≤ entry_alpha e'
    ∧ (entry_alpha e' - entry_alpha e = 0 ∨ entry_alpha e' - entry_alpha e = 1).

(** ** Alphabet *)

(** Indices that ascend along the list, as those of a [range] do. *)
Definition ascending (ns : list Z) : Prop :=
  ∀ (i j : nat) n n', (i ≤ j)%nat → ns !! i = Some n → ns !! j = Some n' → n ≤ n'.

Section TrackerVocabulary.
Context {Sig : Type} `{Countable Sig}.

(** Row [r0] at position [j] is the first row that carries signature [s]. *)
Definition first_occurrence (rs : list (Z * Sig * Z * Z)) (s : Sig)
    (j : nat) (r0 : Z * Sig * Z * Z) : Prop :=
  rs !! j = Some r0 ∧ row_sig r0 = s
  ∧ ∀ (k : nat) r', (k < j)%nat → rs !! k = Some r' → row_sig r' ≠ s.

(** What holds of the tracker after the indices [done] have been processed,
    in this order, with signature function [sig_fn]. *)
Record tracker_inv (sig_fn : Z → result Sig) (done : list Z) (st : tracker Sig)
  : Prop := {
  inv_rows_n : row_n <$> rows st = done;
  inv_series_n : entry_n <$> alpha_series st = done;
  inv_flags : entry_new <$> alpha_series st = row_new <$> rows st;
  inv_sig : ∀ r, r ∈ rows st → sig_fn (row_n r) = Ok (row_sig r);
  inv_absent : ∀ s, alphabet st !! s = None → ∀ r, r ∈ rows st → row_sig r ≠ s;
  inv_present : ∀ s v, alphabet st !! s = Some v →
    ∃ j r0, first_occurrence (rows st) s j r0 ∧ row_n r0 = v;
  inv_first_seen : ∀ (i : nat) r, rows st !! i = Some r →
    ∃ j r0, first_occurrence (rows st) (row_sig r) j r0
            ∧ row_n r0 = row_first_seen r
            ∧ (j ≤ i)%nat
            ∧ (row_new r = 1 ↔ j = i)
            ∧ (row_new r = 0 ∨ row_new r = 1);
  inv_steps : unit_steps 0 (alpha_series st);
  inv_size : alpha_last_from 0 (alpha_series st) = Z.of_nat (size (alphabet st));
}.

(** Alphabet soundness of a result stream: the first-seen index of a row
    does not exceed the row's index, rows with equal signatures agree on
    it, and it is the least index of a row with that signature. *)
Definition first_seen_sound (rs : list (Z * Sig * Z * Z)) : Prop :=
  (∀ r, r ∈ rs → row_first_seen r ≤ row_n r)
  ∧ (∀ r r', r ∈ rs → r' ∈ rs → row_sig r = row_sig r' →
       row_first_seen r = row_first_seen r')
  ∧ (∀ r, r ∈ rs →
       (∃ r0, r0 ∈ rs ∧ row_sig r0 = row_sig r ∧ row_n r0 = row_first_seen r)
       ∧ ∀ r', r' ∈ rs → row_sig r' = row_sig r → row_first_seen r ≤ row_n r').

End TrackerVocabulary.

(** ** Scenarios of the specification *)

(** Scenario A: [N=5, H=1, M=8, seed=0], pre-regime [ramp], observation
    [delta_parity]; the other fields are left open. *)
Definition scenario_A (shift : Z) (post : string) (a1 c1 a2 c2 L : Z)
  : AIMonitor.AIMConfig :=
  {| AIMonitor.N := 5; AIMonitor.H := 1; AIMonitor.M := 8; AIMonitor.seed := 0;
     AIMonitor.a1 := a1; AIMonitor.c1 := c1; AIMonitor.a2 := a2; AIMonitor.c2 := c2;
     AIMonitor.shift_n := shift; AIMonitor.long_stable_L := L;
     AIMonitor.obs := "delta_parity";
     AIMonitor.pre_mode := "ramp"; AIMonitor.post_mode := post |}.

(** Scenario A with the command-line defaults for the open fields. *)
Definition scenario_A_lcg (shift : Z) : AIMonitor.AIMConfig :=
  scenario_A shift "lcg" 1664525 1013904223 22695477 1 2000.

(** Scenario B: [op=digitsum_mod9, N=4, H=2], default band thresholds. *)
Definition scenario_B : SBMTest.SBMConfig :=
  {| SBMTest.op := "digitsum_mod9"; SBMTest.H := 2; SBMTest.N := 4;
     SBMTest.bands := (3, 11, 31, 101) |}.

(** A stand-in for [hashlib.sha1] where a concrete one is needed. *)
Definition sha1_stub (data : list Byte.byte) : list Byte.byte := data.

(** ** Fracture scan *)

(** Number of zeros at the head of a list. *)
Fixpoint leading_zeros (ds : list Z) : nat :=
  match ds with
  | d :: ds' => if decide (d = 0) then S (leading_zeros ds') else 0%nat
  | [] => 0%nat
  end.

(** Length of the run of consecutive zero diffs that ends just before
    position [i]. *)
Definition zeros_before (ds : list Z) (i : nat) : nat :=
  leading_zeros (reverse (take i ds)).

(** Position [i] carries a diff of at least 1 that is immediately preceded
    by a run of at least [L] zero diffs. *)
Definition qualifying (L : Z) (ds : list Z) (i : nat) : Prop :=
  ∃ d, ds !! i = Some d ∧ 1 ≤ d ∧ L ≤ Z.of_nat (zeros_before ds i).

(** What the scan state says about the diffs scanned so far. *)
Record scan_inv (L : Z) (ds : list Z) (st : AIMonitor.scan_state) : Prop := {
  scan_run : AIMonitor.stable_run st = Z.of_nat (zeros_before ds (length ds));
  scan_max_bound : ∀ j, (j ≤ length ds)%nat →
    Z.of_nat (zeros_before ds j) ≤ AIMonitor.max_stable_run st;
  scan_max_attained : ∃ j, (j ≤ length ds)%nat
    ∧ Z.of_nat (zeros_before ds j) = AIMonitor.max_stable_run st;
  scan_none : (∀ j, ¬ qualifying L ds j) →
    AIMonitor.fracture_candidate st = 0 ∧ AIMonitor.fracture_at_n st = 0;
  scan_one : ∀ i0, qualifying L ds i0 → (∀ j, qualifying L ds j → j = i0) →
    AIMonitor.fracture_candidate st = 1 ∧ AIMonitor.fracture_at_n st = Z.of_nat i0;
}.

(** Scenario C: an alpha series whose diffs are [1,0,0,1,0,0,0]. *)
Definition scenario_C : list (Z * Z * Z) :=
  [(0, 1, 1); (1, 1, 0); (2, 1, 0); (3, 2, 1); (4, 2, 0); (5, 2, 0); (6, 2, 0)].

(** A configuration around Scenario C: seven indices, [L = 2]. *)
Definition scenario_C_cfg : AIMonitor.AIMConfig :=
  {| AIMonitor.N := 7; AIMonitor.H := 1; AIMonitor.M := 8; AIMonitor.seed := 0;
     AIMonitor.a1 := 1; AIMonitor.c1 := 1; AIMonitor.a2 := 1; AIMonitor.c2 := 1;
     AIMonitor.shift_n := 3; AIMonitor.long_stable_L := 2;
     AIMonitor.obs := "delta_parity";
     AIMonitor.pre_mode := "ramp"; AIMonitor.post_mode := "ramp" |}.

(** Stand-ins for the three float library functions where concrete ones are
    needed: a crude logarithm, squaring, and left-to-right summation. *)
Definition sample_log (x : float) : float := PrimFloat.sub x 1.
Definition sample_pow (x : float) (k : Z) : result float := Ok (PrimFloat.mul x x).
Definition sample_sum (xs : list float) : float := foldl PrimFloat.add 0%float xs.

(** The result stream and the alpha series of Scenario A. *)
Definition scenario_A_rows : list (Z * AIMonitor.Signature * Z * Z) :=
  [(0, [1], 1, 0); (1, [0], 1, 1); (2, [1], 0, 0); (3, [0], 0, 1); (4, [1], 0, 0)].
Definition scenario_A_series : list (Z * Z * Z) :=
  [(0, 1, 1); (1, 2, 1); (2, 2, 0); (3, 2, 0); (4, 2, 0)].

(** The transition modes the script knows. *)
Definition known_mode (mode : string) : Prop :=
  mode = "lcg" ∨ mode = "plateau" ∨ mode = "ramp".

(** [cfg] with another regime-switch index. *)
Definition with_shift (cfg : AIMonitor.AIMConfig) (shift : Z) : AIMonitor.AIMConfig :=
  {| AIMonitor.N := AIMonitor.N cfg; AIMonitor.H := AIMonitor.H cfg;
     AIMonitor.M := AIMonitor.M cfg; AIMonitor.seed := AIMonitor.seed cfg;
     AIMonitor.a1 := AIMonitor.a1 cfg; AIMonitor.c1 := AIMonitor.c1 cfg;
     AIMonitor.a2 := AIMonitor.a2 cfg; AIMonitor.c2 := AIMonitor.c2 cfg;
     AIMonitor.shift_n := shift;
     AIMonitor.long_stable_L := AIMonitor.long_stable_L cfg;
     AIMonitor.obs := AIMonitor.obs cfg;
     AIMonitor.pre_mode := AIMonitor.pre_mode cfg;
     AIMonitor.post_mode := AIMonitor.post_mode cfg |}.

(** The result stream and the alpha series of Scenario B. *)
Definition scenario_B_rows : list (Z * SBMTest.Signature * Z * Z) :=
  [(2, SBMTest.SigTrace [2; 2], 1, 2);
   (3, SBMTest.SigTrace [3; 3], 1, 3);
   (4, SBMTest.SigTrace [4; 4], 1, 4)].
Definition scenario_B_series : list (Z * Z * Z) :=
  [(2, 1, 1); (3, 2, 1); (4, 3, 1)].

(** The operators that use integer arithmetic only. *)
Definition integer_operator (op : string) : Prop :=
  op = "collatz_parity" ∨ op = "xorshift_parity"
  ∨ op = "digitsum_mod9" ∨ op = "sha1_parity".

(** A run of a single index: [N = 1]. *)
Definition single_index_cfg : AIMonitor.AIMConfig :=
  {| AIMonitor.N := 1; AIMonitor.H := 1; AIMonitor.M := 8; AIMonitor.seed := 0;
     AIMonitor.a1 := 1; AIMonitor.c1 := 1; AIMonitor.a2 := 1; AIMonitor.c2 := 1;
     AIMonitor.shift_n := 0; AIMonitor.long_stable_L := 2;
     AIMonitor.obs := "delta_parity";
     AIMonitor.pre_mode := "ramp"; AIMonitor.post_mode := "ramp" |}.
Definition single_index_B : SBMTest.SBMConfig :=
  {| SBMTest.op := "digitsum_mod9"; SBMTest.H := 2; SBMTest.N := 1;
     SBMTest.bands := (3, 11, 31, 101) |}.


(** The metric guards of the specification, on the float fields of a
    metrics record of either variant. *)
Definition metric_guards (N emergence_count : Z) (C_N mean_gap var_gap : float) : Prop :=
  (N ≤ 1 → C_N = 0%float)
  ∧ (emergence_count < 3 → var_gap = 0%float)
  ∧ (emergence_count < 2 → mean_gap = 0%float ∧ var_gap = 0%float).

(** ** Configurations *)

(** The observation modes the script knows. *)
Definition known_obs (obs : string) : Prop :=
  obs = "delta_parity" ∨ obs = "xor_parity" ∨ obs = "x_lsb" ∨ obs = "popcnt_parity".


(** Some step [t] of the stream, [0 <= t < N + H], runs in the pre regime
    (respectively the post regime). *)
Definition pre_regime_used (cfg : AIMonitor.AIMConfig) : Prop :=
  0 < AIMonitor.N cfg + AIMonitor.H cfg ∧ 0 < AIMonitor.shift_n cfg.
Definition post_regime_used (cfg : AIMonitor.AIMConfig) : Prop :=
  0 < AIMonitor.N cfg + AIMonitor.H cfg
  ∧ AIMonitor.shift_n cfg < AIMonitor.N cfg + AIMonitor.H cfg.

(** The operator names the script knows. *)
Definition known_op (op : string) : Prop :=
  op = "ssnt_closure" ∨ integer_operator op.

(** A state-sequence configuration with the command-line defaults for the
    seed, the LCG parameters and the long-stable threshold. *)
Definition probe_cfg (N H M shift : Z) (pre post obs : string) : AIMonitor.AIMConfig :=
  {| AIMonitor.N := N; AIMonitor.H := H; AIMonitor.M := M;
     AIMonitor.seed := 123456789;
     AIMonitor.a1 := 1664525; AIMonitor.c1 := 1013904223;
     AIMonitor.a2 := 22695477; AIMonitor.c2 := 1;
     AIMonitor.shift_n := shift; AIMonitor.long_stable_L := 2000;
     AIMonitor.obs := obs; AIMonitor.pre_mode := pre; AIMonitor.post_mode := post |}.

(* ===================================================================== *)
(** * Vocabulary for further properties of the scripts *)
(* ===================================================================== *)

(** ** State stream *)

(** The transition of step [t]: the pre regime while [t < shift_n], the
    post regime from then on (the right-hand side of lines 104-107 of
    [sbm_ai_monitor.py]). *)
Definition regime_step (cfg : AIMonitor.AIMConfig) (x t : Z) : result Z :=
  if t <? AIMonitor.shift_n cfg
  then AIMonitor.stream_step x t (AIMonitor.pre_mode cfg)
         (AIMonitor.a1 cfg) (AIMonitor.c1 cfg) (AIMonitor.M cfg)
  else AIMonitor.stream_step x t (AIMonitor.post_mode cfg)
         (AIMonitor.a2 cfg) (AIMonitor.c2 cfg) (AIMonitor.M cfg).

(** The stream obeys its recurrence up to step [k]. *)
Definition stream_recurrence (cfg : AIMonitor.AIMConfig) (xs : list Z) (k : Z) : Prop :=
  ∀ t, 0 ≤ t < k →
    ∃ x x', xs !! Z.to_nat t = Some x ∧ xs !! Z.to_nat (t + 1) = Some x'
            ∧ regime_step cfg x t = Ok x'.

(** The observation modes that compare the two states of a pair. *)
Definition difference_obs (obs : string) : Prop :=
  obs = "delta_parity" ∨ obs = "xor_parity" ∨ obs = "popcnt_parity".

(** A bit. *)
Definition is_bit (b : Z) : Prop := b = 0 ∨ b = 1.

(** The observation bit of pair [k] of the window at [n] (the body of the
    loop of [signature_at]). *)
Definition window_bit (cfg : AIMonitor.AIMConfig) (xs : list Z) (n k : Z) : result Z :=
  x0 ← getitem xs (n + k);
  x1 ← getitem xs (n + k + 1);
  AIMonitor.obs_bit x0 x1 cfg.

(** ** Alphabet counts *)

Section CountVocabulary.
Context {Sig : Type} `{Countable Sig}.

(** Number of distinct signatures among some rows. *)
Definition distinct_signatures (rs : list (Z * Sig * Z * Z)) : nat :=
  size (list_to_set (row_sig <$> rs) : gset Sig).

(** The alphabet holds the signatures of the rows, and every alpha of the
    series counts the distinct signatures up to its row. *)
Definition tracker_counts (st : tracker Sig) : Prop :=
  dom (alphabet st) = list_to_set (row_sig <$> rows st)
  ∧ length (alpha_series st) = length (rows st)
  ∧ ∀ (i : nat) e, alpha_series st !! i = Some e →
      entry_alpha e = Z.of_nat (distinct_signatures (take (S i) (rows st))).

End CountVocabulary.

(** All lists of [h] bits. *)
Fixpoint bit_lists (h : nat) : list (list Z) :=
  match h with
  | O => [[]]
  | S h' => ((λ l, 0 :: l) <$> bit_lists h') ++ ((λ l, 1 :: l) <$> bit_lists h')
  end.

(** ** Stability scan *)

(** Position [i] carries a diff of at least 1 preceded by a run of at
    least [L] zero diffs, as a test. *)
Definition qualifyingb (L : Z) (ds : list Z) (i : nat) : bool :=
  match ds !! i with
  | Some d => (1 <=? d) && (L <=? Z.of_nat (zeros_before ds i))
  | None => false
  end.

(** The qualifying positions of a list of diffs, in ascending order. *)
Definition qualifying_positions (L : Z) (ds : list Z) : list nat :=
  filter (λ i, qualifyingb L ds i = true) (seq 0 (length ds)).

(** Number of zero diffs. *)
Definition zero_count (ds : list Z) : nat := length (filter (λ d, d = 0) ds).

(** ** Regime markers and checkpoints *)

(** Alpha of the entry at position [k] of a series, 0 where there is no
    such position. *)
Definition alpha_at (series : list (Z * Z * Z)) (k : Z) : Z :=
  if k <? 0 then 0
  else match series !! Z.to_nat k with Some e => entry_alpha e | None => 0 end.

(** The checkpoint rows: ascending in the index, without repetition. *)
Definition strictly_ascending (cps : list (Z * Z)) : Prop :=
  StronglySorted Z.lt (cps.*1).

(** ** Observation modes and closed forms *)

(** [cfg] with another observation mode. *)
Definition with_obs (cfg : AIMonitor.AIMConfig) (obs : string) : AIMonitor.AIMConfig :=
  {| AIMonitor.N := AIMonitor.N cfg; AIMonitor.H := AIMonitor.H cfg;
     AIMonitor.M := AIMonitor.M cfg; AIMonitor.seed := AIMonitor.seed cfg;
     AIMonitor.a1 := AIMonitor.a1 cfg; AIMonitor.c1 := AIMonitor.c1 cfg;
     AIMonitor.a2 := AIMonitor.a2 cfg; AIMonitor.c2 := AIMonitor.c2 cfg;
     AIMonitor.shift_n := AIMonitor.shift_n cfg;
     AIMonitor.long_stable_L := AIMonitor.long_stable_L cfg;
     AIMonitor.obs := obs;
     AIMonitor.pre_mode := AIMonitor.pre_mode cfg;
     AIMonitor.post_mode := AIMonitor.post_mode cfg |}.

(** The [t]-th triangular number, the drift a ramp has added after [t]
    steps. *)
Definition triangular (t : Z) : Z := t * (t + 1) / 2.

(** ** Index operators *)

(** The operators whose signature is a trace of parity bits. *)
Definition parity_operator (op : string) : Prop :=
  op = "collatz_parity" ∨ op = "xorshift_parity" ∨ op = "sha1_parity".

(** The band names. *)
Definition band_names : list string := ["P"; "A"; "B"; "C"; "D"; "E"].

(* ===================================================================== *)
(** * Facts about the runtime *)
(* ===================================================================== *)

Lemma range_length lo hi : length (range lo hi) = Z.to_nat (hi - lo).
Proof. unfold range. by rewrite length_seqZ. Qed.

Lemma range_lookup lo hi (i : nat) :
  (Z.of_nat i < hi - lo) → range lo hi !! i = Some (lo + Z.of_nat i).
Proof. intros Hi. unfold range. by apply lookup_seqZ_lt. Qed.

Lemma range_lookup_Some lo hi (i : nat) n :
  range lo hi !! i = Some n → n = lo + Z.of_nat i ∧ Z.of_nat i < hi - lo.
Proof. unfold range. intros Hl. by apply lookup_seqZ in Hl. Qed.

Lemma range_elem lo hi n : n ∈ range lo hi ↔ lo ≤ n < hi.
Proof. unfold range. rewrite elem_of_seqZ. lia. Qed.

Lemma range_cons lo hi : lo < hi → range lo hi = lo :: range (lo + 1) hi.
Proof.
  intros Hlt. unfold range. rewrite seqZ_cons by lia.
  f_equal. f_equal; lia.
Qed.

Lemma range_nil lo hi : hi ≤ lo → range lo hi = [].
Proof.
  intros Hle. unfold range, seqZ.
  replace (Z.to_nat (hi - lo)) with 0%nat by lia. done.
Qed.

(* ===================================================================== *)
(** * The alphabet tracker keeps its invariant *)
(* ===================================================================== *)

Lemma alpha_last_from_snoc prev series e :
  alpha_last_from prev (series ++ [e]) = entry_alpha e.
Proof. unfold alpha_last_from. by rewrite last_snoc. Qed.

Lemma alpha_last_from_cons prev e series :
  alpha_last_from prev (e :: series) = alpha_last_from (entry_alpha e) series.
Proof.
  unfold alpha_last_from. rewrite last_cons. by destruct (last series).
Qed.

Lemma unit_steps_snoc prev series e :
  unit_steps prev series →
  entry_alpha e - alpha_last_from prev series = entry_new e →
  entry_new e = 0 ∨ entry_new e = 1 →
  unit_steps prev (series ++ [e]).
Proof.
  revert prev. induction series as [|e0 series IH]; intros prev Hs He Hb.
  - simpl. by repeat split.
  - destruct Hs as (H0 & H1 & Hs). simpl. repeat split; [done..|].
    apply IH; [done| |done]. by rewrite alpha_last_from_cons in He.
Qed.

Lemma unit_steps_lookup prev series (i : nat) e e' :
  unit_steps prev series →
  series !! i = Some e → series !! S i = Some e' →
  entry_alpha e' - entry_alpha e = entry_new e'
  ∧ (entry_new e' = 0 ∨ entry_new e' = 1).
Proof.
  revert prev i. induction series as [|e0 series IH]; intros prev i Hs Hi Hi'.
  - done.
  - destruct Hs as (_ & _ & Hs). destruct i as [|i].
    + simpl in Hi. injection Hi as ->.
      destruct series as [|e1 series]; [done|].
      simpl in Hi'. injection Hi' as ->. by destruct Hs as (? & ? & _).
    + by apply (IH (entry_alpha e0) i).
Qed.

Section TrackerFacts.
Context {Sig : Type} `{Countable Sig}.
Variable sig_fn : Z → result Sig.

Lemma first_occurrence_snoc (rs : list (Z * Sig * Z * Z)) s j r0 r :
  first_occurrence rs s j r0 → first_occurrence (rs ++ [r]) s j r0.
Proof.
  intros (Hj & Hs & Hmin). split; [|split; [done|]].
  - by apply lookup_app_l_Some.
  - intros k r' Hk Hr'. apply (Hmin k r' Hk).
    apply lookup_lt_Some in Hj.
    rewrite lookup_app_l in Hr'; [done|lia].
Qed.

Lemma first_occurrence_new (rs : list (Z * Sig * Z * Z)) r :
  (∀ r', r' ∈ rs → row_sig r' ≠ row_sig r) →
  first_occurrence (rs ++ [r]) (row_sig r) (length rs) r.
Proof.
  intros Hfresh. split; [|split; [done|]].
  - by rewrite lookup_app_r, Nat.sub_diag.
  - intros k r' Hk Hr'. rewrite lookup_app_l in Hr' by done.
    apply Hfresh. eapply list_elem_of_lookup_2; eauto.
Qed.

Lemma tracker_init_inv : tracker_inv sig_fn [] tracker_init.
Proof.
  split; simpl; try done.
  - intros r Hr. by apply elem_of_nil in Hr.
  - intros s _ r Hr. by apply elem_of_nil in Hr.
Qed.

Lemma track_inv done st n sig :
  tracker_inv sig_fn done st → sig_fn n = Ok sig →
  tracker_inv sig_fn (done ++ [n]) (track st n sig).
Proof.
  intros [Hrn Hsn Hfl Hsig Habs Hpre Hfs Hst Hsz] Hn.
  unfold track. destruct (alphabet st !! sig) as [v|] eqn:Hlook.
  - (* known signature *)
    destruct (Hpre sig v Hlook) as (j & r0 & Hocc & Hv).
    assert (Hjlt : (j < length (rows st))%nat)
      by (destruct Hocc as (Hj & _); by apply lookup_lt_Some in Hj).
    split; simpl.
    + by rewrite fmap_app, Hrn.
    + by rewrite fmap_app, Hsn.
    + by rewrite !fmap_app, Hfl.
    + intros r [Hr | ->%list_elem_of_singleton]%elem_of_app; [by apply Hsig|done].
    + intros s Hs r [Hr | ->%list_elem_of_singleton]%elem_of_app.
      * by apply Habs.
      * unfold row_sig; simpl. congruence.
    + intros s v' Hs. destruct (Hpre s v' Hs) as (j' & r0' & Hocc' & Hv').
      exists j', r0'. split; [by apply first_occurrence_snoc|done].
    + intros i r Hi. apply lookup_app_Some in Hi as [Hi | [Hlen Hi]].
      * destruct (Hfs i r Hi) as (j' & r0' & Hocc' & ? & ? & ? & ?).
        exists j', r0'. split; [by apply first_occurrence_snoc|done].
      * apply list_lookup_singleton_Some in Hi as [Hi0 <-].
        exists j, r0. unfold row_sig, row_first_seen, row_new; simpl.
        rewrite lookup_total_alt, Hlook; simpl.
        split; [by apply first_occurrence_snoc|].
        repeat split; try done; try lia; by left.
    + apply unit_steps_snoc; [done| |by left].
      rewrite Hsz. unfold entry_alpha, entry_new; simpl. lia.
    + by rewrite alpha_last_from_snoc.
  - (* new signature *)
    split; simpl.
    + by rewrite fmap_app, Hrn.
    + by rewrite fmap_app, Hsn.
    + by rewrite !fmap_app, Hfl.
    + intros r [Hr | ->%list_elem_of_singleton]%elem_of_app; [by apply Hsig|done].
    + intros s Hs r Hr.
      apply lookup_insert_None in Hs as [Hs Hne].
      apply elem_of_app in Hr as [Hr | ->%list_elem_of_singleton].
      * by apply Habs.
      * unfold row_sig; simpl. congruence.
    + intros s v' Hs. apply lookup_insert_Some in Hs as [[<- <-] | [Hne Hs]].
      * exists (length (rows st)), (n, sig, 1, <[sig:=n]> (alphabet st) !!! sig).
        split; [|done].
        apply (first_occurrence_new (rows st) (n, sig, 1, _)).
        intros r' Hr'. by apply Habs.
      * destruct (Hpre s v' Hs) as (j' & r0' & Hocc' & Hv').
        exists j', r0'. split; [by apply first_occurrence_snoc|done].
    + intros i r Hi. apply lookup_app_Some in Hi as [Hi | [Hlen Hi]].
      * destruct (Hfs i r Hi) as (j' & r0' & Hocc' & ? & ? & ? & ?).
        exists j', r0'. split; [by apply first_occurrence_snoc|done].
      * apply list_lookup_singleton_Some in Hi as [Hi0 <-].
        exists (length (rows st)), (n, sig, 1, <[sig:=n]> (alphabet st) !!! sig).
        split.
        { apply (first_occurrence_new (rows st) (n, sig, 1, _)).
          intros r' Hr'. by apply Habs. }
        unfold row_first_seen, row_new, row_n; simpl.
        rewrite lookup_total_insert_eq.
        repeat split; try done; try lia; by right.
    + apply unit_steps_snoc; [done| |by right].
      rewrite Hsz. unfold entry_alpha, entry_new; simpl.
      rewrite map_size_insert_None by done. lia.
    + by rewrite alpha_last_from_snoc.
Qed.

(** The sweep processes a prefix [done'] of its index list, keeps the
    invariant, and stops early exactly where the signature function
    raises. *)
Lemma sweep_inv ns : ∀ done st,
  tracker_inv sig_fn done st →
  ∃ done' rest,
    ns = done' ++ rest
    ∧ tracker_inv sig_fn (done ++ done') (sweep sig_fn ns st).1
    ∧ ((sweep sig_fn ns st).2 = None → rest = [])
    ∧ (∀ e, (sweep sig_fn ns st).2 = Some e →
         ∃ n rest', rest = n :: rest' ∧ sig_fn n = Raise e).
Proof.
  induction ns as [|n ns IH]; intros done st Hinv.
  - exists [], []. simpl. rewrite app_nil_r. split_and!; done.
  - simpl. destruct (sig_fn n) as [sig|e] eqn:Hn.
    + destruct (IH (done ++ [n]) (track st n sig)) as (done' & rest & -> & Hi & Hnone & Hsome).
      { by apply track_inv. }
      exists (n :: done'), rest. rewrite <- app_assoc in Hi. by split_and!.
    + exists [], (n :: ns). simpl. rewrite app_nil_r. split_and!; try done.
      intros e' [= <-]. by exists n, ns.
Qed.

End TrackerFacts.

Section TrackerConsequences.
Context {Sig : Type} `{Countable Sig}.
Variable sig_fn : Z → result Sig.

Lemma first_occurrence_unique (rs : list (Z * Sig * Z * Z)) s j r0 j' r0' :
  first_occurrence rs s j r0 → first_occurrence rs s j' r0' → j = j' ∧ r0 = r0'.
Proof.
  intros (Hj & Hs & Hmin) (Hj' & Hs' & Hmin').
  assert (j = j') as <-.
  { destruct (Nat.lt_trichotomy j j') as [Hlt | [Heq | Hgt]]; [|done|].
    - by destruct (Hmin' j r0 Hlt Hj).
    - by destruct (Hmin j' r0' Hgt Hj'). }
  split; [done|congruence].
Qed.

Lemma inv_row_index done (st : tracker Sig) (i : nat) r :
  tracker_inv sig_fn done st → rows st !! i = Some r → done !! i = Some (row_n r).
Proof.
  intros Hinv Hr. rewrite <- (inv_rows_n _ _ _ Hinv), list_lookup_fmap, Hr. done.
Qed.

Lemma inv_first_seen_sound done (st : tracker Sig) :
  tracker_inv sig_fn done st → ascending done → first_seen_sound (rows st).
Proof.
  intros Hinv Hasc. split_and!.
  - intros r [i Hi]%list_elem_of_lookup.
    destruct (inv_first_seen _ _ _ Hinv i r Hi) as (j & r0 & (Hj & _) & <- & Hle & _).
    eapply (Hasc j i); eauto using inv_row_index.
  - intros r r' [i Hi]%list_elem_of_lookup [i' Hi']%list_elem_of_lookup Heq.
    destruct (inv_first_seen _ _ _ Hinv i r Hi) as (j & r0 & Hocc & <- & _).
    destruct (inv_first_seen _ _ _ Hinv i' r' Hi') as (j' & r0' & Hocc' & <- & _).
    rewrite <- Heq in Hocc'.
    by destruct (first_occurrence_unique _ _ _ _ _ _ Hocc Hocc') as [_ ->].
  - intros r [i Hi]%list_elem_of_lookup.
    destruct (inv_first_seen _ _ _ Hinv i r Hi) as (j & r0 & (Hj & Hs & Hmin) & <- & _).
    split.
    + exists r0. split_and!; [|done..]. eapply list_elem_of_lookup_2; eauto.
    + intros r' [k Hk]%list_elem_of_lookup Hsig.
      destruct (decide (k < j)%nat) as [Hlt|Hge].
      * by destruct (Hmin k r' Hlt Hk).
      * eapply (Hasc j k); eauto using inv_row_index. lia.
Qed.

Lemma inv_unit_growth done (st : tracker Sig) :
  tracker_inv sig_fn done st →
  (∀ (i : nat) n n', done !! i = Some n → done !! S i = Some n' → n' = n + 1) →
  unit_growth (alpha_series st).
Proof.
  intros Hinv Hsucc i e e' Hi Hi'.
  destruct (unit_steps_lookup _ _ _ _ _ (inv_steps _ _ _ Hinv) Hi Hi') as [Hd Hb].
  split.
  - apply (Hsucc i); rewrite <- (inv_series_n _ _ _ Hinv), list_lookup_fmap.
    + by rewrite Hi.
    + by rewrite Hi'.
  - lia.
Qed.

End TrackerConsequences.

(** A sweep over [range(lo, hi)] from the empty tracker. *)
Lemma sweep_range {Sig : Type} `{Countable Sig} (sig_fn : Z → result Sig) lo hi :
  ∃ done rest,
    range lo hi = done ++ rest
    ∧ tracker_inv sig_fn done (sweep sig_fn (range lo hi) tracker_init).1
    ∧ ((sweep sig_fn (range lo hi) tracker_init).2 = None → rest = [])
    ∧ (∀ e, (sweep sig_fn (range lo hi) tracker_init).2 = Some e →
         ∃ n rest', rest = n :: rest' ∧ sig_fn n = Raise e).
Proof.
  destruct (sweep_inv sig_fn (range lo hi) [] tracker_init (tracker_init_inv sig_fn))
    as (done & rest & ? & ? & ? & ?).
  by exists done, rest.
Qed.

Lemma range_prefix_lookup lo hi done rest (i : nat) n :
  range lo hi = done ++ rest → done !! i = Some n → n = lo + Z.of_nat i.
Proof.
  intros Hr Hi.
  assert (range lo hi !! i = Some n) as Hl by (rewrite Hr; by apply lookup_app_l_Some).
  by apply range_lookup_Some in Hl as [-> _].
Qed.

Lemma range_prefix_ascending lo hi done rest :
  range lo hi = done ++ rest → ascending done.
Proof.
  intros Hr i j n n' Hij Hi Hj.
  rewrite (range_prefix_lookup _ _ _ _ _ _ Hr Hi), (range_prefix_lookup _ _ _ _ _ _ Hr Hj).
  lia.
Qed.

Lemma range_prefix_succ lo hi done rest (i : nat) n n' :
  range lo hi = done ++ rest → done !! i = Some n → done !! S i = Some n' → n' = n + 1.
Proof.
  intros Hr Hi Hj.
  rewrite (range_prefix_lookup _ _ _ _ _ _ Hr Hi), (range_prefix_lookup _ _ _ _ _ _ Hr Hj).
  lia.
Qed.

(** Both [simulate] functions, seen as a sweep. *)
Lemma sweep_range_sound {Sig : Type} `{Countable Sig} (sig_fn : Z → result Sig) lo hi :
  first_seen_sound (rows (sweep sig_fn (range lo hi) tracker_init).1)
  ∧ unit_growth (alpha_series (sweep sig_fn (range lo hi) tracker_init).1).
Proof.
  destruct (sweep_range sig_fn lo hi) as (done & rest & Hr & Hinv & _).
  split.
  - eapply inv_first_seen_sound; eauto using range_prefix_ascending.
  - eapply inv_unit_growth; eauto using range_prefix_succ.
Qed.

(** Every row carries the signature computed at its index. *)
Lemma sweep_range_rows_sig {Sig : Type} `{Countable Sig} (sig_fn : Z → result Sig) lo hi r :
  r ∈ rows (sweep sig_fn (range lo hi) tracker_init).1 →
  sig_fn (row_n r) = Ok (row_sig r).
Proof.
  destruct (sweep_range sig_fn lo hi) as (done & rest & Hr & Hinv & _).
  apply (inv_sig _ _ _ Hinv).
Qed.

(* ===================================================================== *)
(** * Monotonicity and alphabet soundness (C2, C3) *)
(* ===================================================================== *)

(** C2. Monotonicity of the growth curve: in the alpha series of a run of
    either variant, consecutive entries belong to consecutive indices,
    alpha does not decrease from one to the next, and it increases by 0 or
    by 1. *)
Theorem alpha_growth_monotone :
  (∀ cfg written series,
     AIMonitor.simulate cfg = (written, Ok series) → unit_growth series)
  ∧ (∀ sha1 cfg written series,
       SBMTest.simulate sha1 cfg = (written, Ok series) → unit_growth series).
Proof.
  split.
  - intros cfg written series. unfold AIMonitor.simulate.
    destruct (AIMonitor.build_stream cfg) as [xs|e]; [|done].
    pose proof (sweep_range_sound (λ n, AIMonitor.signature_at n xs cfg)
                  0 (AIMonitor.N cfg)) as [_ Hg].
    destruct (sweep _ _ _) as [st [e|]]; [done|].
    by intros [= _ <-].
  - intros sha1 cfg written series. unfold SBMTest.simulate.
    destruct (SBMTest.get_signature_fn sha1 (SBMTest.op cfg)) as [sig_fn|e]; [|done].
    pose proof (sweep_range_sound (λ n, sig_fn n cfg)
                  2 (SBMTest.N cfg + 1)) as [_ Hg].
    destruct (sweep _ _ _) as [st [e|]]; [done|].
    by intros [= _ <-].
Qed.

Lemma alpha_growth_monotone_witness :
  unit_growth [(0, 1, 1); (1, 2, 1); (2, 2, 0); (3, 2, 0); (4, 2, 0)]
  ∧ unit_growth [(2, 1, 1); (3, 2, 1); (4, 3, 1)].
Proof.
  split.
  - apply (proj1 alpha_growth_monotone (scenario_A_lcg 5)
             [(0, [1], 1, 0); (1, [0], 1, 1); (2, [1], 0, 0);
              (3, [0], 0, 1); (4, [1], 0, 0)]).
    vm_compute. reflexivity.
  - apply (proj2 alpha_growth_monotone sha1_stub scenario_B
             [(2, SBMTest.SigTrace [2; 2], 1, 2);
              (3, SBMTest.SigTrace [3; 3], 1, 3);
              (4, SBMTest.SigTrace [4; 4], 1, 4)]).
    vm_compute. reflexivity.
Defined.

(** C3. Alphabet soundness: in the result stream of a run of either
    variant, whether the run completes or stops on an exception, the
    first-seen index of a record never exceeds the record's index, two
    records with the same signature report the same first-seen index, and
    that index is the earliest processed index at which the signature
    occurs; the signature of a record is the one computed at the record's
    index. *)
Theorem first_seen_index_sound :
  (∀ cfg, first_seen_sound (AIMonitor.simulate cfg).1)
  ∧ (∀ sha1 cfg, first_seen_sound (SBMTest.simulate sha1 cfg).1)
  ∧ (∀ cfg xs r,
       AIMonitor.build_stream cfg = Ok xs → r ∈ (AIMonitor.simulate cfg).1 →
       AIMonitor.signature_at (row_n r) xs cfg = Ok (row_sig r))
  ∧ (∀ sha1 cfg sig_fn r,
       SBMTest.get_signature_fn sha1 (SBMTest.op cfg) = Ok sig_fn →
       r ∈ (SBMTest.simulate sha1 cfg).1 →
       sig_fn (row_n r) cfg = Ok (row_sig r)).
Proof.
  assert (Hnil : ∀ Sig, first_seen_sound (@nil (Z * Sig * Z * Z))).
  { intros Sig. split_and!.
    - intros r Hr. by apply elem_of_nil in Hr.
    - intros r r' Hr. by apply elem_of_nil in Hr.
    - intros r Hr. by apply elem_of_nil in Hr. }
  split_and!.
  - intros cfg. unfold AIMonitor.simulate.
    destruct (AIMonitor.build_stream cfg) as [xs|e]; [|apply Hnil].
    pose proof (sweep_range_sound (λ n, AIMonitor.signature_at n xs cfg)
                  0 (AIMonitor.N cfg)) as [Hs _].
    by destruct (sweep _ _ _) as [st err].
  - intros sha1 cfg. unfold SBMTest.simulate.
    destruct (SBMTest.get_signature_fn sha1 (SBMTest.op cfg)) as [sig_fn|e]; [|apply Hnil].
    pose proof (sweep_range_sound (λ n, sig_fn n cfg)
                  2 (SBMTest.N cfg + 1)) as [Hs _].
    by destruct (sweep _ _ _) as [st err].
  - intros cfg xs r Hxs. unfold AIMonitor.simulate. rewrite Hxs.
    pose proof (sweep_range_rows_sig (λ n, AIMonitor.signature_at n xs cfg)
                  0 (AIMonitor.N cfg) r) as Hsig.
    by destruct (sweep _ _ _) as [st err].
  - intros sha1 cfg sig_fn r Hfn. unfold SBMTest.simulate. rewrite Hfn.
    pose proof (sweep_range_rows_sig (λ n, sig_fn n cfg)
                  2 (SBMTest.N cfg + 1) r) as Hsig.
    by destruct (sweep _ _ _) as [st err].
Qed.

Lemma first_seen_index_sound_witness :
  first_seen_sound scenario_A_rows ∧ first_seen_sound scenario_B_rows
  ∧ AIMonitor.signature_at 2 [0; 1; 3; 6; 2; 7; 4] (scenario_A_lcg 5) = Ok [1]
  ∧ SBMTest.op_digitsum_mod9_signature 3 scenario_B = Ok (SBMTest.SigTrace [3; 3]).
Proof.
  destruct first_seen_index_sound as (Ha & Hb & Hc & Hd).
  split_and!.
  - exact (Ha (scenario_A_lcg 5)).
  - exact (Hb sha1_stub scenario_B).
  - apply (Hc (scenario_A_lcg 5) [0; 1; 3; 6; 2; 7; 4] (2, [1], 0, 0)).
    + vm_compute. reflexivity.
    + apply (bool_decide_unpack _). vm_compute. reflexivity.
  - apply (Hd sha1_stub scenario_B SBMTest.op_digitsum_mod9_signature
             (3, SBMTest.SigTrace [3; 3], 1, 3)).
    + vm_compute. reflexivity.
    + apply (bool_decide_unpack _). vm_compute. reflexivity.
Defined.

(* ===================================================================== *)
(** * The minimal divisor (C7) *)
(* ===================================================================== *)

Lemma d_min_small n : n ≤ 3 → SBMTest.d_min n = if decide (n = 2 ∨ n = 3) then 0 else 2.
Proof.
  intros Hn. unfold SBMTest.d_min.
  rewrite (proj2 (Z.leb_le n 3) Hn).
  destruct (decide (n = 2 ∨ n = 3)) as [[-> | ->] | Hne]; [done..|].
  destruct (Z.eqb_spec n 2), (Z.eqb_spec n 3); simpl; try done; lia.
Qed.

Lemma d_min_large n :
  3 < n →
  SBMTest.d_min n =
    match list_find (λ d, n mod d = 0) (range 2 (Z.sqrt n + 1)) with
    | Some (_, d) => d
    | None => 0
    end.
Proof.
  intros Hn. unfold SBMTest.d_min.
  by rewrite (proj2 (Z.leb_gt n 3) Hn).
Qed.

(** A divisor found by the trial division is the least divisor above 1. *)
Lemma trial_division_found n (i : nat) d :
  3 < n →
  list_find (λ d, n mod d = 0) (range 2 (Z.sqrt n + 1)) = Some (i, d) →
  2 ≤ d ≤ Z.sqrt n ∧ (d | n) ∧ ∀ d', 2 ≤ d' → (d' | n) → d ≤ d'.
Proof.
  intros Hn (Hi & Hmod & Hmin)%list_find_Some.
  apply range_lookup_Some in Hi as [-> Hi].
  split_and!; [lia..| |].
  - apply Z.mod_divide; [lia|done].
  - intros d' Hd' Hdiv.
    destruct (Z.le_gt_cases (2 + Z.of_nat i) d') as [|Hlt]; [done|].
    destruct (Hmin (Z.to_nat (d' - 2)) d').
    + rewrite range_lookup by lia. f_equal. lia.
    + lia.
    + apply Z.mod_divide; [lia|done].
Qed.

(** When the trial division finds nothing, the number is prime. *)
Lemma trial_division_none n :
  3 < n →
  list_find (λ d, n mod d = 0) (range 2 (Z.sqrt n + 1)) = None →
  Z.prime n.
Proof.
  intros Hn Hnone. rewrite list_find_None, Forall_forall in Hnone.
  assert (Hno : ∀ d, 2 ≤ d ≤ Z.sqrt n → ¬ (d | n)).
  { intros d Hd Hdiv. apply (Hnone d).
    - apply range_elem. lia.
    - apply Z.mod_divide; [lia|done]. }
  pose proof (Z.sqrt_spec n ltac:(lia)) as Hsq. simpl in Hsq.
  split; [lia|]. intros m Hm [q Hq].
  assert (1 < q < n) as Hqb by nia.
  destruct (Z.le_gt_cases m (Z.sqrt n)) as [Hle|Hgt].
  - apply (Hno m); [lia|]. by exists q.
  - apply (Hno q).
    + split; [lia|]. destruct (Z.le_gt_cases q (Z.sqrt n)); [done|nia].
    + exists m. lia.
Qed.

(** C7, as amended.  For every [n >= 2] the minimal-divisor function
    returns 0 exactly when [n] is prime, and otherwise returns the smallest
    divisor [d] of [n] with [2 <= d <= floor(sqrt n)]; for [n <= 1] it
    returns 2. *)
Theorem d_min_characterization (n : Z) :
  (2 ≤ n →
     (SBMTest.d_min n = 0 ↔ Z.prime n)
     ∧ (SBMTest.d_min n ≠ 0 →
          2 ≤ SBMTest.d_min n ≤ Z.sqrt n
          ∧ (SBMTest.d_min n | n)
          ∧ ∀ d', 2 ≤ d' → (d' | n) → SBMTest.d_min n ≤ d'))
  ∧ (n ≤ 1 → SBMTest.d_min n = 2).
Proof.
  split.
  - intros Hn. destruct (Z.le_gt_cases n 3) as [Hs|Hl].
    + rewrite d_min_small by done.
      assert (n = 2 ∨ n = 3) as Hc by lia.
      rewrite decide_True by done. split; [|done].
      split; [|done]. intros _.
      destruct Hc as [-> | ->]; [apply Z.prime_2|apply Z.prime_3].
    + rewrite d_min_large by lia.
      destruct (list_find _ _) as [[i d]|] eqn:Hfind.
      * destruct (trial_division_found n i d Hl Hfind) as (Hd & Hdiv & Hmin).
        split; [|done]. split; [lia|].
        intros [_ Hp]. destruct (Hp d); [|done].
        pose proof (Z.sqrt_spec n ltac:(lia)) as Hsq. simpl in Hsq. nia.
      * split; [|done]. split; [|done].
        intros _. by apply trial_division_none.
  - intros Hn. rewrite d_min_small by lia.
    rewrite decide_False by lia. done.
Qed.

Lemma d_min_characterization_witness :
  (SBMTest.d_min 35 = 0 ↔ Z.prime 35)
  ∧ (SBMTest.d_min 35 ≠ 0 →
       2 ≤ SBMTest.d_min 35 ≤ Z.sqrt 35
       ∧ (SBMTest.d_min 35 | 35)
       ∧ ∀ d', 2 ≤ d' → (d' | 35) → SBMTest.d_min 35 ≤ d')
  ∧ SBMTest.d_min 0 = 2.
Proof.
  split_and!.
  - apply (proj1 (d_min_characterization 35)). lia.
  - apply (proj1 (d_min_characterization 35)). lia.
  - apply (proj2 (d_min_characterization 0)). lia.
Defined.

(** C7 as stated fails at [n = 1] (and likewise at [n = 0]): 1 is at most
    1, yet the function returns 2 there, not 0. *)
Lemma d_min_one_not_zero :
  SBMTest.d_min 1 = 2
  ∧ ¬ (0 ≤ 1 → (SBMTest.d_min 1 = 0 ↔ (Z.prime 1 ∨ 1 ≤ 1))).
Proof.
  split; [done|]. intros Hclaim.
  destruct (Hclaim ltac:(lia)) as [_ Hback].
  discriminate Hback. right; lia.
Qed.

(* ===================================================================== *)
(** * The stability / fracture scan (C5) *)
(* ===================================================================== *)

Lemma enumerate_from_snoc {A} (i : Z) (xs : list A) x :
  enumerate_from i (xs ++ [x]) = enumerate_from i xs ++ [(i + len xs, x)].
Proof.
  revert i. induction xs as [|y xs IH]; intros i; simpl.
  - unfold len; simpl. by rewrite Z.add_0_r.
  - rewrite IH.
    by replace (i + 1 + len xs) with (i + len (y :: xs))
      by (unfold len; simpl length; lia).
Qed.

Lemma fracture_scan_snoc L ds d :
  AIMonitor.fracture_scan L (ds ++ [d])
  = AIMonitor.scan_step L (AIMonitor.fracture_scan L ds) (len ds, d).
Proof.
  unfold AIMonitor.fracture_scan, enumerate.
  by rewrite enumerate_from_snoc, foldl_snoc.
Qed.

Lemma zeros_before_app ds d (j : nat) :
  (j ≤ length ds)%nat → zeros_before (ds ++ [d]) j = zeros_before ds j.
Proof. intros Hj. unfold zeros_before. by rewrite take_app_le. Qed.

Lemma zeros_before_end ds d :
  zeros_before (ds ++ [d]) (S (length ds))
  = if decide (d = 0) then S (zeros_before ds (length ds)) else 0%nat.
Proof.
  unfold zeros_before.
  rewrite take_ge by (rewrite length_app; simpl; lia).
  rewrite reverse_snoc. simpl. by rewrite firstn_all.
Qed.

Lemma qualifying_lt L ds j : qualifying L ds j → (j < length ds)%nat.
Proof. intros (d & Hd & _). by apply lookup_lt_Some in Hd. Qed.

Lemma qualifying_app L ds d j :
  (j < length ds)%nat → qualifying L (ds ++ [d]) j ↔ qualifying L ds j.
Proof.
  intros Hj. unfold qualifying.
  rewrite zeros_before_app by lia. by rewrite lookup_app_l.
Qed.

Lemma qualifying_end L ds d :
  qualifying L (ds ++ [d]) (length ds)
  ↔ 1 ≤ d ∧ L ≤ Z.of_nat (zeros_before ds (length ds)).
Proof.
  unfold qualifying. rewrite zeros_before_app by lia.
  rewrite lookup_app_r, Nat.sub_diag by lia. simpl. split.
  - by intros (d' & [= <-] & ?).
  - intros ?. by exists d.
Qed.

Lemma qualifying_snoc_cases L ds d j :
  qualifying L (ds ++ [d]) j →
  qualifying L ds j ∨ (j = length ds ∧ qualifying L (ds ++ [d]) (length ds)).
Proof.
  intros Hq. pose proof (qualifying_lt _ _ _ Hq) as Hlt.
  rewrite length_app in Hlt; simpl in Hlt.
  destruct (decide (j < length ds)%nat) as [Hj|Hj].
  - left. by apply (qualifying_app L ds d j).
  - right. assert (j = length ds) as -> by lia. done.
Qed.

Lemma scan_init_inv L : scan_inv L [] AIMonitor.scan_init.
Proof.
  split; simpl; try done.
  - intros j Hj. by replace j with 0%nat by lia.
  - by exists 0%nat.
  - intros i0 Hq. apply qualifying_lt in Hq. simpl in Hq. lia.
Qed.

Lemma scan_step_inv L ds st d :
  scan_inv L ds st →
  scan_inv L (ds ++ [d]) (AIMonitor.scan_step L st (len ds, d)).
Proof.
  intros [Hrun Hub Hatt Hnone Hone].
  assert (Hlen : length (ds ++ [d]) = S (length ds))
    by (rewrite length_app; simpl; lia).
  assert (Hold : ¬ qualifying L (ds ++ [d]) (length ds) →
                 (∀ j, qualifying L (ds ++ [d]) j ↔ qualifying L ds j)).
  { intros Hnew j. split.
    - intros [?|[_ ?]]%qualifying_snoc_cases; done.
    - intros Hq. apply qualifying_app; [|done]. by eapply qualifying_lt. }
  unfold AIMonitor.scan_step. destruct (Z.eqb_spec d 0) as [->|Hd].
  - (* a zero diff lengthens the run *)
    assert (Hnew : ¬ qualifying L (ds ++ [0]) (length ds)).
    { rewrite qualifying_end. lia. }
    split; simpl; rewrite ?Hlen.
    + rewrite zeros_before_end, decide_True by done. lia.
    + intros j Hj. destruct (decide (j = S (length ds))) as [->|Hne].
      * rewrite zeros_before_end, decide_True by done.
        destruct (Z.ltb_spec (AIMonitor.max_stable_run st) (AIMonitor.stable_run st + 1)); lia.
      * rewrite zeros_before_app by lia. specialize (Hub j ltac:(lia)).
        destruct (Z.ltb_spec (AIMonitor.max_stable_run st) (AIMonitor.stable_run st + 1)); lia.
    + destruct Hatt as (j & Hj & Hjm).
      destruct (Z.ltb_spec (AIMonitor.max_stable_run st) (AIMonitor.stable_run st + 1)).
      * exists (S (length ds)). split; [lia|].
        rewrite zeros_before_end, decide_True by done. lia.
      * exists j. split; [lia|]. by rewrite zeros_before_app by lia.
    + intros Hno. apply Hnone. intros j Hq. apply (Hno j). by apply Hold.
    + intros i0 Hq Huniq. apply Hone; [by apply Hold|].
      intros j Hj. apply Huniq. by apply Hold.
  - (* a nonzero diff ends it *)
    destruct ((L <=? AIMonitor.stable_run st) && (1 <=? d)) eqn:Hfr.
    + (* and is a fracture candidate *)
      apply andb_prop in Hfr as [HL H1]. apply Z.leb_le in HL, H1.
      assert (Hnew : qualifying L (ds ++ [d]) (length ds)).
      { rewrite qualifying_end. lia. }
      split; simpl; rewrite ?Hlen.
      * by rewrite zeros_before_end, decide_False.
      * intros j Hj. destruct (decide (j = S (length ds))) as [->|Hne].
        -- rewrite zeros_before_end, decide_False by done.
           destruct Hatt as (j' & _ & <-). lia.
        -- rewrite zeros_before_app by lia. apply Hub. lia.
      * destruct Hatt as (j & Hj & Hjm). exists j. split; [lia|].
        by rewrite zeros_before_app by lia.
      * intros Hno. by destruct (Hno (length ds)).
      * intros i0 Hq Huniq.
        assert (i0 = length ds) as -> by (symmetry; by apply Huniq).
        destruct Hnone as [-> ->].
        { intros j Hj. pose proof (qualifying_lt _ _ _ Hj) as Hlt.
          apply (qualifying_app L ds d j Hlt) in Hj.
          apply Huniq in Hj. lia. }
        simpl. unfold len. done.
    + (* and is none *)
      assert (Hnew : ¬ qualifying L (ds ++ [d]) (length ds)).
      { rewrite qualifying_end. intros [H1 HL].
        apply andb_false_iff in Hfr as [Hfr|Hfr];
          [apply Z.leb_gt in Hfr|apply Z.leb_gt in Hfr]; lia. }
      split; simpl; rewrite ?Hlen.
      * by rewrite zeros_before_end, decide_False.
      * intros j Hj. destruct (decide (j = S (length ds))) as [->|Hne].
        -- rewrite zeros_before_end, decide_False by done.
           destruct Hatt as (j' & _ & <-). lia.
        -- rewrite zeros_before_app by lia. apply Hub. lia.
      * destruct Hatt as (j & Hj & Hjm). exists j. split; [lia|].
        by rewrite zeros_before_app by lia.
      * intros Hno. apply Hnone. intros j Hq. apply (Hno j). by apply Hold.
      * intros i0 Hq Huniq. apply Hone; [by apply Hold|].
        intros j Hj. apply Huniq. by apply Hold.
Qed.

Lemma fracture_scan_inv L ds : scan_inv L ds (AIMonitor.fracture_scan L ds).
Proof.
  induction ds as [|d ds IH] using rev_ind.
  - apply scan_init_inv.
  - rewrite fracture_scan_snoc. by apply scan_step_inv.
Qed.

(** The scan fields of the metrics record are those of [fracture_scan]. *)
Lemma compute_fracture_metrics_scan libm_log float_pow_int float_sum series cfg m :
  AIMonitor.compute_fracture_metrics libm_log float_pow_int float_sum series cfg = Ok m →
  let st := AIMonitor.fracture_scan (AIMonitor.long_stable_L cfg) (AIMonitor.d_alpha series) in
  AIMonitor.m_max_stable_run m = AIMonitor.max_stable_run st
  ∧ AIMonitor.m_max_spike m = AIMonitor.max_spike st
  ∧ AIMonitor.m_spike_at_n m = AIMonitor.spike_at_n st
  ∧ AIMonitor.fracture_candidate_count m = AIMonitor.fracture_candidate st
  ∧ AIMonitor.fracture_first_at_n m = AIMonitor.fracture_at_n st.
Proof.
  unfold AIMonitor.compute_fracture_metrics.
  destruct (metric_E_N _ _) as [e_n|]; [|done]. simpl.
  destruct (metric_Hs_N _ _) as [hs_n|]; [|done]. simpl.
  destruct (metric_C_N _ _ _) as [c_n|]; [|done]. simpl.
  destruct (gap_stats _ _ _) as [[mean var]|]; [|done]. simpl.
  destruct (AIMonitor.regime_markers _ _) as [[before at_shift] after].
  by intros [= <-].
Qed.

Lemma scenario_C_diffs : AIMonitor.d_alpha scenario_C = [1; 0; 0; 1; 0; 0; 0].
Proof. reflexivity. Qed.

Lemma scenario_C_qualifying : qualifying 2 (AIMonitor.d_alpha scenario_C) 3.
Proof. exists 1. rewrite scenario_C_diffs. vm_compute. by split_and!. Qed.

Lemma scenario_C_unique j : qualifying 2 (AIMonitor.d_alpha scenario_C) j → j = 3%nat.
Proof.
  rewrite scenario_C_diffs. intros (d & Hd & H1 & HL).
  do 7 (destruct j as [|j]; [vm_compute in Hd, HL; try done; injection Hd as <-; lia|]).
  done.
Qed.

(** C5, as amended.  When the first differences of an alpha series contain
    exactly one position [i0] that carries a diff of at least 1 right after
    a run of at least [L] zero diffs, the scan records exactly one fracture
    candidate and [fracture_first_at_n = i0].  [max_stable_run] is the
    length of the longest run of zero diffs anywhere in the series: it is
    at least the length of the run before [i0], and equal to it when no
    other run (such as one after [i0]) is longer.  The stable-run counter
    is back at 0 after every nonzero diff.  The metrics record carries
    these scan values. *)
Theorem fracture_scan_single_candidate (L : Z) (series : list (Z * Z * Z)) (i0 : nat) :
  let ds := AIMonitor.d_alpha series in
  let st := AIMonitor.fracture_scan L ds in
  qualifying L ds i0 →
  (∀ j, qualifying L ds j → j = i0) →
  AIMonitor.fracture_candidate st = 1
  ∧ AIMonitor.fracture_at_n st = Z.of_nat i0
  ∧ (∀ j, (j ≤ length ds)%nat →
       Z.of_nat (zeros_before ds j) ≤ AIMonitor.max_stable_run st)
  ∧ (∃ j, (j ≤ length ds)%nat
          ∧ AIMonitor.max_stable_run st = Z.of_nat (zeros_before ds j))
  ∧ ((∀ j, (j ≤ length ds)%nat → (zeros_before ds j ≤ zeros_before ds i0)%nat) →
       AIMonitor.max_stable_run st = Z.of_nat (zeros_before ds i0))
  ∧ (∀ st' i da, da ≠ 0 → AIMonitor.stable_run (AIMonitor.scan_step L st' (i, da)) = 0)
  ∧ (∀ libm_log float_pow_int float_sum cfg m,
       AIMonitor.long_stable_L cfg = L →
       AIMonitor.compute_fracture_metrics libm_log float_pow_int float_sum series cfg
         = Ok m →
       AIMonitor.fracture_candidate_count m = 1
       ∧ AIMonitor.fracture_first_at_n m = Z.of_nat i0
       ∧ AIMonitor.m_max_stable_run m = AIMonitor.max_stable_run st).
Proof.
  intros ds st Hq Huniq.
  destruct (fracture_scan_inv L ds) as [Hrun Hub Hatt Hnone Hone].
  fold st in Hrun, Hub, Hatt, Hnone, Hone.
  destruct (Hone i0 Hq Huniq) as [Hc Hn].
  split_and!; try done.
  - destruct Hatt as (j & ? & ?). by exists j.
  - intros Hmax. destruct Hatt as (j & Hj & Hjm).
    pose proof (qualifying_lt _ _ _ Hq) as Hlt.
    specialize (Hmax j Hj). specialize (Hub i0 ltac:(lia)). lia.
  - intros st' i da Hda. unfold AIMonitor.scan_step.
    by destruct (Z.eqb_spec da 0).
  - intros libm_log float_pow_int float_sum cfg m HL Hm.
    apply compute_fracture_metrics_scan in Hm. rewrite HL in Hm. fold ds st in Hm.
    destruct Hm as (-> & _ & _ & -> & ->). done.
Qed.

Lemma fracture_scan_single_candidate_witness :
  AIMonitor.fracture_candidate (AIMonitor.fracture_scan 2 (AIMonitor.d_alpha scenario_C)) = 1
  ∧ AIMonitor.fracture_at_n (AIMonitor.fracture_scan 2 (AIMonitor.d_alpha scenario_C)) = 3
  ∧ match AIMonitor.compute_fracture_metrics sample_log sample_pow sample_sum
            scenario_C scenario_C_cfg with
    | Ok m => AIMonitor.fracture_candidate_count m = 1
              ∧ AIMonitor.fracture_first_at_n m = 3
    | Raise _ => False
    end.
Proof.
  pose proof (fracture_scan_single_candidate 2 scenario_C 3
                scenario_C_qualifying scenario_C_unique)
    as (Hc & Hn & _ & _ & _ & _ & Hm).
  split_and!; [exact Hc|exact Hn|].
  destruct (AIMonitor.compute_fracture_metrics _ _ _ _ _) as [m|e] eqn:E.
  - destruct (Hm sample_log sample_pow sample_sum scenario_C_cfg m eq_refl E)
      as (? & ? & _).
    by split.
  - vm_compute in E. discriminate E.
Defined.

(** C5 as stated fails on Scenario C with [L = 2]: the only qualifying
    pattern is the run of two zero diffs before index 3, but three zero
    diffs follow it and [max_stable_run] is 3, not 2. *)
Lemma fracture_scan_longer_trailing_run :
  AIMonitor.d_alpha scenario_C = [1; 0; 0; 1; 0; 0; 0]
  ∧ qualifying 2 (AIMonitor.d_alpha scenario_C) 3
  ∧ (∀ j, qualifying 2 (AIMonitor.d_alpha scenario_C) j → j = 3%nat)
  ∧ zeros_before (AIMonitor.d_alpha scenario_C) 3 = 2%nat
  ∧ AIMonitor.fracture_candidate (AIMonitor.fracture_scan 2 (AIMonitor.d_alpha scenario_C)) = 1
  ∧ AIMonitor.max_stable_run (AIMonitor.fracture_scan 2 (AIMonitor.d_alpha scenario_C)) = 3
  ∧ AIMonitor.max_stable_run (AIMonitor.fracture_scan 2 (AIMonitor.d_alpha scenario_C))
    ≠ Z.of_nat (zeros_before (AIMonitor.d_alpha scenario_C) 3).
Proof.
  split_and!; try done.
  - apply scenario_C_qualifying.
  - apply scenario_C_unique.
Qed.

(* ===================================================================== *)
(** * Scenario A (C4) *)
(* ===================================================================== *)

Lemma for_each_ext {A S} (f g : S → A → result S) xs st :
  (∀ s x, x ∈ xs → f s x = g s x) → for_each f xs st = for_each g xs st.
Proof.
  revert st. induction xs as [|x xs IH]; intros st Hfg; simpl; [done|].
  rewrite Hfg by apply list_elem_of_here.
  destruct (g st x) as [st'|e]; simpl; [|done].
  apply IH. intros s y Hy. apply Hfg. by apply list_elem_of_further.
Qed.

(** With [shift_n >= N + H] no step of the stream uses the post regime:
    any such [shift_n] gives the same stream. *)
Lemma build_stream_shift_clamp cfg shift :
  AIMonitor.N cfg + AIMonitor.H cfg ≤ AIMonitor.shift_n cfg →
  AIMonitor.N cfg + AIMonitor.H cfg ≤ shift →
  AIMonitor.build_stream cfg = AIMonitor.build_stream (with_shift cfg shift).
Proof.
  intros Hcfg Hshift. unfold AIMonitor.build_stream, with_shift.
  cbn [AIMonitor.N AIMonitor.H AIMonitor.M AIMonitor.seed AIMonitor.a1 AIMonitor.c1
       AIMonitor.a2 AIMonitor.c2 AIMonitor.shift_n AIMonitor.pre_mode
       AIMonitor.post_mode].
  destruct (py_mod _ _) as [x0|e]; [|done]. cbn [mbind result_bind].
  destruct (setitem _ _ _) as [xs0|e]; [|done]. cbn [mbind result_bind].
  apply for_each_ext. intros xs t [Ht0 Ht6]%range_elem.
  by rewrite (proj2 (Z.ltb_lt t (AIMonitor.shift_n cfg))), (proj2 (Z.ltb_lt t shift)) by lia.
Qed.

Lemma scenario_A_stream_pre shift post a1 c1 a2 c2 L :
  6 ≤ shift →
  AIMonitor.build_stream (scenario_A shift post a1 c1 a2 c2 L)
  = Ok [0; 1; 3; 6; 2; 7; 5].
Proof.
  intros Hshift.
  by rewrite (build_stream_shift_clamp (scenario_A shift post a1 c1 a2 c2 L) 6).
Qed.

(** With [shift_n = N] the last state is produced by the post regime. *)
Lemma scenario_A_stream_post post a1 c1 a2 c2 L :
  known_mode post →
  ∃ x6, AIMonitor.build_stream (scenario_A 5 post a1 c1 a2 c2 L)
        = Ok [0; 1; 3; 6; 2; 7; x6]
        ∧ (post = "ramp" → x6 = 5).
Proof.
  intros [-> | [-> | ->]].
  - exists ((a2 * 7 + c2) mod 8). split; [done|]. discriminate.
  - exists 7. split; [done|]. discriminate.
  - exists 5. split; done.
Qed.

(** The sweep of Scenario A reads the first six states only. *)
Lemma scenario_A_signatures shift post a1 c1 a2 c2 L x6 :
  let cfg := scenario_A shift post a1 c1 a2 c2 L in
  let xs := [0; 1; 3; 6; 2; 7; x6] in
  AIMonitor.signature_at 0 xs cfg = Ok [1]
  ∧ AIMonitor.signature_at 1 xs cfg = Ok [0]
  ∧ AIMonitor.signature_at 2 xs cfg = Ok [1]
  ∧ AIMonitor.signature_at 3 xs cfg = Ok [0]
  ∧ AIMonitor.signature_at 4 xs cfg = Ok [1].
Proof. by split_and!. Qed.

Lemma scenario_A_simulate shift post a1 c1 a2 c2 L x6 :
  AIMonitor.build_stream (scenario_A shift post a1 c1 a2 c2 L)
    = Ok [0; 1; 3; 6; 2; 7; x6] →
  AIMonitor.simulate (scenario_A shift post a1 c1 a2 c2 L)
    = (scenario_A_rows, Ok scenario_A_series).
Proof.
  intros Hxs. unfold AIMonitor.simulate. rewrite Hxs.
  vm_compute. reflexivity.
Qed.

Section ScenarioAMetrics.
Variable libm_log : float → float.
Variable float_pow_int : float → Z → result float.
Variable float_sum : list float → float.
Hypothesis libm_log_5 : PrimFloat.eqb (libm_log 5) 0 = false.

Lemma scenario_A_metrics cfg :
  AIMonitor.N cfg = 5 →
  ∃ m,
    AIMonitor.compute_fracture_metrics libm_log float_pow_int float_sum
      scenario_A_series cfg = Ok m
    ∧ AIMonitor.alpha_N m = 2
    ∧ AIMonitor.emergence_count m = 2
    ∧ AIMonitor.E_N m = 0x1.999999999999ap-2%float
    ∧ AIMonitor.Hs_N m = libm_log 3
    ∧ AIMonitor.C_N m = PrimFloat.div (libm_log 3) (libm_log 5).
Proof.
  intros HN. unfold AIMonitor.compute_fracture_metrics. rewrite HN.
  change (alpha_last scenario_A_series) with 2.
  change (emergence_indices_of scenario_A_series) with [0; 1].
  change (len [0; 1]) with 2.
  change (metric_E_N 2 5) with (Ok 0x1.999999999999ap-2%float).
  change (metric_Hs_N libm_log 2) with (Ok (libm_log 3)).
  cbn [mbind result_bind].
  assert (metric_C_N libm_log (libm_log 3) 5
          = Ok (PrimFloat.div (libm_log 3) (libm_log 5))) as ->.
  { unfold metric_C_N, math_log_int, float_truediv.
    change (float_of_int 5) with (Ok 5%float).
    cbn. by rewrite libm_log_5. }
  change (gaps_of [0; 1]) with [1].
  change (gap_stats float_pow_int float_sum [1]) with (Ok (1%float, 0%float)).
  cbn [mbind result_bind].
  destruct (AIMonitor.regime_markers _ _) as [[before at_shift] after].
  eexists. split; [reflexivity|]. by split_and!.
Qed.

End ScenarioAMetrics.

(** C4, as amended.  Scenario A ([N=5, H=1, M=8, seed=0], pre-regime
    [ramp], observation [delta_parity]) with [shift_n >= N + H = 6], or
    with [shift_n = N = 5] and a known post-regime mode: the stream has
    seven states and begins [0,1,3,6,2,7]; its seventh state is 5 when
    [shift_n >= 6] or the post-regime mode is [ramp]; the signatures at
    indices 0..4 are (1,),(0,),(1,),(0,),(1,); and, the platform's
    [log(5.0)] being nonzero, the metrics record has [alpha_N = 2],
    [emergence_count = 2], [E_N = 0.4] (the binary64 number nearest to
    0.4), [Hs_N = log(3.0)] and [C_N = log(3.0) / log(5.0)]. *)
Theorem scenario_A_holds (libm_log : float → float)
    (float_pow_int : float → Z → result float) (float_sum : list float → float)
    (shift : Z) (post : string) (a1 c1 a2 c2 L : Z) :
  let cfg := scenario_A shift post a1 c1 a2 c2 L in
  6 ≤ shift ∨ (shift = 5 ∧ known_mode post) →
  PrimFloat.eqb (libm_log 5%float) 0%float = false →
  ∃ x6 m,
    AIMonitor.build_stream cfg = Ok [0; 1; 3; 6; 2; 7; x6]
    ∧ (6 ≤ shift ∨ post = "ramp" → x6 = 5)
    ∧ (AIMonitor.signature_at 0 [0; 1; 3; 6; 2; 7; x6] cfg = Ok [1]
       ∧ AIMonitor.signature_at 1 [0; 1; 3; 6; 2; 7; x6] cfg = Ok [0]
       ∧ AIMonitor.signature_at 2 [0; 1; 3; 6; 2; 7; x6] cfg = Ok [1]
       ∧ AIMonitor.signature_at 3 [0; 1; 3; 6; 2; 7; x6] cfg = Ok [0]
       ∧ AIMonitor.signature_at 4 [0; 1; 3; 6; 2; 7; x6] cfg = Ok [1])
    ∧ AIMonitor.simulate cfg = (scenario_A_rows, Ok scenario_A_series)
    ∧ AIMonitor.compute_fracture_metrics libm_log float_pow_int float_sum
        scenario_A_series cfg = Ok m
    ∧ AIMonitor.alpha_N m = 2
    ∧ AIMonitor.emergence_count m = 2
    ∧ AIMonitor.E_N m = 0x1.999999999999ap-2%float
    ∧ AIMonitor.Hs_N m = libm_log 3%float
    ∧ AIMonitor.C_N m = PrimFloat.div (libm_log 3%float) (libm_log 5%float).
Proof.
  intros cfg Hshift Hlog.
  assert (∃ x6, AIMonitor.build_stream cfg = Ok [0; 1; 3; 6; 2; 7; x6]
                ∧ (6 ≤ shift ∨ post = "ramp" → x6 = 5)) as (x6 & Hxs & Hx6).
  { destruct Hshift as [Hge | [-> Hpost]].
    - exists 5. split; [by apply scenario_A_stream_pre|done].
    - destruct (scenario_A_stream_post post a1 c1 a2 c2 L Hpost) as (x6 & Hxs & Hx6).
      exists x6. split; [done|]. intros [?|?]; [lia|by apply Hx6]. }
  destruct (scenario_A_metrics libm_log float_pow_int float_sum Hlog cfg eq_refl)
    as (m & Hm & Hfields).
  destruct (scenario_A_signatures shift post a1 c1 a2 c2 L x6) as (? & ? & ? & ? & ?).
  pose proof (scenario_A_simulate shift post a1 c1 a2 c2 L x6 Hxs).
  destruct Hfields as (? & ? & ? & ? & ?).
  exists x6, m. by split_and!.
Qed.

Lemma scenario_A_holds_witness :
  ∃ x6 m,
    AIMonitor.build_stream (scenario_A_lcg 5) = Ok [0; 1; 3; 6; 2; 7; x6]
    ∧ AIMonitor.simulate (scenario_A_lcg 5) = (scenario_A_rows, Ok scenario_A_series)
    ∧ AIMonitor.compute_fracture_metrics sample_log sample_pow sample_sum
        scenario_A_series (scenario_A_lcg 5) = Ok m
    ∧ AIMonitor.alpha_N m = 2
    ∧ AIMonitor.emergence_count m = 2.
Proof.
  destruct (scenario_A_holds sample_log sample_pow sample_sum
              5 "lcg" 1664525 1013904223 22695477 1 2000)
    as (x6 & m & Hxs & _ & _ & Hsim & Hm & Ha & He & _).
  - right. split; [reflexivity|]. left. reflexivity.
  - vm_compute. reflexivity.
  - exists x6, m. by split_and!.
Defined.

(** C4 as stated fails at [shift_n = N = 5]: step 5 of the stream then
    belongs to the post regime, and with the post-regime mode [plateau]
    (or the default [lcg]) the seventh state is not 5. *)
Lemma scenario_A_seventh_state :
  AIMonitor.N (scenario_A 5 "plateau" 1664525 1013904223 22695477 1 2000)
    ≤ AIMonitor.shift_n (scenario_A 5 "plateau" 1664525 1013904223 22695477 1 2000)
  ∧ AIMonitor.build_stream (scenario_A 5 "plateau" 1664525 1013904223 22695477 1 2000)
    = Ok [0; 1; 3; 6; 2; 7; 7]
  ∧ AIMonitor.build_stream (scenario_A_lcg 5) = Ok [0; 1; 3; 6; 2; 7; 4]
  ∧ take 7 [0; 1; 3; 6; 2; 7; 7] ≠ [0; 1; 3; 6; 2; 7; 5].
Proof. split_and!; done. Qed.

(* ===================================================================== *)
(** * The index-operator run domain and Scenario B (C8) *)
(* ===================================================================== *)

(** [sdig] returns on every non-negative argument: the fuel is enough. *)
Lemma sdig_loop_returns (fuel : nat) : ∀ s x,
  0 ≤ s → 0 ≤ x < 2 ^ Z.of_nat fuel →
  ∃ r, SBMTest.sdig_loop (S fuel) s x = Ok r ∧ 0 ≤ r.
Proof.
  induction fuel as [|fuel IH]; intros s x Hs Hx.
  - assert (x = 0) as -> by (simpl in Hx; lia). by exists s.
  - cbn [SBMTest.sdig_loop]. destruct (Z.eqb_spec x 0) as [->|Hne].
    + by exists s.
    + apply IH.
      * pose proof (Z.mod_pos_bound x 10). lia.
      * split; [apply Z.div_pos; lia|].
        apply Z.div_lt_upper_bound; [lia|].
        rewrite Nat2Z.inj_succ, Z.pow_succ_r in Hx by lia. lia.
Qed.

Lemma sdig_returns x : 0 ≤ x → ∃ r, SBMTest.sdig x = Ok r ∧ 0 ≤ r.
Proof.
  intros Hx. unfold SBMTest.sdig, SBMTest.sdig_fuel.
  apply sdig_loop_returns; [done|]. split; [done|].
  destruct (decide (x = 0)) as [->|Hne]; [done|].
  rewrite Z2Nat.id by (pose proof (Z.log2_nonneg x); lia).
  rewrite Z.add_1_r. apply Z.log2_spec. lia.
Qed.

(** On a negative argument the loop of [sdig] never exits, whatever the
    fuel. *)
Lemma sdig_loop_negative (fuel : nat) : ∀ s x,
  x < 0 → SBMTest.sdig_loop fuel s x = Raise Diverges.
Proof.
  induction fuel as [|fuel IH]; intros s x Hx; [done|].
  cbn [SBMTest.sdig_loop]. destruct (Z.eqb_spec x 0) as [->|Hne]; [lia|].
  apply IH. apply Z.div_lt_upper_bound; lia.
Qed.

Lemma digitsum_loop_returns (ks : list Z) : ∀ x (sig : list Z),
  0 ≤ x →
  ∃ st, for_each (λ '(x, sig) _, x' ← SBMTest.sdig x; Ok (x', sig ++ [x mod 9]))
                 ks (x, sig) = Ok st.
Proof.
  induction ks as [|k ks IH]; intros x sig Hx.
  - by eexists.
  - cbn [for_each]. destruct (sdig_returns x Hx) as (r & -> & Hr).
    cbn [mbind result_bind]. by apply IH.
Qed.

Lemma op_digitsum_returns n cfg :
  0 ≤ n → ∃ sig, SBMTest.op_digitsum_mod9_signature n cfg = Ok sig.
Proof.
  intros Hn. unfold SBMTest.op_digitsum_mod9_signature.
  destruct (digitsum_loop_returns (range 0 (SBMTest.H cfg)) n [] Hn) as ([x sig] & ->).
  by eexists.
Qed.

(** The four integer operators return a signature at every index of a
    run. *)
Lemma integer_operator_returns sha1 op sig_fn n (cfg : SBMTest.SBMConfig) :
  integer_operator op → SBMTest.get_signature_fn sha1 op = Ok sig_fn →
  0 ≤ n → ∃ sig, sig_fn n cfg = Ok sig.
Proof.
  intros [-> | [-> | [-> | ->]]] [= <-] Hn.
  - unfold SBMTest.op_collatz_parity_signature.
    destruct (foldl _ _ _) as [x sig]. by eexists.
  - unfold SBMTest.op_xorshift_parity_signature.
    destruct (foldl _ _ _) as [x sig]. by eexists.
  - by apply op_digitsum_returns.
  - unfold SBMTest.op_sha1_parity_signature.
    destruct (foldl _ _ _) as [x sig]. by eexists.
Qed.

Lemma sweep_total {Sig : Type} `{Countable Sig} (sig_fn : Z → result Sig) ns :
  ∀ st, (∀ n, n ∈ ns → ∃ sig, sig_fn n = Ok sig) → (sweep sig_fn ns st).2 = None.
Proof.
  induction ns as [|n ns IH]; intros st Hok; [done|].
  simpl. destruct (Hok n (list_elem_of_here _ _)) as [sig ->].
  apply IH. intros n' Hn'. apply Hok. by apply list_elem_of_further.
Qed.

(** The domain swept by [SBMTest.simulate]. *)
Lemma sbm_simulate_domain sha1 cfg :
  (∃ rest, range 2 (SBMTest.N cfg + 1)
           = (row_n <$> (SBMTest.simulate sha1 cfg).1) ++ rest)
  ∧ (∀ series, (SBMTest.simulate sha1 cfg).2 = Ok series →
       row_n <$> (SBMTest.simulate sha1 cfg).1 = range 2 (SBMTest.N cfg + 1)
       ∧ entry_n <$> series = range 2 (SBMTest.N cfg + 1)).
Proof.
  unfold SBMTest.simulate.
  destruct (SBMTest.get_signature_fn sha1 (SBMTest.op cfg)) as [sig_fn|e].
  - destruct (sweep_range (λ n, sig_fn n cfg) 2 (SBMTest.N cfg + 1))
      as (done & rest & Hr & Hinv & Hnone & _).
    destruct (sweep _ _ _) as [st err]. simpl in *. split.
    + exists rest. by rewrite (inv_rows_n _ _ _ Hinv).
    + intros series Hs. destruct err as [e|]; [done|]. injection Hs as <-.
      rewrite (Hnone eq_refl), app_nil_r in Hr.
      by rewrite (inv_rows_n _ _ _ Hinv), (inv_series_n _ _ _ Hinv).
  - simpl. split; [by eexists|done].
Qed.

Lemma sbm_simulate_returns sha1 cfg :
  integer_operator (SBMTest.op cfg) →
  ∃ series, (SBMTest.simulate sha1 cfg).2 = Ok series.
Proof.
  intros Hop. unfold SBMTest.simulate.
  destruct (SBMTest.get_signature_fn sha1 (SBMTest.op cfg)) as [sig_fn|e] eqn:Hfn.
  - pose proof (sweep_total (λ n, sig_fn n cfg) (range 2 (SBMTest.N cfg + 1))
                  tracker_init) as Htot.
    destruct (sweep _ _ _) as [st err]. simpl in *.
    rewrite Htot; [by eexists|].
    intros n [Hn _]%range_elem.
    apply (integer_operator_returns sha1 (SBMTest.op cfg)); [done..|lia].
  - by destruct Hop as [Hop | [Hop | [Hop | Hop]]]; rewrite Hop in Hfn.
Qed.

(** The metrics of an index-operator run report the last alpha and the
    number of emergences of the series. *)
Lemma compute_metrics_counts libm_log float_pow_int float_sum cfg series m :
  SBMTest.compute_metrics libm_log float_pow_int float_sum cfg series = Ok m →
  SBMTest.alpha_N m = alpha_last series
  ∧ SBMTest.emergence_count m = len (emergence_indices_of series).
Proof.
  unfold SBMTest.compute_metrics.
  destruct (metric_E_N _ _) as [e_n|]; [|done]. simpl.
  destruct (metric_Hs_N _ _) as [hs_n|]; [|done]. simpl.
  destruct (metric_C_N _ _ _) as [c_n|]; [|done]. simpl.
  destruct (gap_stats _ _ _) as [[mean var]|]; [|done]. simpl.
  by intros [= <-].
Qed.




(* ===================================================================== *)
(** * Metric guards (C9) *)
(* ===================================================================== *)

Lemma metric_C_N_guard libm_log Hs_N N :
  N ≤ 1 → metric_C_N libm_log Hs_N N = Ok 0%float.
Proof.
  intros HN. unfold metric_C_N. by rewrite (proj2 (Z.ltb_ge 1 N)) by lia.
Qed.

Lemma gaps_of_length es :
  len (gaps_of es) = Z.max 0 (len es - 1).
Proof.
  unfold gaps_of, len. destruct (Z.leb_spec 2 (Z.of_nat (length es))).
  - rewrite length_zip_with, length_drop. lia.
  - simpl. lia.
Qed.

Lemma gap_stats_guard float_pow_int float_sum gaps mean var :
  gap_stats float_pow_int float_sum gaps = Ok (mean, var) →
  (len gaps < 2 → var = 0%float) ∧ (len gaps = 0 → mean = 0%float).
Proof.
  unfold gap_stats. destruct (Z.eqb_spec (len gaps) 0) as [H0|H0].
  - by intros [= <- <-].
  - destruct (float_of_int (len gaps)) as [d|]; [|done]. cbn [mbind result_bind].
    destruct (int_truediv_float _ _) as [mean_gap|]; [|done]. cbn [mbind result_bind].
    destruct (Z.eqb_spec (len gaps) 1) as [H1|H1].
    + cbn [mbind result_bind]. intros [= <- <-]. split; [done|lia].
    + destruct (map_each _ _) as [sq|]; [|done]. cbn [mbind result_bind].
      destruct (float_truediv _ _) as [v|]; [|done]. cbn [mbind result_bind].
      intros [= <- <-]. unfold len in *. split; lia.
Qed.

Lemma gap_stats_none float_pow_int float_sum :
  gap_stats float_pow_int float_sum [] = Ok (0%float, 0%float).
Proof. reflexivity. Qed.

Lemma metric_guards_of_blocks libm_log float_pow_int float_sum N series hs c mean var :
  metric_C_N libm_log hs N = Ok c →
  gap_stats float_pow_int float_sum (gaps_of (emergence_indices_of series))
    = Ok (mean, var) →
  metric_guards N (len (emergence_indices_of series)) c mean var.
Proof.
  intros Hc Hg. apply gap_stats_guard in Hg as [Hvar Hmean].
  rewrite gaps_of_length in Hvar, Hmean. split_and!.
  - intros HN. rewrite metric_C_N_guard in Hc by done. by injection Hc as <-.
  - intros He. apply Hvar. lia.
  - intros He. split; [apply Hmean|apply Hvar]; lia.
Qed.

(** C9.  Metric guards: whenever [compute_fracture_metrics] (state-sequence
    variant) or [compute_metrics] (index-operator variant) returns a
    metrics record, [C_N = 0] if [N <= 1], [var_gap = 0] if there are fewer
    than three emergence indices (fewer than two gaps), and [mean_gap = 0]
    and [var_gap = 0] if there are fewer than two emergences.  The guarded
    branches themselves never raise: [C_N] is computed as 0 for every
    [N <= 1], and the gap statistics of an empty gap list are (0, 0). *)
Theorem metric_guards_hold (libm_log : float → float)
    (float_pow_int : float → Z → result float) (float_sum : list float → float) :
  (∀ series cfg m,
     AIMonitor.compute_fracture_metrics libm_log float_pow_int float_sum series cfg
       = Ok m →
     metric_guards (AIMonitor.N cfg) (AIMonitor.emergence_count m)
       (AIMonitor.C_N m) (AIMonitor.mean_gap m) (AIMonitor.var_gap m))
  ∧ (∀ cfg series m,
       SBMTest.compute_metrics libm_log float_pow_int float_sum cfg series = Ok m →
       metric_guards (SBMTest.N cfg) (SBMTest.emergence_count m)
         (SBMTest.C_N m) (SBMTest.mean_gap m) (SBMTest.var_gap m))
  ∧ (∀ Hs_N N, N ≤ 1 → metric_C_N libm_log Hs_N N = Ok 0%float)
  ∧ gap_stats float_pow_int float_sum [] = Ok (0%float, 0%float).
Proof.
  split_and!.
  - intros series cfg m. unfold AIMonitor.compute_fracture_metrics.
    destruct (metric_E_N _ _) as [e_n|]; [|done]. cbn [mbind result_bind].
    destruct (metric_Hs_N _ _) as [hs_n|]; [|done]. cbn [mbind result_bind].
    destruct (metric_C_N _ _ _) as [c_n|] eqn:Hc; [|done]. cbn [mbind result_bind].
    destruct (gap_stats _ _ _) as [[mean var]|] eqn:Hg; [|done]. cbn [mbind result_bind].
    destruct (AIMonitor.regime_markers _ _) as [[before at_shift] after].
    intros [= <-]. simpl. by eapply metric_guards_of_blocks.
  - intros cfg series m. unfold SBMTest.compute_metrics.
    destruct (metric_E_N _ _) as [e_n|]; [|done]. cbn [mbind result_bind].
    destruct (metric_Hs_N _ _) as [hs_n|]; [|done]. cbn [mbind result_bind].
    destruct (metric_C_N _ _ _) as [c_n|] eqn:Hc; [|done]. cbn [mbind result_bind].
    destruct (gap_stats _ _ _) as [[mean var]|] eqn:Hg; [|done]. cbn [mbind result_bind].
    intros [= <-]. simpl. by eapply metric_guards_of_blocks.
  - intros. by apply metric_C_N_guard.
  - reflexivity.
Qed.

Lemma metric_guards_hold_witness :
  match AIMonitor.compute_fracture_metrics sample_log sample_pow sample_sum
          [(0, 1, 1)] single_index_cfg with
  | Ok m => AIMonitor.C_N m = 0%float ∧ AIMonitor.mean_gap m = 0%float
            ∧ AIMonitor.var_gap m = 0%float
  | Raise _ => False
  end
  ∧ match SBMTest.compute_metrics sample_log sample_pow sample_sum
            single_index_B [] with
    | Ok m => SBMTest.C_N m = 0%float ∧ SBMTest.mean_gap m = 0%float
              ∧ SBMTest.var_gap m = 0%float
    | Raise _ => False
    end.
Proof.
  destruct (metric_guards_hold sample_log sample_pow sample_sum) as (Ha & Hb & _).
  split.
  - destruct (AIMonitor.compute_fracture_metrics _ _ _ _ _) as [m|e] eqn:E.
    + destruct (Ha _ _ _ E) as (Hc & _ & Hm).
      assert (AIMonitor.emergence_count m = 1) as Hcount.
      { vm_compute in E. injection E as <-. reflexivity. }
      split; [apply Hc; vm_compute; discriminate|apply Hm; lia].
    + vm_compute in E. discriminate E.
  - destruct (SBMTest.compute_metrics _ _ _ _ _) as [m|e] eqn:E.
    + destruct (Hb _ _ _ E) as (Hc & _ & Hm).
      assert (SBMTest.emergence_count m = 0) as Hcount.
      { vm_compute in E. injection E as <-. reflexivity. }
      split; [apply Hc; vm_compute; discriminate|apply Hm; lia].
    + vm_compute in E. discriminate E.
Defined.

(* ===================================================================== *)
(** * When the stream and the signatures are produced *)
(* ===================================================================== *)

Lemma for_each_returns {A S} (I : S → Prop) (body : S → A → result S) xs :
  ∀ st, I st →
  (∀ s x, x ∈ xs → I s → ∃ s', body s x = Ok s' ∧ I s') →
  ∃ st', for_each body xs st = Ok st' ∧ I st'.
Proof.
  induction xs as [|x xs IH]; intros st Hst Hbody.
  - by exists st.
  - cbn [for_each].
    destruct (Hbody st x (list_elem_of_here _ _) Hst) as (s' & -> & Hs').
    cbn [mbind result_bind]. apply IH; [done|].
    intros s y Hy. apply Hbody. by apply list_elem_of_further.
Qed.

Lemma for_each_ok_inv {A S} (I : S → Prop) (body : S → A → result S) xs :
  ∀ st st', for_each body xs st = Ok st' → I st →
  (∀ s x s', x ∈ xs → I s → body s x = Ok s' → I s') → I st'.
Proof.
  induction xs as [|x xs IH]; intros st st' Hrun Hst Hbody.
  - by injection Hrun as <-.
  - cbn [for_each] in Hrun. destruct (body st x) as [s1|e] eqn:Hs1; [|done].
    cbn [mbind result_bind] in Hrun. apply (IH s1 st' Hrun).
    + apply (Hbody st x s1); [apply list_elem_of_here|done..].
    + intros s y s' Hy. apply Hbody. by apply list_elem_of_further.
Qed.

(** A loop raises when its body raises at some element whatever the
    state. *)
Lemma for_each_raises {A S} (body : S → A → result S) xs x0 :
  x0 ∈ xs → (∀ s, ∃ e, body s x0 = Raise e) →
  ∀ st, ∃ e, for_each body xs st = Raise e.
Proof.
  intros Hin Hraise. induction xs as [|x xs IH]; intros st.
  - by apply elem_of_nil in Hin.
  - cbn [for_each]. destruct (body st x) as [s1|e] eqn:Hs1.
    + cbn [mbind result_bind]. apply elem_of_cons in Hin as [->|Hin].
      * destruct (Hraise st) as [e He]. congruence.
      * by apply IH.
    + by exists e.
Qed.

Lemma norm_index_in_range {A} (xs : list A) i :
  0 ≤ i < len xs → norm_index xs i = Ok (Z.to_nat i).
Proof.
  intros Hi. unfold norm_index.
  rewrite (proj2 (Z.ltb_ge i 0)) by lia.
  rewrite (proj2 (Z.ltb_ge i 0)) by lia.
  by rewrite (proj2 (Z.leb_gt (len xs) i)) by lia.
Qed.

Lemma getitem_in_range xs i : 0 ≤ i < len xs → ∃ x, getitem xs i = Ok x.
Proof.
  intros Hi. unfold getitem. rewrite norm_index_in_range by done.
  cbn [mbind result_bind].
  destruct (lookup_lt_is_Some_2 xs (Z.to_nat i)) as [x ->]; [unfold len in Hi; lia|].
  by exists x.
Qed.

Lemma setitem_in_range xs i v :
  0 ≤ i < len xs → setitem xs i v = Ok (<[Z.to_nat i := v]> xs).
Proof. intros Hi. unfold setitem. by rewrite norm_index_in_range. Qed.

Lemma setitem_length xs i v xs' : setitem xs i v = Ok xs' → len xs' = len xs.
Proof.
  unfold setitem. destruct (norm_index xs i) as [j|]; [|done].
  intros [= <-]. unfold len. by rewrite length_insert.
Qed.

Lemma setitem_nonempty xs i v xs' : setitem xs i v = Ok xs' → 0 < len xs.
Proof.
  unfold setitem, norm_index. intros Hs.
  destruct (_ || _) eqn:Hb; [done|].
  apply orb_false_iff in Hb as [Hlo Hhi].
  apply Z.ltb_ge in Hlo. apply Z.leb_gt in Hhi. lia.
Qed.

Lemma py_mod_ok a b r : py_mod a b = Ok r → b ≠ 0.
Proof. unfold py_mod. by destruct (Z.eqb_spec b 0). Qed.

Lemma py_mod_returns a b : b ≠ 0 → py_mod a b = Ok (a mod b).
Proof. intros Hb. unfold py_mod. by destruct (Z.eqb_spec b 0). Qed.

Lemma stream_step_returns x t mode a c M :
  known_mode mode → M ≠ 0 → ∃ x', AIMonitor.stream_step x t mode a c M = Ok x'.
Proof.
  intros [-> | [-> | ->]] HM; unfold AIMonitor.stream_step, AIMonitor.lcg_step; simpl;
    rewrite ?py_mod_returns by done; by eexists.
Qed.

Lemma stream_step_unknown x t mode a c M :
  ¬ known_mode mode →
  AIMonitor.stream_step x t mode a c M = Raise (ValueError "Unknown mode").
Proof.
  intros Hmode. unfold AIMonitor.stream_step.
  destruct (String.eqb_spec mode "lcg") as [->|_]; [destruct Hmode; by left|].
  destruct (String.eqb_spec mode "plateau") as [->|_];
    [destruct Hmode; right; by left|].
  destruct (String.eqb_spec mode "ramp") as [->|_];
    [destruct Hmode; right; by right|].
  done.
Qed.

(** A stream that was built has [N + H + 1] states, and [M] is not 0. *)
Lemma build_stream_ok cfg xs :
  AIMonitor.build_stream cfg = Ok xs →
  AIMonitor.M cfg ≠ 0
  ∧ 0 < AIMonitor.N cfg + AIMonitor.H cfg + 1
  ∧ len xs = AIMonitor.N cfg + AIMonitor.H cfg + 1.
Proof.
  unfold AIMonitor.build_stream.
  destruct (py_mod _ _) as [x0|] eqn:Hx0; [|done]. cbn [mbind result_bind].
  destruct (setitem _ _ _) as [xs0|] eqn:Hxs0; [|done]. cbn [mbind result_bind].
  intros Hloop. apply py_mod_ok in Hx0.
  pose proof (setitem_nonempty _ _ _ _ Hxs0) as Hpos.
  apply setitem_length in Hxs0.
  unfold len in Hpos, Hxs0. rewrite length_replicate in Hpos, Hxs0.
  split_and!; [done|lia|].
  apply (for_each_ok_inv
           (λ s, len s = AIMonitor.N cfg + AIMonitor.H cfg + 1) _ _ _ _ Hloop).
  - unfold len. lia.
  - intros s t s' _ Hs.
    destruct (getitem s t) as [x|]; [|done]. cbn [mbind result_bind].
    destruct (if t <? _ then _ else _) as [x'|]; [|done]. cbn [mbind result_bind].
    intros Hset. apply setitem_length in Hset. lia.
Qed.

(** The stream is built when [M] is not 0, the modes are known and there is
    room for the seed. *)
Lemma build_stream_returns cfg :
  AIMonitor.M cfg ≠ 0 → 0 ≤ AIMonitor.N cfg + AIMonitor.H cfg →
  known_mode (AIMonitor.pre_mode cfg) → known_mode (AIMonitor.post_mode cfg) →
  ∃ xs, AIMonitor.build_stream cfg = Ok xs.
Proof.
  intros HM HT Hpre Hpost. unfold AIMonitor.build_stream.
  rewrite py_mod_returns by done. cbn [mbind result_bind].
  rewrite setitem_in_range by (unfold len; rewrite length_replicate; lia).
  cbn [mbind result_bind].
  destruct (for_each_returns
              (λ s, len s = AIMonitor.N cfg + AIMonitor.H cfg + 1)
              (λ xs t,
                 x ← getitem xs t;
                 x' ← (if t <? AIMonitor.shift_n cfg
                       then AIMonitor.stream_step x t (AIMonitor.pre_mode cfg)
                              (AIMonitor.a1 cfg) (AIMonitor.c1 cfg) (AIMonitor.M cfg)
                       else AIMonitor.stream_step x t (AIMonitor.post_mode cfg)
                              (AIMonitor.a2 cfg) (AIMonitor.c2 cfg) (AIMonitor.M cfg));
                 setitem xs (t + 1) x')
              (range 0 (AIMonitor.N cfg + AIMonitor.H cfg + 1 - 1))
              (<[Z.to_nat 0 := AIMonitor.seed cfg `mod` AIMonitor.M cfg]>
                 (replicate (Z.to_nat (AIMonitor.N cfg + AIMonitor.H cfg + 1)) 0)))
    as (xs & Hxs & _).
  - unfold len. rewrite length_insert, length_replicate. lia.
  - intros s t [Ht0 Ht1]%range_elem Hs.
    destruct (getitem_in_range s t ltac:(lia)) as [x ->]. cbn [mbind result_bind].
    assert (∃ x', (if t <? AIMonitor.shift_n cfg
                   then AIMonitor.stream_step x t (AIMonitor.pre_mode cfg)
                          (AIMonitor.a1 cfg) (AIMonitor.c1 cfg) (AIMonitor.M cfg)
                   else AIMonitor.stream_step x t (AIMonitor.post_mode cfg)
                          (AIMonitor.a2 cfg) (AIMonitor.c2 cfg) (AIMonitor.M cfg))
                  = Ok x') as [x' ->].
    { destruct (t <? AIMonitor.shift_n cfg); by apply stream_step_returns. }
    cbn [mbind result_bind]. rewrite setitem_in_range by lia.
    eexists. split; [done|]. unfold len in *. rewrite length_insert. lia.
  - by exists xs.
Qed.

Lemma obs_bit_returns x0 x1 cfg :
  known_obs (AIMonitor.obs cfg) → AIMonitor.M cfg ≠ 0 →
  ∃ b, AIMonitor.obs_bit x0 x1 cfg = Ok b.
Proof.
  intros [Ho | [Ho | [Ho | Ho]]] HM; unfold AIMonitor.obs_bit; rewrite Ho; simpl;
    rewrite ?py_mod_returns by done; by eexists.
Qed.

Lemma obs_bit_unknown x0 x1 cfg :
  ¬ known_obs (AIMonitor.obs cfg) →
  AIMonitor.obs_bit x0 x1 cfg = Raise (ValueError "Unknown obs").
Proof.
  intros Hobs. unfold AIMonitor.obs_bit, known_obs in *.
  destruct (String.eqb_spec (AIMonitor.obs cfg) "delta_parity"); [tauto|].
  destruct (String.eqb_spec (AIMonitor.obs cfg) "xor_parity"); [tauto|].
  destruct (String.eqb_spec (AIMonitor.obs cfg) "x_lsb"); [tauto|].
  destruct (String.eqb_spec (AIMonitor.obs cfg) "popcnt_parity"); [tauto|].
  done.
Qed.

Lemma known_obs_dec obs : known_obs obs ∨ ¬ known_obs obs.
Proof.
  unfold known_obs.
  destruct (decide (obs = "delta_parity")); [tauto|].
  destruct (decide (obs = "xor_parity")); [tauto|].
  destruct (decide (obs = "x_lsb")); [tauto|].
  destruct (decide (obs = "popcnt_parity")); tauto.
Qed.

(** Inside the stream every window can be read. *)
Lemma signature_at_returns n xs cfg :
  known_obs (AIMonitor.obs cfg) → AIMonitor.M cfg ≠ 0 →
  0 ≤ n → n + AIMonitor.H cfg < len xs →
  ∃ sig, AIMonitor.signature_at n xs cfg = Ok sig.
Proof.
  intros Hobs HM Hn Hlen. unfold AIMonitor.signature_at.
  destruct (for_each_returns (λ _, True)
              (λ sig k,
                 x0 ← getitem xs (n + k);
                 x1 ← getitem xs (n + k + 1);
                 b ← AIMonitor.obs_bit x0 x1 cfg;
                 Ok (sig ++ [b]))
              (range 0 (AIMonitor.H cfg)) []) as (sig & Hsig & _); [done| |by exists sig].
  intros s k [Hk0 Hk1]%range_elem _.
  destruct (getitem_in_range xs (n + k) ltac:(lia)) as [x0 ->].
  destruct (getitem_in_range xs (n + k + 1) ltac:(lia)) as [x1 ->].
  cbn [mbind result_bind].
  destruct (obs_bit_returns x0 x1 cfg Hobs HM) as [b ->].
  by eexists.
Qed.

(** With an unknown observation mode and a window of at least one pair,
    no signature is produced. *)
Lemma signature_at_unknown n xs cfg :
  ¬ known_obs (AIMonitor.obs cfg) → 0 < AIMonitor.H cfg →
  ∃ e, AIMonitor.signature_at n xs cfg = Raise e.
Proof.
  intros Hobs HH. unfold AIMonitor.signature_at.
  apply (for_each_raises _ _ 0).
  - apply range_elem. lia.
  - intros s. destruct (getitem xs (n + 0)) as [x0|e]; [|by exists e].
    cbn [mbind result_bind].
    destruct (getitem xs (n + 0 + 1)) as [x1|e]; [|by exists e].
    cbn [mbind result_bind]. rewrite obs_bit_unknown by done. by eexists.
Qed.

Lemma signature_at_empty n xs cfg :
  AIMonitor.H cfg ≤ 0 → AIMonitor.signature_at n xs cfg = Ok [].
Proof.
  intros HH. unfold AIMonitor.signature_at. by rewrite range_nil by lia.
Qed.

(** Once the stream is built, either every index of the run has a
    signature or none has. *)
Lemma signature_at_uniform cfg xs :
  AIMonitor.build_stream cfg = Ok xs →
  (∀ n, 0 ≤ n < AIMonitor.N cfg → ∃ sig, AIMonitor.signature_at n xs cfg = Ok sig)
  ∨ (∀ n, ∃ e, AIMonitor.signature_at n xs cfg = Raise e).
Proof.
  intros (HM & HT & Hlen)%build_stream_ok.
  destruct (Z.le_gt_cases (AIMonitor.H cfg) 0) as [HH|HH].
  - left. intros n _. exists []. by apply signature_at_empty.
  - destruct (known_obs_dec (AIMonitor.obs cfg)) as [Hobs|Hobs].
    + left. intros n Hn. apply signature_at_returns; [done..|lia|lia].
    + right. intros n. by apply signature_at_unknown.
Qed.

(** No partial record set: when the simulation phase of a state-sequence
    run raises, nothing has been written to the result stream. *)
Lemma simulate_no_partial cfg written e :
  AIMonitor.simulate cfg = (written, Raise e) → written = [].
Proof.
  unfold AIMonitor.simulate.
  destruct (AIMonitor.build_stream cfg) as [xs|e'] eqn:Hxs; [|by intros [= <- _]].
  destruct (signature_at_uniform cfg xs Hxs) as [Hall|Hnone].
  - pose proof (sweep_total (λ n, AIMonitor.signature_at n xs cfg)
                  (range 0 (AIMonitor.N cfg)) tracker_init) as Htot.
    destruct (sweep _ _ _) as [st err]. simpl in Htot.
    rewrite Htot; [done|]. intros n Hn%range_elem. by apply Hall.
  - destruct (Z.le_gt_cases (AIMonitor.N cfg) 0) as [HN|HN].
    + by rewrite range_nil by lia.
    + rewrite range_cons by lia. cbn [sweep].
      destruct (Hnone 0) as [e0 ->]. by intros [= <- _].
Qed.

(** The simulation phase completes when [M] is not 0, the modes are known
    and the window is not negative. *)
Lemma simulate_returns cfg :
  AIMonitor.M cfg ≠ 0 → 0 ≤ AIMonitor.N cfg + AIMonitor.H cfg →
  known_mode (AIMonitor.pre_mode cfg) → known_mode (AIMonitor.post_mode cfg) →
  known_obs (AIMonitor.obs cfg) →
  ∃ written series, AIMonitor.simulate cfg = (written, Ok series).
Proof.
  intros HM HT Hpre Hpost Hobs.
  destruct (build_stream_returns cfg HM HT Hpre Hpost) as [xs Hxs].
  unfold AIMonitor.simulate. rewrite Hxs.
  destruct (signature_at_uniform cfg xs Hxs) as [Hall|Hnone].
  - pose proof (sweep_total (λ n, AIMonitor.signature_at n xs cfg)
                  (range 0 (AIMonitor.N cfg)) tracker_init) as Htot.
    destruct (sweep _ _ _) as [st err]. simpl in Htot.
    rewrite Htot; [by eexists _, _|]. intros n Hn%range_elem. by apply Hall.
  - destruct (Z.le_gt_cases (AIMonitor.N cfg) 0) as [HN|HN].
    { rewrite range_nil by lia. by eexists _, _. }
    exfalso. apply build_stream_ok in Hxs as (_ & _ & Hlen).
    destruct (Z.le_gt_cases (AIMonitor.H cfg) 0) as [HH|HH].
    + destruct (Hnone 0) as [e He]. by rewrite signature_at_empty in He.
    + destruct (Hnone 0) as [e He].
      destruct (signature_at_returns 0 xs cfg Hobs HM) as [sig Hsig]; [lia..|].
      congruence.
Qed.

(* ===================================================================== *)
(** * The spike fields (C10) *)
(* ===================================================================== *)

Lemma inv_first_new {Sig : Type} `{Countable Sig} (sig_fn : Z → result Sig)
    done (st : tracker Sig) e :
  tracker_inv sig_fn done st → alpha_series st !! 0%nat = Some e → entry_new e = 1.
Proof.
  intros Hinv He.
  assert (entry_new <$> alpha_series st !! 0%nat = Some (entry_new e)) as Hf
    by by rewrite He.
  rewrite <- list_lookup_fmap, (inv_flags _ _ _ Hinv), list_lookup_fmap in Hf.
  destruct (rows st !! 0%nat) as [r|] eqn:Hr; [|done].
  injection Hf as <-.
  destruct (inv_first_seen _ _ _ Hinv 0%nat r Hr) as (j & r0 & _ & _ & Hj & Hnew & _).
  apply Hnew. lia.
Qed.

Lemma d_alpha_unit_steps prev series :
  unit_steps prev series →
  AIMonitor.d_alpha_from prev series = entry_new <$> series
  ∧ Forall (λ d, d = 0 ∨ d = 1) (AIMonitor.d_alpha_from prev series).
Proof.
  revert prev. induction series as [|e series IH]; intros prev Hs; [done|].
  destruct Hs as (Hd & Hb & Hs). destruct (IH _ Hs) as [IH1 IH2].
  simpl. rewrite IH1, Hd. split; [done|].
  constructor; [done|]. by rewrite <- IH1.
Qed.



(** The alpha series of a completed state-sequence run. *)
Lemma simulate_series cfg written series :
  AIMonitor.simulate cfg = (written, Ok series) →
  entry_n <$> series = range 0 (AIMonitor.N cfg)
  ∧ unit_steps 0 series
  ∧ (∀ e, series !! 0%nat = Some e → entry_new e = 1).
Proof.
  unfold AIMonitor.simulate.
  destruct (AIMonitor.build_stream cfg) as [xs|]; [|done].
  destruct (sweep_range (λ n, AIMonitor.signature_at n xs cfg) 0 (AIMonitor.N cfg))
    as (done & rest & Hr & Hinv & Hnone & _).
  destruct (sweep _ _ _) as [st [e|]]; [done|]. simpl in *.
  intros [= _ <-]. rewrite (Hnone eq_refl), app_nil_r in Hr.
  split_and!.
  - by rewrite (inv_series_n _ _ _ Hinv).
  - apply (inv_steps _ _ _ Hinv).
  - intros e. by apply (inv_first_new _ _ _ _ Hinv).
Qed.




(* ===================================================================== *)
(** * Configuration errors (C6) *)
(* ===================================================================== *)

Lemma get_signature_fn_unknown sha1 op :
  ¬ known_op op →
  SBMTest.get_signature_fn sha1 op = Raise (ValueError ("Unknown op: " +:+ op)).
Proof.
  intros Hop. unfold SBMTest.get_signature_fn, known_op, integer_operator in *.
  destruct (String.eqb_spec op "ssnt_closure"); [tauto|].
  destruct (String.eqb_spec op "collatz_parity"); [tauto|].
  destruct (String.eqb_spec op "xorshift_parity"); [tauto|].
  destruct (String.eqb_spec op "digitsum_mod9"); [tauto|].
  destruct (String.eqb_spec op "sha1_parity"); [tauto|].
  done.
Qed.

(** A step that runs in a regime whose mode is unknown raises, whatever the
    stream built so far. *)
Lemma stream_body_raises cfg t :
  (t < AIMonitor.shift_n cfg ∧ ¬ known_mode (AIMonitor.pre_mode cfg))
  ∨ (AIMonitor.shift_n cfg ≤ t ∧ ¬ known_mode (AIMonitor.post_mode cfg)) →
  ∀ xs, ∃ e,
    (x ← getitem xs t;
     x' ← (if t <? AIMonitor.shift_n cfg
           then AIMonitor.stream_step x t (AIMonitor.pre_mode cfg)
                  (AIMonitor.a1 cfg) (AIMonitor.c1 cfg) (AIMonitor.M cfg)
           else AIMonitor.stream_step x t (AIMonitor.post_mode cfg)
                  (AIMonitor.a2 cfg) (AIMonitor.c2 cfg) (AIMonitor.M cfg));
     setitem xs (t + 1) x') = Raise e.
Proof.
  intros Hmode xs. destruct (getitem xs t) as [x|e]; [|by exists e].
  cbn [mbind result_bind]. destruct Hmode as [[Ht Hm] | [Ht Hm]].
  - rewrite (proj2 (Z.ltb_lt _ _) Ht), stream_step_unknown by done. by eexists.
  - rewrite (proj2 (Z.ltb_ge _ _) Ht), stream_step_unknown by done. by eexists.
Qed.

Lemma build_stream_unknown_mode cfg :
  (¬ known_mode (AIMonitor.pre_mode cfg) ∧ pre_regime_used cfg)
  ∨ (¬ known_mode (AIMonitor.post_mode cfg) ∧ post_regime_used cfg) →
  ∃ e, AIMonitor.build_stream cfg = Raise e.
Proof.
  intros Hmode. unfold AIMonitor.build_stream.
  destruct (py_mod _ _) as [x0|e]; [|by exists e]. cbn [mbind result_bind].
  destruct (setitem _ _ _) as [xs0|e]; [|by exists e]. cbn [mbind result_bind].
  destruct Hmode as [[Hm [HT Hs]] | [Hm [HT Hs]]].
  - apply (for_each_raises _ _ 0); [apply range_elem; lia|].
    apply stream_body_raises. left. by split.
  - apply (for_each_raises _ _ (Z.max 0 (AIMonitor.shift_n cfg)));
      [apply range_elem; lia|].
    apply stream_body_raises. right. split; [lia|done].
Qed.

Lemma simulate_of_failed_stream cfg e :
  AIMonitor.build_stream cfg = Raise e → AIMonitor.simulate cfg = ([], Raise e).
Proof. intros Hxs. unfold AIMonitor.simulate. by rewrite Hxs. Qed.

Lemma simulate_unknown_obs cfg :
  ¬ known_obs (AIMonitor.obs cfg) → 0 < AIMonitor.N cfg → 0 < AIMonitor.H cfg →
  ∃ e, AIMonitor.simulate cfg = ([], Raise e).
Proof.
  intros Hobs HN HH. unfold AIMonitor.simulate.
  destruct (AIMonitor.build_stream cfg) as [xs|e]; [|by exists e].
  rewrite range_cons by lia. cbn [sweep].
  destruct (signature_at_unknown 0 xs cfg Hobs HH) as [e ->]. by exists e.
Qed.

(** A run whose simulation phase raised ends there. *)
Lemma run_of_failed_simulate libm_log float_pow_int float_sum enum cfg written e :
  AIMonitor.simulate cfg = (written, Raise e) →
  AIMonitor.run libm_log float_pow_int float_sum enum cfg = (written, Raise e).
Proof. intros Hsim. unfold AIMonitor.run. by rewrite Hsim. Qed.

Lemma sbm_run_of_failed_simulate sha1 libm_log float_pow_int float_sum enum cfg written e :
  SBMTest.simulate sha1 cfg = (written, Raise e) →
  SBMTest.run sha1 libm_log float_pow_int float_sum enum cfg = (written, Raise e).
Proof. intros Hsim. unfold SBMTest.run. by rewrite Hsim. Qed.

(** C6, as amended.  A run stops before any result record exists
    - in the index-operator variant, when the operator name is unknown;
    - in the state-sequence variant, when [M = 0], when the mode of a
      regime that some step [t] in [[0, N + H)] runs in is unknown, or when
      the observation mode is unknown and [N >= 1], [H >= 1].
    Whenever the simulation phase of a state-sequence run raises, its
    result stream is empty (there is no partial record set), and the run
    ends with that exception.  An out-of-range [shift_n] on the command
    line is clamped into [[0, N - 1]], not rejected. *)
Theorem config_errors_before_records :
  (∀ sha1 cfg, ¬ known_op (SBMTest.op cfg) →
     SBMTest.simulate sha1 cfg
     = ([], Raise (ValueError ("Unknown op: " +:+ SBMTest.op cfg))))
  ∧ (∀ cfg, AIMonitor.M cfg = 0 →
       AIMonitor.simulate cfg = ([], Raise ZeroDivisionError))
  ∧ (∀ cfg,
       (¬ known_mode (AIMonitor.pre_mode cfg) ∧ pre_regime_used cfg)
       ∨ (¬ known_mode (AIMonitor.post_mode cfg) ∧ post_regime_used cfg) →
       ∃ e, AIMonitor.simulate cfg = ([], Raise e))
  ∧ (∀ cfg, ¬ known_obs (AIMonitor.obs cfg) →
       0 < AIMonitor.N cfg → 0 < AIMonitor.H cfg →
       ∃ e, AIMonitor.simulate cfg = ([], Raise e))
  ∧ (∀ cfg written e,
       AIMonitor.simulate cfg = (written, Raise e) → written = [])
  ∧ (∀ libm_log float_pow_int float_sum enum cfg written e,
       AIMonitor.simulate cfg = (written, Raise e) →
       AIMonitor.run libm_log float_pow_int float_sum enum cfg = ([], Raise e))
  ∧ (∀ sha1 libm_log float_pow_int float_sum enum cfg,
       ¬ known_op (SBMTest.op cfg) →
       SBMTest.run sha1 libm_log float_pow_int float_sum enum cfg
       = ([], Raise (ValueError ("Unknown op: " +:+ SBMTest.op cfg))))
  ∧ (∀ N shift, 1 ≤ N → 0 ≤ AIMonitor.main_shift_n N shift ≤ N - 1).
Proof.
  split_and!.
  - intros sha1 cfg Hop. unfold SBMTest.simulate.
    by rewrite get_signature_fn_unknown.
  - intros cfg HM. apply simulate_of_failed_stream.
    unfold AIMonitor.build_stream, py_mod. by rewrite HM.
  - intros cfg Hmode. destruct (build_stream_unknown_mode cfg Hmode) as [e He].
    exists e. by apply simulate_of_failed_stream.
  - apply simulate_unknown_obs.
  - apply simulate_no_partial.
  - intros libm_log float_pow_int float_sum enum cfg written e Hsim.
    pose proof (simulate_no_partial _ _ _ Hsim) as ->.
    by apply run_of_failed_simulate.
  - intros sha1 libm_log float_pow_int float_sum enum cfg Hop.
    apply sbm_run_of_failed_simulate. unfold SBMTest.simulate.
    by rewrite get_signature_fn_unknown.
  - intros N shift HN. unfold AIMonitor.main_shift_n.
    pose proof (Z.div_pos N 2 ltac:(lia) ltac:(lia)).
    destruct (Z.ltb_spec shift 0);
      repeat match goal with |- context [?a <? ?b] => destruct (Z.ltb_spec a b) end;
      lia.
Qed.

Lemma config_errors_before_records_witness :
  SBMTest.simulate sha1_stub
    {| SBMTest.op := "mystery"; SBMTest.H := 2; SBMTest.N := 4;
       SBMTest.bands := (3, 11, 31, 101) |}
  = ([], Raise (ValueError "Unknown op: mystery"))
  ∧ AIMonitor.simulate (probe_cfg 5 1 0 2 "lcg" "lcg" "xor_parity")
    = ([], Raise ZeroDivisionError)
  ∧ (∃ e, AIMonitor.simulate (probe_cfg 5 1 8 2 "lcg" "mystery" "xor_parity")
          = ([], Raise e))
  ∧ (∃ e, AIMonitor.simulate (probe_cfg 5 1 8 2 "lcg" "lcg" "mystery")
          = ([], Raise e))
  ∧ 0 ≤ AIMonitor.main_shift_n 5 7 ≤ 5 - 1.
Proof.
  destruct config_errors_before_records
    as (Hop & HM & Hmode & Hobs & _ & _ & _ & Hclamp).
  split_and!; [| | | |apply Hclamp; lia..].
  - apply (Hop sha1_stub
             {| SBMTest.op := "mystery"; SBMTest.H := 2; SBMTest.N := 4;
                SBMTest.bands := (3, 11, 31, 101) |}).
    unfold known_op, integer_operator. simpl.
    intros [? | [? | [? | [? | ?]]]]; discriminate.
  - apply (HM (probe_cfg 5 1 0 2 "lcg" "lcg" "xor_parity")). reflexivity.
  - apply (Hmode (probe_cfg 5 1 8 2 "lcg" "mystery" "xor_parity")).
    right. split.
    + unfold known_mode. simpl. intros [? | [? | ?]]; discriminate.
    + unfold post_regime_used. simpl. lia.
  - apply (Hobs (probe_cfg 5 1 8 2 "lcg" "lcg" "mystery")).
    + unfold known_obs. simpl. intros [? | [? | [? | ?]]]; discriminate.
    + simpl. lia.
    + simpl. lia.
Defined.

(** C6 as stated fails: the core does not reject a non-positive [H] or [N],
    a negative [M], a [shift_n] outside [[0, N]], or an unknown mode of a
    regime that no step runs in.  With [H = 0] a run over three indices
    completes and writes three records; so it does with [M = -8], with
    [shift_n = -3], with [shift_n = 13] and with an unknown pre-regime mode
    at [shift_n = 0]; with [N = 0] the run completes with an empty
    stream.  The run with [H = 0] goes on to write its checkpoints and
    metrics. *)
Lemma invalid_configurations_run :
  AIMonitor.H (probe_cfg 3 0 8 1 "ramp" "lcg" "delta_parity") ≤ 0
  ∧ AIMonitor.simulate (probe_cfg 3 0 8 1 "ramp" "lcg" "delta_parity")
    = ([(0, [], 1, 0); (1, [], 0, 0); (2, [], 0, 0)],
       Ok [(0, 1, 1); (1, 1, 0); (2, 1, 0)])
  ∧ AIMonitor.simulate (probe_cfg 3 1 (-8) 1 "ramp" "plateau" "delta_parity")
    = ([(0, [1], 1, 0); (1, [0], 1, 1); (2, [0], 0, 1)],
       Ok [(0, 1, 1); (1, 2, 1); (2, 2, 0)])
  ∧ AIMonitor.simulate (probe_cfg 3 1 8 (-3) "ramp" "plateau" "delta_parity")
    = ([(0, [0], 1, 0); (1, [0], 0, 0); (2, [0], 0, 0)],
       Ok [(0, 1, 1); (1, 1, 0); (2, 1, 0)])
  ∧ AIMonitor.simulate (probe_cfg 3 1 8 13 "ramp" "plateau" "delta_parity")
    = ([(0, [1], 1, 0); (1, [0], 1, 1); (2, [1], 0, 0)],
       Ok [(0, 1, 1); (1, 2, 1); (2, 2, 0)])
  ∧ AIMonitor.simulate (probe_cfg 3 1 8 0 "mystery" "plateau" "delta_parity")
    = ([(0, [0], 1, 0); (1, [0], 0, 0); (2, [0], 0, 0)],
       Ok [(0, 1, 1); (1, 1, 0); (2, 1, 0)])
  ∧ AIMonitor.simulate (probe_cfg 0 1 8 0 "ramp" "plateau" "delta_parity")
    = ([], Ok [])
  ∧ match AIMonitor.run sample_log sample_pow sample_sum elements
            (probe_cfg 3 0 8 1 "ramp" "lcg" "delta_parity") with
    | (written, Ok _) => written = [(0, [], 1, 0); (1, [], 0, 0); (2, [], 0, 0)]
    | (_, Raise _) => False
    end.
Proof. split_and!; [simpl; lia| by vm_compute..]. Qed.

(* ===================================================================== *)
(** * Determinism (C1) *)
(* ===================================================================== *)

(** [sorted(set(xs))] does not depend on the order in which the set hands
    out its elements. *)
Lemma sorted_set_enum enum1 enum2 xs :
  set_enumeration enum1 → set_enumeration enum2 →
  sorted_set enum1 xs = sorted_set enum2 xs.
Proof.
  intros H1 H2. unfold sorted_set.
  assert (∀ l : list Z, StronglySorted Z.le (merge_sort Z.le l)) as Hsorted.
  { intros l. apply StronglySorted_merge_sort; apply _. }
  apply (StronglySorted_unique Z.le); [apply Hsorted..|].
  transitivity (enum1 (list_to_set xs)); [apply merge_sort_Permutation|].
  transitivity (enum2 (list_to_set xs)); [|symmetry; apply merge_sort_Permutation].
  transitivity (elements (list_to_set xs : gset Z)); [apply H1|symmetry; apply H2].
Qed.

Lemma checkpoints_enum enum1 enum2 cfg series :
  set_enumeration enum1 → set_enumeration enum2 →
  AIMonitor.checkpoints enum1 cfg series = AIMonitor.checkpoints enum2 cfg series.
Proof.
  intros H1 H2. unfold AIMonitor.checkpoints.
  by rewrite (sorted_set_enum enum1 enum2).
Qed.

Lemma sbm_checkpoints_enum enum1 enum2 cfg series :
  set_enumeration enum1 → set_enumeration enum2 →
  SBMTest.checkpoints enum1 cfg series = SBMTest.checkpoints enum2 cfg series.
Proof.
  intros H1 H2. unfold SBMTest.checkpoints.
  by rewrite (sorted_set_enum enum1 enum2).
Qed.

(** C1.  Determinism: on one platform (one [log], one float power, one
    float [sum], one SHA-1), two executions of a run on the same
    configuration give the same result stream, the same checkpoint rows
    and the same metrics record (or stop with the same exception after
    the same rows), even if their sets enumerate their elements in
    different orders: the outcome is a function of the configuration
    alone. *)
Theorem run_deterministic (libm_log : float → float)
    (float_pow_int : float → Z → result float) (float_sum : list float → float)
    (sha1 : list Byte.byte → list Byte.byte)
    (enum1 enum2 : gset Z → list Z) :
  set_enumeration enum1 → set_enumeration enum2 →
  (∀ cfg, AIMonitor.run libm_log float_pow_int float_sum enum1 cfg
          = AIMonitor.run libm_log float_pow_int float_sum enum2 cfg)
  ∧ (∀ cfg, SBMTest.run sha1 libm_log float_pow_int float_sum enum1 cfg
            = SBMTest.run sha1 libm_log float_pow_int float_sum enum2 cfg).
Proof.
  intros H1 H2. split; intros cfg.
  - unfold AIMonitor.run. destruct (AIMonitor.simulate cfg) as [written [series|e]]; [|done].
    cbn [mbind result_bind]. by rewrite (checkpoints_enum enum1 enum2).
  - unfold SBMTest.run. destruct (SBMTest.simulate sha1 cfg) as [written [series|e]]; [|done].
    cbn [mbind result_bind]. by rewrite (sbm_checkpoints_enum enum1 enum2).
Qed.

Lemma run_deterministic_witness :
  AIMonitor.run sample_log sample_pow sample_sum elements (scenario_A_lcg 5)
  = AIMonitor.run sample_log sample_pow sample_sum (λ s, reverse (elements s))
      (scenario_A_lcg 5)
  ∧ SBMTest.run sha1_stub sample_log sample_pow sample_sum elements scenario_B
    = SBMTest.run sha1_stub sample_log sample_pow sample_sum
        (λ s, reverse (elements s)) scenario_B.
Proof.
  assert (set_enumeration elements) as H1 by (intros s; reflexivity).
  assert (set_enumeration (λ s, reverse (elements s))) as H2
    by (intros s; apply reverse_Permutation).
  destruct (run_deterministic sample_log sample_pow sample_sum sha1_stub
              elements (λ s, reverse (elements s)) H1 H2) as [Ha Hb].
  split; [apply Ha|apply Hb].
Defined.

(* ===================================================================== *)
(** * Further properties: the state stream *)
(* ===================================================================== *)

Lemma for_each_range_inv {S} (P : Z → S → Prop) (body : S → Z → result S) hi :
  ∀ (n : nat) lo st st',
    Z.of_nat n = hi - lo →
    for_each body (range lo hi) st = Ok st' → P lo st →
    (∀ t s s', lo ≤ t < hi → P t s → body s t = Ok s' → P (t + 1) s') →
    P hi st'.
Proof.
  induction n as [|n IH]; intros lo st st' Hn Hrun HP Hstep.
  - rewrite range_nil in Hrun by lia. injection Hrun as <-.
    by replace hi with lo by lia.
  - rewrite range_cons in Hrun by lia. cbn [for_each] in Hrun.
    destruct (body st lo) as [s1|] eqn:Hs1; [|done]. cbn [mbind result_bind] in Hrun.
    apply (IH (lo + 1) s1 st'); [lia|done| |].
    + apply (Hstep lo st s1); [lia|done..].
    + intros t s s' Ht. apply Hstep. lia.
Qed.

Lemma getitem_ok xs i x :
  0 ≤ i → getitem xs i = Ok x → xs !! Z.to_nat i = Some x ∧ i < len xs.
Proof.
  intros Hi. unfold getitem, norm_index.
  rewrite (proj2 (Z.ltb_ge i 0)) by lia. rewrite (proj2 (Z.ltb_ge i 0)) by lia.
  destruct (Z.leb_spec (len xs) i); simpl; [done|].
  destruct (xs !! Z.to_nat i) as [y|]; [|done]. by intros [= <-].
Qed.

Lemma setitem_ok xs i v xs' :
  0 ≤ i → setitem xs i v = Ok xs' → xs' = <[Z.to_nat i := v]> xs ∧ i < len xs.
Proof.
  intros Hi. unfold setitem, norm_index.
  rewrite (proj2 (Z.ltb_ge i 0)) by lia. rewrite (proj2 (Z.ltb_ge i 0)) by lia.
  destruct (Z.leb_spec (len xs) i); simpl; [done|]. by intros [= <-].
Qed.

Lemma stream_step_ok x t mode a c M x' :
  AIMonitor.stream_step x t mode a c M = Ok x' →
  (mode = "lcg" ∧ M ≠ 0 ∧ x' = (a * x + c) mod M)
  ∨ (mode = "plateau" ∧ x' = x)
  ∨ (mode = "ramp" ∧ M ≠ 0 ∧ x' = (x + (t + 1)) mod M).
Proof.
  unfold AIMonitor.stream_step, AIMonitor.lcg_step, py_mod.
  destruct (String.eqb_spec mode "lcg") as [->|_].
  { destruct (Z.eqb_spec M 0); [done|]. intros [= <-]. by left. }
  destruct (String.eqb_spec mode "plateau") as [->|_].
  { intros [= <-]. right. by left. }
  destruct (String.eqb_spec mode "ramp") as [->|_]; [|done].
  destruct (Z.eqb_spec M 0); [done|]. intros [= <-]. right. by right.
Qed.

Lemma regime_step_residue cfg x t x' :
  regime_step cfg x t = Ok x' →
  x mod AIMonitor.M cfg = x → x' mod AIMonitor.M cfg = x'.
Proof.
  unfold regime_step. intros Hstep Hx.
  destruct (t <? AIMonitor.shift_n cfg);
    apply stream_step_ok in Hstep as [(_ & HM & ->) | [(_ & ->) | (_ & HM & ->)]];
    try done; by apply Z.mod_mod.
Qed.

(** The loop invariant of [build_stream] after the steps below [k]. *)
Lemma build_stream_inv cfg xs :
  AIMonitor.build_stream cfg = Ok xs →
  len xs = AIMonitor.N cfg + AIMonitor.H cfg + 1
  ∧ xs !! 0%nat = Some (AIMonitor.seed cfg mod AIMonitor.M cfg)
  ∧ Forall (λ x, x mod AIMonitor.M cfg = x) xs
  ∧ stream_recurrence cfg xs (AIMonitor.N cfg + AIMonitor.H cfg).
Proof.
  intros Hxs. pose proof (build_stream_ok cfg xs Hxs) as (HM & HT & Hlen).
  revert Hxs. unfold AIMonitor.build_stream.
  rewrite py_mod_returns by done. cbn [mbind result_bind].
  rewrite setitem_in_range by (unfold len; rewrite length_replicate; lia).
  cbn [mbind result_bind]. intros Hloop.
  set (T := AIMonitor.N cfg + AIMonitor.H cfg + 1) in *.
  pose proof (for_each_range_inv
    (λ k s, len s = T
            ∧ s !! 0%nat = Some (AIMonitor.seed cfg mod AIMonitor.M cfg)
            ∧ Forall (λ x, x mod AIMonitor.M cfg = x) s
            ∧ stream_recurrence cfg s k)
    _ (T - 1) (Z.to_nat (T - 1)) 0 _ xs ltac:(lia) Hloop) as Hinv.
  destruct Hinv as (_ & H0 & Hres & Hrec).
  - split_and!.
    + unfold len. rewrite length_insert, length_replicate. lia.
    + apply list_lookup_insert_eq. rewrite length_replicate. lia.
    + apply Forall_insert; [|by apply Z.mod_mod].
      apply Forall_replicate. by apply Z.mod_0_l.
    + intros t Ht. lia.
  - intros t s s' Ht (Hl & H0 & Hres & Hrec) Hbody.
    destruct (getitem s t) as [x|] eqn:Hx; [|done]. cbn [mbind result_bind] in Hbody.
    fold (regime_step cfg x t) in Hbody.
    destruct (regime_step cfg x t) as [x'|] eqn:Hx'; [|done].
    cbn [mbind result_bind] in Hbody.
    apply getitem_ok in Hx as [Hx _]; [|lia].
    apply setitem_ok in Hbody as [-> Hlt]; [|lia].
    assert (Hlen' : (Z.to_nat (t + 1) < length s)%nat) by (unfold len in *; lia).
    split_and!.
    + unfold len in *. by rewrite length_insert.
    + rewrite list_lookup_insert_ne by lia. done.
    + apply Forall_insert; [done|].
      apply (regime_step_residue cfg x t x' Hx').
      rewrite Forall_forall in Hres. apply Hres.
      by eapply list_elem_of_lookup_2.
    + intros t' Ht'. destruct (decide (t' = t)) as [->|Hne].
      * exists x, x'. split_and!; [|by apply list_lookup_insert_eq|done].
        by rewrite list_lookup_insert_ne by lia.
      * destruct (Hrec t' ltac:(lia)) as (y & y' & Hy & Hy' & Hstep).
        exists y, y'. split_and!; [| |done]; by rewrite list_lookup_insert_ne by lia.
  - split_and!; try done. by replace (T - 1) with (AIMonitor.N cfg + AIMonitor.H cfg) in Hrec by lia.
Qed.

(** X1.  A stream that [build_stream] returns has exactly [N + H + 1]
    states, starts with [seed mod M], and every state is a residue modulo
    [M]: it lies in [[0, M)] when [M] is positive and in [(M, 0]] when [M]
    is negative. *)
Theorem build_stream_shape (cfg : AIMonitor.AIMConfig) (xs : list Z) :
  AIMonitor.build_stream cfg = Ok xs →
  len xs = AIMonitor.N cfg + AIMonitor.H cfg + 1
  ∧ xs !! 0%nat = Some (AIMonitor.seed cfg mod AIMonitor.M cfg)
  ∧ (0 < AIMonitor.M cfg → Forall (λ x, 0 ≤ x < AIMonitor.M cfg) xs)
  ∧ (AIMonitor.M cfg < 0 → Forall (λ x, AIMonitor.M cfg < x ≤ 0) xs).
Proof.
  intros (Hlen & H0 & Hres & _)%build_stream_inv. split_and!; [done..| |].
  - intros HM. eapply Forall_impl; [exact Hres|]. intros x Hx. simpl in Hx.
    rewrite <- Hx. apply Z.mod_pos_bound. lia.
  - intros HM. eapply Forall_impl; [exact Hres|]. intros x Hx. simpl in Hx.
    rewrite <- Hx. apply Z.mod_neg_bound. lia.
Qed.

Lemma build_stream_shape_witness :
  len [0; 1; 3; 6; 2; 7; 4] = 5 + 1 + 1
  ∧ Forall (λ x, 0 ≤ x < 8) [0; 1; 3; 6; 2; 7; 4].
Proof.
  destruct (build_stream_shape (scenario_A_lcg 5) [0; 1; 3; 6; 2; 7; 4])
    as (Hlen & _ & Hpos & _).
  - vm_compute. reflexivity.
  - split; [exact Hlen|]. apply Hpos. simpl. lia.
Defined.

(** X2.  The stream obeys its recurrence: for every step [t] with
    [0 <= t < N + H], state [t + 1] is the transition of state [t] at step
    [t], in the pre regime while [t < shift_n] and in the post regime from
    [shift_n] on; later steps never overwrite an earlier state. *)
Theorem build_stream_recurrence (cfg : AIMonitor.AIMConfig) (xs : list Z) (t : Z) :
  AIMonitor.build_stream cfg = Ok xs →
  0 ≤ t < AIMonitor.N cfg + AIMonitor.H cfg →
  ∃ x x',
    xs !! Z.to_nat t = Some x ∧ xs !! Z.to_nat (t + 1) = Some x'
    ∧ (t < AIMonitor.shift_n cfg →
         AIMonitor.stream_step x t (AIMonitor.pre_mode cfg)
           (AIMonitor.a1 cfg) (AIMonitor.c1 cfg) (AIMonitor.M cfg) = Ok x')
    ∧ (AIMonitor.shift_n cfg ≤ t →
         AIMonitor.stream_step x t (AIMonitor.post_mode cfg)
           (AIMonitor.a2 cfg) (AIMonitor.c2 cfg) (AIMonitor.M cfg) = Ok x').
Proof.
  intros (_ & _ & _ & Hrec)%build_stream_inv Ht.
  destruct (Hrec t Ht) as (x & x' & Hx & Hx' & Hstep).
  exists x, x'. unfold regime_step in Hstep. split_and!; [done..| |].
  - intros Hlt. by rewrite (proj2 (Z.ltb_lt _ _) Hlt) in Hstep.
  - intros Hge. by rewrite (proj2 (Z.ltb_ge _ _) Hge) in Hstep.
Qed.

Lemma build_stream_recurrence_witness :
  ∃ x x',
    [0; 1; 3; 6; 2; 7; 4] !! 5%nat = Some x ∧ [0; 1; 3; 6; 2; 7; 4] !! 6%nat = Some x'
    ∧ AIMonitor.stream_step x 5 "lcg" 22695477 1 8 = Ok x'.
Proof.
  destruct (build_stream_recurrence (scenario_A_lcg 5) [0; 1; 3; 6; 2; 7; 4] 5)
    as (x & x' & Hx & Hx' & _ & Hpost).
  - vm_compute. reflexivity.
  - simpl. lia.
  - exists x, x'. split_and!; [exact Hx|exact Hx'|].
    apply Hpost. simpl. lia.
Defined.

(* ===================================================================== *)
(** * Further properties: signatures *)
(* ===================================================================== *)

Lemma for_each_append {A B} (f : A → result B) ks : ∀ acc,
  for_each (λ acc k, b ← f k; Ok (acc ++ [b])) ks acc
  = bs ← map_each f ks; Ok (acc ++ bs).
Proof.
  induction ks as [|k ks IH]; intros acc; cbn [for_each map_each mbind result_bind].
  - by rewrite app_nil_r.
  - destruct (f k) as [b|e]; cbn [mbind result_bind]; [|done].
    rewrite IH. destruct (map_each f ks) as [bs|e]; cbn [mbind result_bind]; [|done].
    by rewrite <- app_assoc.
Qed.

Lemma map_each_ok {A B} (f : A → result B) ks bs :
  map_each f ks = Ok bs → Forall2 (λ k b, f k = Ok b) ks bs.
Proof.
  revert bs. induction ks as [|k ks IH]; intros bs; cbn [map_each].
  - intros [= <-]. constructor.
  - destruct (f k) as [b|] eqn:Hb; cbn [mbind result_bind]; [|done].
    destruct (map_each f ks) as [bs'|]; cbn [mbind result_bind]; [|done].
    intros [= <-]. constructor; [done|]. by apply IH.
Qed.

Lemma map_each_returns {A B} (f : A → result B) (g : A → B) ks :
  (∀ k, k ∈ ks → f k = Ok (g k)) → map_each f ks = Ok (g <$> ks).
Proof.
  induction ks as [|k ks IH]; intros Hf; cbn [map_each]; [done|].
  rewrite Hf by apply list_elem_of_here. cbn [mbind result_bind].
  rewrite IH; [done|]. intros k' Hk'. apply Hf. by apply list_elem_of_further.
Qed.

Lemma signature_at_map n xs cfg :
  AIMonitor.signature_at n xs cfg
  = map_each (window_bit cfg xs n) (range 0 (AIMonitor.H cfg)).
Proof.
  unfold AIMonitor.signature_at.
  rewrite (for_each_ext _ (λ acc k, b ← window_bit cfg xs n k; Ok (acc ++ [b]))).
  - rewrite for_each_append. by destruct (map_each _ _).
  - intros s k _. unfold window_bit.
    destruct (getitem xs (n + k)); [|done]. cbn [mbind result_bind].
    by destruct (getitem xs (n + k + 1)).
Qed.

Lemma parity_bit_is_bit x : is_bit (AIMonitor.parity_bit x).
Proof. unfold AIMonitor.parity_bit, is_bit. destruct (_ =? _); auto. Qed.

Lemma obs_bit_is_bit x0 x1 cfg b : AIMonitor.obs_bit x0 x1 cfg = Ok b → is_bit b.
Proof.
  unfold AIMonitor.obs_bit.
  repeat (destruct (_ =? _)%string;
          [first [ by intros [= <-]; apply parity_bit_is_bit
                 | destruct (py_mod _ _); [|done];
                   by intros [= <-]; apply parity_bit_is_bit ] |]).
  done.
Qed.

Lemma map_each_length {A B} (f : A → result B) ks bs :
  map_each f ks = Ok bs → length bs = length ks.
Proof. intros Hbs%map_each_ok. symmetry. by eapply Forall2_length. Qed.

Lemma map_each_Forall {A B} (P : B → Prop) (f : A → result B) ks bs :
  (∀ k b, f k = Ok b → P b) → map_each f ks = Ok bs → Forall P bs.
Proof.
  intros HP Hbs%map_each_ok.
  induction Hbs as [|k b ks bs Hb _ IH]; constructor; [by eapply HP|done].
Qed.

Lemma window_bit_is_bit cfg xs n k b : window_bit cfg xs n k = Ok b → is_bit b.
Proof.
  unfold window_bit.
  destruct (getitem xs (n + k)) as [x0|]; [|done]. cbn [mbind result_bind].
  destruct (getitem xs (n + k + 1)) as [x1|]; [|done]. cbn [mbind result_bind].
  apply obs_bit_is_bit.
Qed.

(** X3.  A signature of the state-sequence variant is a tuple of exactly
    [H] bits (none when [H <= 0]). *)
Theorem signature_is_H_bits (n : Z) (xs : list Z) (cfg : AIMonitor.AIMConfig)
    (sig : AIMonitor.Signature) :
  AIMonitor.signature_at n xs cfg = Ok sig →
  length sig = Z.to_nat (AIMonitor.H cfg) ∧ Forall is_bit sig.
Proof.
  rewrite signature_at_map. intros Hsig. split.
  - apply map_each_length in Hsig. by rewrite Hsig, range_length, Z.sub_0_r.
  - eapply map_each_Forall; [|exact Hsig]. apply window_bit_is_bit.
Qed.

Lemma signature_is_H_bits_witness :
  length [1] = Z.to_nat 1 ∧ Forall is_bit [1].
Proof.
  apply (signature_is_H_bits 2 [0; 1; 3; 6; 2; 7; 4] (scenario_A_lcg 5) [1]).
  vm_compute. reflexivity.
Defined.

(** In a plateau post regime the states stop changing at [shift_n]. *)
Lemma plateau_constant cfg xs :
  AIMonitor.build_stream cfg = Ok xs → AIMonitor.post_mode cfg = "plateau" →
  ∀ (d : nat) t, 0 ≤ t → AIMonitor.shift_n cfg ≤ t →
    t + Z.of_nat d ≤ AIMonitor.N cfg + AIMonitor.H cfg →
    xs !! Z.to_nat (t + Z.of_nat d) = xs !! Z.to_nat t.
Proof.
  intros Hxs Hpost. induction d as [|d IH]; intros t Ht Hshift Hd.
  - by rewrite Z.add_0_r.
  - pose proof (build_stream_inv cfg xs Hxs) as (_ & _ & _ & Hrec).
    destruct (Hrec (t + Z.of_nat d) ltac:(lia)) as (x & x' & Hx & Hx' & Hstep).
    unfold regime_step in Hstep.
    rewrite (proj2 (Z.ltb_ge _ _)) in Hstep by lia. rewrite Hpost in Hstep.
    apply stream_step_ok in Hstep as [(? & _) | [(_ & ->) | (? & _)]]; [done| |done].
    replace (t + Z.of_nat (S d)) with (t + Z.of_nat d + 1) by lia.
    rewrite Hx', <- Hx. apply IH; lia.
Qed.

Lemma obs_bit_same x cfg :
  difference_obs (AIMonitor.obs cfg) → AIMonitor.M cfg ≠ 0 →
  AIMonitor.obs_bit x x cfg = Ok 0.
Proof.
  intros [Ho | [Ho | Ho]] HM; unfold AIMonitor.obs_bit; rewrite Ho; simpl.
  - by rewrite Z.sub_diag, py_mod_returns, Z.mod_0_l by done.
  - by rewrite Z.lxor_nilpotent.
  - by rewrite Z.lxor_nilpotent.
Qed.

(** Once a plateau post regime has started, every window that starts at or
    after [shift_n] has the all-zero signature. *)
Lemma signature_at_plateau cfg xs n :
  AIMonitor.build_stream cfg = Ok xs →
  AIMonitor.post_mode cfg = "plateau" →
  difference_obs (AIMonitor.obs cfg) →
  0 ≤ n → AIMonitor.shift_n cfg ≤ n → n ≤ AIMonitor.N cfg →
  AIMonitor.signature_at n xs cfg = Ok (replicate (Z.to_nat (AIMonitor.H cfg)) 0).
Proof.
  intros Hxs Hpost Hobs Hn Hshift HnN.
  pose proof (build_stream_ok cfg xs Hxs) as (HM & _ & Hlen).
  rewrite signature_at_map, (map_each_returns _ (λ _, 0)).
  - f_equal. replace (Z.to_nat (AIMonitor.H cfg))
      with (length (range 0 (AIMonitor.H cfg)))
      by (rewrite range_length; f_equal; lia).
    generalize (range 0 (AIMonitor.H cfg)). intros ks.
    induction ks as [|k ks IH]; [done|]. rewrite fmap_cons. simpl. by f_equal.
  - intros k [Hk0 Hk1]%range_elem. unfold window_bit.
    destruct (getitem_in_range xs (n + k) ltac:(lia)) as [x0 Hx0].
    destruct (getitem_in_range xs (n + k + 1) ltac:(lia)) as [x1 Hx1].
    rewrite Hx0, Hx1. cbn [mbind result_bind].
    apply getitem_ok in Hx0 as [Hx0 _]; [|lia].
    apply getitem_ok in Hx1 as [Hx1 _]; [|lia].
    pose proof (plateau_constant cfg xs Hxs Hpost (Z.to_nat k) n Hn Hshift ltac:(lia)) as Ha.
    pose proof (plateau_constant cfg xs Hxs Hpost (Z.to_nat (k + 1)) n Hn Hshift ltac:(lia))
      as Hb.
    rewrite Z2Nat.id in Ha, Hb by lia. rewrite Z.add_assoc in Hb.
    assert (x1 = x0) as -> by congruence.
    by apply obs_bit_same.
Qed.

(* ===================================================================== *)
(** * Further properties: the alphabet tracker in a run *)
(* ===================================================================== *)

Lemma sweep_preserves {Sig : Type} `{Countable Sig} (I : tracker Sig → Prop)
    (sig_fn : Z → result Sig) ns :
  (∀ st n sig, I st → I (track st n sig)) →
  ∀ st, I st → I (sweep sig_fn ns st).1.
Proof.
  intros Hstep. induction ns as [|n ns IH]; intros st Hst; [done|].
  simpl. destruct (sig_fn n) as [sig|e]; [|done]. apply IH. by apply Hstep.
Qed.

(** The tracker behind a state-sequence run. *)
Lemma aim_simulate_tracker cfg xs :
  AIMonitor.build_stream cfg = Ok xs →
  ∃ done rest (st : tracker AIMonitor.Signature),
    range 0 (AIMonitor.N cfg) = done ++ rest
    ∧ st = (sweep (λ n, AIMonitor.signature_at n xs cfg)
              (range 0 (AIMonitor.N cfg)) tracker_init).1
    ∧ tracker_inv (λ n, AIMonitor.signature_at n xs cfg) done st
    ∧ (AIMonitor.simulate cfg).1 = rows st
    ∧ (∀ series, (AIMonitor.simulate cfg).2 = Ok series →
         series = alpha_series st ∧ rest = []).
Proof.
  intros Hxs. unfold AIMonitor.simulate. rewrite Hxs.
  destruct (sweep_range (λ n, AIMonitor.signature_at n xs cfg) 0 (AIMonitor.N cfg))
    as (done & rest & Hr & Hinv & Hnone & _).
  destruct (sweep _ _ _) as [st err]. simpl in *.
  exists done, rest, st. split_and!; [done..|].
  intros series Hs. destruct err as [e|]; [done|]. injection Hs as <-.
  split; [done|by apply Hnone].
Qed.

(** The tracker behind an index-operator run. *)
Lemma sbm_simulate_tracker sha1 cfg sig_fn :
  SBMTest.get_signature_fn sha1 (SBMTest.op cfg) = Ok sig_fn →
  ∃ done rest (st : tracker SBMTest.Signature),
    range 2 (SBMTest.N cfg + 1) = done ++ rest
    ∧ st = (sweep (λ n, sig_fn n cfg) (range 2 (SBMTest.N cfg + 1)) tracker_init).1
    ∧ tracker_inv (λ n, sig_fn n cfg) done st
    ∧ (SBMTest.simulate sha1 cfg).1 = rows st
    ∧ (∀ series, (SBMTest.simulate sha1 cfg).2 = Ok series →
         series = alpha_series st ∧ rest = []).
Proof.
  intros Hfn. unfold SBMTest.simulate. rewrite Hfn.
  destruct (sweep_range (λ n, sig_fn n cfg) 2 (SBMTest.N cfg + 1))
    as (done & rest & Hr & Hinv & Hnone & _).
  destruct (sweep _ _ _) as [st err]. simpl in *.
  exists done, rest, st. split_and!; [done..|].
  intros series Hs. destruct err as [e|]; [done|]. injection Hs as <-.
  split; [done|by apply Hnone].
Qed.

(** ** The new flag *)

Lemma inv_new_iff_first_seen {Sig : Type} `{Countable Sig} (sig_fn : Z → result Sig)
    lo hi done rest (st : tracker Sig) r :
  range lo hi = done ++ rest → tracker_inv sig_fn done st → r ∈ rows st →
  is_bit (row_new r) ∧ (row_new r = 1 ↔ row_first_seen r = row_n r).
Proof.
  intros Hr Hinv [i Hi]%list_elem_of_lookup.
  destruct (inv_first_seen _ _ _ Hinv i r Hi)
    as (j & r0 & (Hj & Hs & Hmin) & Hfs & Hle & Hnew & Hbit).
  split; [done|]. rewrite Hnew, <- Hfs. split.
  - intros ->. congruence.
  - intros Hn.
    pose proof (inv_row_index _ _ _ _ _ Hinv Hj) as Hdj.
    pose proof (inv_row_index _ _ _ _ _ Hinv Hi) as Hdi.
    apply (range_prefix_lookup _ _ _ _ _ _ Hr) in Hdj, Hdi. lia.
Qed.

(** X5.  In the result stream of a run of either variant the new flag of a
    record is 0 or 1, and it is 1 exactly when the record's first-seen
    index is the record's own index. *)
Theorem new_flag_iff_first_seen :
  (∀ cfg r, r ∈ (AIMonitor.simulate cfg).1 →
     is_bit (row_new r) ∧ (row_new r = 1 ↔ row_first_seen r = row_n r))
  ∧ (∀ sha1 cfg r, r ∈ (SBMTest.simulate sha1 cfg).1 →
       is_bit (row_new r) ∧ (row_new r = 1 ↔ row_first_seen r = row_n r)).
Proof.
  split.
  - intros cfg r.
    destruct (AIMonitor.build_stream cfg) as [xs|e] eqn:Hxs.
    + destruct (aim_simulate_tracker cfg xs Hxs) as (done & rest & st & Hr & _ & Hinv & -> & _).
      by eapply inv_new_iff_first_seen.
    + unfold AIMonitor.simulate. rewrite Hxs. simpl. by intros ?%elem_of_nil.
  - intros sha1 cfg r.
    destruct (SBMTest.get_signature_fn sha1 (SBMTest.op cfg)) as [sig_fn|e] eqn:Hfn.
    + destruct (sbm_simulate_tracker sha1 cfg sig_fn Hfn)
        as (done & rest & st & Hr & _ & Hinv & -> & _).
      by eapply inv_new_iff_first_seen.
    + unfold SBMTest.simulate. rewrite Hfn. simpl. by intros ?%elem_of_nil.
Qed.

Lemma new_flag_iff_first_seen_witness :
  (row_new (3, [0], 0, 1) = 1 ↔ row_first_seen (3, [0], 0, 1) = row_n (3, [0], 0, 1))
  ∧ (row_new (3, SBMTest.SigTrace [3; 3], 1, 3) = 1
     ↔ row_first_seen (3, SBMTest.SigTrace [3; 3], 1, 3)
       = row_n (3, SBMTest.SigTrace [3; 3], 1, 3)).
Proof.
  destruct new_flag_iff_first_seen as [Ha Hb]. split.
  - apply (Ha (scenario_A_lcg 5) (3, [0], 0, 1)).
    apply (bool_decide_unpack _). vm_compute. reflexivity.
  - apply (Hb sha1_stub scenario_B (3, SBMTest.SigTrace [3; 3], 1, 3)).
    apply (bool_decide_unpack _). vm_compute. reflexivity.
Defined.

(** ** Alpha counts the distinct signatures *)

Lemma tracker_init_counts {Sig : Type} `{Countable Sig} :
  tracker_counts (tracker_init : tracker Sig).
Proof. split_and!; simpl; try done. Qed.

Lemma track_counts {Sig : Type} `{Countable Sig} (st : tracker Sig) n sig :
  tracker_counts st → tracker_counts (track st n sig).
Proof.
  intros (Hdom & Hlen & Hcnt).
  assert (Hkeys : ∀ (alphabet' : gmap Sig Z) new_flag,
            dom alphabet' = dom (alphabet st) ∪ {[sig]} →
            tracker_counts
              {| alphabet := alphabet';
                 rows := rows st ++ [(n, sig, new_flag, alphabet' !!! sig)];
                 alpha_series :=
                   alpha_series st ++ [(n, Z.of_nat (size alphabet'), new_flag)] |}).
  { intros alphabet' new_flag Hdom'.
    assert (Hsigs : list_to_set
                      (row_sig <$> rows st ++ [(n, sig, new_flag, alphabet' !!! sig)])
                    = dom alphabet').
    { rewrite fmap_app, list_to_set_app_L, <- Hdom, Hdom'.
      unfold row_sig. simpl. by rewrite (right_id_L ∅ (∪)). }
    split_and!; simpl.
    - done.
    - rewrite !length_app. simpl. lia.
    - intros i e [[Hi He] | [-> <-]]%lookup_snoc_Some.
      + rewrite take_app_le by lia. by apply Hcnt.
      + rewrite Hlen, take_ge by (rewrite length_app; simpl; lia).
        unfold entry_alpha, distinct_signatures. simpl.
        by rewrite Hsigs, size_dom. }
  unfold track. destruct (alphabet st !! sig) as [v|] eqn:Hlook.
  - apply Hkeys. assert (sig ∈ dom (alphabet st)) as Hin by (apply elem_of_dom; eauto).
    apply set_eq. intros s. rewrite elem_of_union, elem_of_singleton.
    split; [by left|]. by intros [? | ->].
  - apply Hkeys. rewrite dom_insert_L. apply (comm_L (∪)).
Qed.

Lemma sweep_counts {Sig : Type} `{Countable Sig} (sig_fn : Z → result Sig) ns :
  tracker_counts (sweep sig_fn ns tracker_init).1.
Proof.
  apply sweep_preserves; [|apply tracker_init_counts].
  intros st n sig. apply track_counts.
Qed.

Lemma aim_simulate_counts cfg written series (i : nat) e :
  AIMonitor.simulate cfg = (written, Ok series) → series !! i = Some e →
  entry_alpha e = Z.of_nat (distinct_signatures (take (S i) written)).
Proof.
  unfold AIMonitor.simulate.
  destruct (AIMonitor.build_stream cfg) as [xs|]; [|done].
  pose proof (sweep_counts (λ n, AIMonitor.signature_at n xs cfg)
                (range 0 (AIMonitor.N cfg))) as (_ & _ & Hcnt).
  destruct (sweep _ _ _) as [st [err|]]; [done|]. simpl in Hcnt.
  intros [= <- <-]. apply Hcnt.
Qed.

Lemma sbm_simulate_counts sha1 cfg written series (i : nat) e :
  SBMTest.simulate sha1 cfg = (written, Ok series) → series !! i = Some e →
  entry_alpha e = Z.of_nat (distinct_signatures (take (S i) written)).
Proof.
  unfold SBMTest.simulate.
  destruct (SBMTest.get_signature_fn sha1 (SBMTest.op cfg)) as [sig_fn|]; [|done].
  pose proof (sweep_counts (λ n, sig_fn n cfg)
                (range 2 (SBMTest.N cfg + 1))) as (_ & _ & Hcnt).
  destruct (sweep _ _ _) as [st [err|]]; [done|]. simpl in Hcnt.
  intros [= <- <-]. apply Hcnt.
Qed.

(** X6.  In a completed run of either variant, the alpha recorded for a
    processed index is the number of distinct signatures among the records
    up to and including that index: a reader of the result stream can
    rebuild the growth curve by counting distinct signature values. *)
Theorem alpha_counts_distinct_signatures :
  (∀ cfg written series (i : nat) e,
     AIMonitor.simulate cfg = (written, Ok series) → series !! i = Some e →
     entry_alpha e = Z.of_nat (distinct_signatures (take (S i) written)))
  ∧ (∀ sha1 cfg written series (i : nat) e,
       SBMTest.simulate sha1 cfg = (written, Ok series) → series !! i = Some e →
       entry_alpha e = Z.of_nat (distinct_signatures (take (S i) written))).
Proof.
  split.
  - intros cfg written series i e. apply aim_simulate_counts.
  - intros sha1 cfg written series i e. apply sbm_simulate_counts.
Qed.

Lemma alpha_counts_distinct_signatures_witness :
  entry_alpha (3, 2, 0) = Z.of_nat (distinct_signatures (take 4 scenario_A_rows))
  ∧ entry_alpha (3, 2, 1) = Z.of_nat (distinct_signatures (take 2 scenario_B_rows)).
Proof.
  destruct alpha_counts_distinct_signatures as [Ha Hb]. split.
  - apply (Ha (scenario_A_lcg 5) scenario_A_rows scenario_A_series 3%nat).
    + vm_compute. reflexivity.
    + reflexivity.
  - apply (Hb sha1_stub scenario_B scenario_B_rows scenario_B_series 1%nat).
    + vm_compute. reflexivity.
    + reflexivity.
Defined.

(** ** Emergences and alpha *)

Lemma unit_steps_emergences prev series :
  unit_steps prev series →
  alpha_last_from prev series = prev + len (emergence_indices_of series)
  ∧ len (emergence_indices_of series) ≤ len series.
Proof.
  unfold emergence_indices_of, len. rewrite length_fmap.
  revert prev. induction series as [|e series IH]; intros prev Hs.
  - unfold alpha_last_from. simpl. lia.
  - destruct Hs as (Hd & Hb & Hs). destruct (IH _ Hs) as [IH1 IH2].
    rewrite alpha_last_from_cons, IH1, filter_cons.
    destruct (decide (entry_new e = 1)) as [H1|H1]; simpl length; lia.
Qed.

Lemma compute_fracture_metrics_counts libm_log float_pow_int float_sum series cfg m :
  AIMonitor.compute_fracture_metrics libm_log float_pow_int float_sum series cfg = Ok m →
  AIMonitor.alpha_N m = alpha_last series
  ∧ AIMonitor.emergence_count m = len (emergence_indices_of series)
  ∧ AIMonitor.last_emergence_n m = last_emergence_of (emergence_indices_of series).
Proof.
  unfold AIMonitor.compute_fracture_metrics.
  destruct (metric_E_N _ _) as [e_n|]; [|done]. simpl.
  destruct (metric_Hs_N _ _) as [hs_n|]; [|done]. simpl.
  destruct (metric_C_N _ _ _) as [c_n|]; [|done]. simpl.
  destruct (gap_stats _ _ _) as [[mean var]|]; [|done]. simpl.
  destruct (AIMonitor.regime_markers _ _) as [[before at_shift] after].
  by intros [= <-].
Qed.

(** The alpha series of a completed run, of either variant, grows by unit
    steps from 0. *)
Lemma aim_series_unit_steps cfg written series :
  AIMonitor.simulate cfg = (written, Ok series) → unit_steps 0 series.
Proof. by intros (_ & ? & _)%simulate_series. Qed.

Lemma sbm_series_unit_steps sha1 cfg written series :
  SBMTest.simulate sha1 cfg = (written, Ok series) →
  unit_steps 0 series ∧ entry_n <$> series = range 2 (SBMTest.N cfg + 1).
Proof.
  intros Hsim.
  destruct (SBMTest.get_signature_fn sha1 (SBMTest.op cfg)) as [sig_fn|e] eqn:Hfn.
  - destruct (sbm_simulate_tracker sha1 cfg sig_fn Hfn)
      as (done & rest & st & Hr & _ & Hinv & _ & Hser).
    destruct (Hser series) as [-> ->]; [by rewrite Hsim|].
    rewrite app_nil_r in Hr. split; [apply (inv_steps _ _ _ Hinv)|].
    by rewrite (inv_series_n _ _ _ Hinv).
  - unfold SBMTest.simulate in Hsim. by rewrite Hfn in Hsim.
Qed.

(** X7.  In the metrics of a completed run of either variant the number
    of emergences equals the final alphabet size, [emergence_count =
    alpha_N], and neither exceeds the number of processed indices. *)
Theorem emergence_count_is_alpha_N (libm_log : float → float)
    (float_pow_int : float → Z → result float) (float_sum : list float → float) :
  (∀ cfg written series m,
     AIMonitor.simulate cfg = (written, Ok series) →
     AIMonitor.compute_fracture_metrics libm_log float_pow_int float_sum series cfg
       = Ok m →
     AIMonitor.emergence_count m = AIMonitor.alpha_N m
     ∧ 0 ≤ AIMonitor.alpha_N m ≤ Z.max 0 (AIMonitor.N cfg))
  ∧ (∀ sha1 cfg written series m,
       SBMTest.simulate sha1 cfg = (written, Ok series) →
       SBMTest.compute_metrics libm_log float_pow_int float_sum cfg series = Ok m →
       SBMTest.emergence_count m = SBMTest.alpha_N m
       ∧ 0 ≤ SBMTest.alpha_N m ≤ Z.max 0 (SBMTest.N cfg - 1)).
Proof.
  split.
  - intros cfg written series m Hsim (-> & -> & _)%compute_fracture_metrics_counts.
    pose proof (simulate_series _ _ _ Hsim) as (Hn & Hsteps & _).
    destruct (unit_steps_emergences 0 series Hsteps) as [Hlast Hle].
    change (alpha_last series) with (alpha_last_from 0 series).
    assert (len series = Z.max 0 (AIMonitor.N cfg)) as Hlen.
    { unfold len. rewrite <- (length_fmap entry_n), Hn, range_length. lia. }
    unfold len in *. lia.
  - intros sha1 cfg written series m Hsim (-> & ->)%compute_metrics_counts.
    destruct (sbm_series_unit_steps _ _ _ _ Hsim) as [Hsteps Hn].
    destruct (unit_steps_emergences 0 series Hsteps) as [Hlast Hle].
    change (alpha_last series) with (alpha_last_from 0 series).
    assert (len series = Z.max 0 (SBMTest.N cfg - 1)) as Hlen.
    { unfold len. rewrite <- (length_fmap entry_n), Hn, range_length. lia. }
    unfold len in *. lia.
Qed.

Lemma emergence_count_is_alpha_N_witness :
  match AIMonitor.compute_fracture_metrics sample_log sample_pow sample_sum
          scenario_A_series (scenario_A_lcg 5) with
  | Ok m => AIMonitor.emergence_count m = AIMonitor.alpha_N m
  | Raise _ => False
  end
  ∧ match SBMTest.compute_metrics sample_log sample_pow sample_sum
            scenario_B scenario_B_series with
    | Ok m => SBMTest.emergence_count m = SBMTest.alpha_N m
    | Raise _ => False
    end.
Proof.
  destruct (emergence_count_is_alpha_N sample_log sample_pow sample_sum) as [Ha Hb].
  split.
  - destruct (AIMonitor.compute_fracture_metrics _ _ _ _ _) as [m|e] eqn:E.
    + apply (Ha (scenario_A_lcg 5) scenario_A_rows scenario_A_series m); [|exact E].
      vm_compute. reflexivity.
    + vm_compute in E. discriminate E.
  - destruct (SBMTest.compute_metrics _ _ _ _ _) as [m|e] eqn:E.
    + apply (Hb sha1_stub scenario_B scenario_B_rows scenario_B_series m); [|exact E].
      vm_compute. reflexivity.
    + vm_compute in E. discriminate E.
Defined.

(** ** The alphabet is bounded by the signature space *)

Lemma bit_lists_length h : length (bit_lists h) = (2 ^ h)%nat.
Proof.
  induction h as [|h IH]; [done|].
  cbn [bit_lists]. rewrite length_app, !length_fmap, IH. simpl. lia.
Qed.

Lemma bit_lists_complete (l : list Z) :
  Forall is_bit l → l ∈ bit_lists (length l).
Proof.
  induction 1 as [|b l Hb _ IH]; [by apply list_elem_of_here|].
  cbn [length bit_lists]. apply elem_of_app.
  destruct Hb as [-> | ->]; [left|right]; by apply list_elem_of_fmap_2.
Qed.

Lemma size_list_to_set_le {A : Type} `{Countable A} (l : list A) :
  (size (list_to_set l : gset A) ≤ length l)%nat.
Proof.
  induction l as [|x l IH]; [done|].
  cbn [list_to_set length]. rewrite size_union_alt, size_singleton.
  pose proof (subseteq_size (list_to_set l ∖ {[x]}) (list_to_set l : gset A)
                ltac:(apply subseteq_difference_l; done)).
  lia.
Qed.

(** Rows whose signatures all lie in a list [B] carry at most [length B]
    distinct signatures. *)
Lemma distinct_signatures_bound {Sig : Type} `{Countable Sig}
    (rs : list (Z * Sig * Z * Z)) (B : list Sig) :
  (∀ r, r ∈ rs → row_sig r ∈ B) → (distinct_signatures rs ≤ length B)%nat.
Proof.
  intros Hin. unfold distinct_signatures.
  etrans; [|apply (size_list_to_set_le B)].
  apply subseteq_size. intros s Hs.
  apply elem_of_list_to_set in Hs. apply elem_of_list_to_set.
  apply list_elem_of_fmap in Hs as (r & -> & Hr). by apply Hin.
Qed.

(** The signatures written by a state-sequence run are [H]-bit lists. *)
Lemma aim_rows_bit_lists cfg r :
  r ∈ (AIMonitor.simulate cfg).1 →
  row_sig r ∈ bit_lists (Z.to_nat (AIMonitor.H cfg)).
Proof.
  destruct (AIMonitor.build_stream cfg) as [xs|] eqn:Hxs.
  - destruct (aim_simulate_tracker cfg xs Hxs)
      as (done & rest & st & _ & _ & Hinv & -> & _).
    intros Hr. pose proof (inv_sig _ _ _ Hinv r Hr) as Hsig. simpl in Hsig.
    rewrite signature_at_map in Hsig.
    pose proof (map_each_length _ _ _ Hsig) as Hlen.
    rewrite range_length, Z.sub_0_r in Hlen. rewrite <- Hlen.
    apply bit_lists_complete.
    eapply map_each_Forall; [|exact Hsig]. apply window_bit_is_bit.
  - unfold AIMonitor.simulate. rewrite Hxs. simpl. by intros ?%elem_of_nil.
Qed.

(** X8.  In a completed state-sequence run no alpha exceeds [2^H] (with
    [H >= 0]): the alphabet cannot outgrow the space of [H]-bit
    signatures. *)
Theorem alpha_at_most_two_pow_H (cfg : AIMonitor.AIMConfig)
    (written : list (Z * AIMonitor.Signature * Z * Z)) (series : list (Z * Z * Z))
    (e : Z * Z * Z) :
  AIMonitor.simulate cfg = (written, Ok series) →
  0 ≤ AIMonitor.H cfg → e ∈ series →
  entry_alpha e ≤ 2 ^ AIMonitor.H cfg.
Proof.
  intros Hsim HH [i Hi]%list_elem_of_lookup.
  rewrite (aim_simulate_counts cfg written series i e Hsim Hi).
  assert (Hbits : ∀ r, r ∈ take (S i) written →
                       row_sig r ∈ bit_lists (Z.to_nat (AIMonitor.H cfg))).
  { intros r (k & Hk & _)%elem_of_take. apply aim_rows_bit_lists.
    rewrite Hsim. by eapply list_elem_of_lookup_2. }
  apply distinct_signatures_bound in Hbits. rewrite bit_lists_length in Hbits.
  apply Nat2Z.inj_le in Hbits.
  rewrite Nat2Z.inj_pow in Hbits. rewrite Z2Nat.id in Hbits by done.
  exact Hbits.
Qed.

Lemma alpha_at_most_two_pow_H_witness : entry_alpha (4, 2, 0) ≤ 2 ^ 1.
Proof.
  apply (alpha_at_most_two_pow_H (scenario_A_lcg 5) scenario_A_rows scenario_A_series
           (4, 2, 0)).
  - vm_compute. reflexivity.
  - simpl. lia.
  - apply (bool_decide_unpack _). vm_compute. reflexivity.
Defined.

(** ** A plateau post regime *)

(** X4.  With a plateau post regime and one of the three observation modes
    that compare the two states of a pair ([delta_parity], [xor_parity],
    [popcnt_parity]), every window that starts at or after [shift_n] has
    the all-zero signature, and therefore at most one record at or after
    [shift_n] is new. *)
Theorem plateau_regime_is_stable (cfg : AIMonitor.AIMConfig) :
  AIMonitor.post_mode cfg = "plateau" →
  difference_obs (AIMonitor.obs cfg) →
  (∀ xs n, AIMonitor.build_stream cfg = Ok xs →
     0 ≤ n → AIMonitor.shift_n cfg ≤ n → n ≤ AIMonitor.N cfg →
     AIMonitor.signature_at n xs cfg = Ok (replicate (Z.to_nat (AIMonitor.H cfg)) 0))
  ∧ (∀ r r', r ∈ (AIMonitor.simulate cfg).1 → r' ∈ (AIMonitor.simulate cfg).1 →
       AIMonitor.shift_n cfg ≤ row_n r → AIMonitor.shift_n cfg ≤ row_n r' →
       row_new r = 1 → row_new r' = 1 → r = r').
Proof.
  intros Hpost Hobs. split.
  - intros xs n Hxs. by apply signature_at_plateau.
  - intros r r'. destruct (AIMonitor.build_stream cfg) as [xs|] eqn:Hxs.
    + destruct (aim_simulate_tracker cfg xs Hxs)
        as (done & rest & st & Hr & _ & Hinv & -> & _).
      intros [i Hi]%list_elem_of_lookup [i' Hi']%list_elem_of_lookup Hs Hs' Hnew Hnew'.
      assert (Hzero : ∀ k q, rows st !! k = Some q → AIMonitor.shift_n cfg ≤ row_n q →
                row_sig q = replicate (Z.to_nat (AIMonitor.H cfg)) 0).
      { intros k q Hq Hsq.
        pose proof (inv_sig _ _ _ Hinv q ltac:(by eapply list_elem_of_lookup_2)) as Hsig.
        cbv beta in Hsig.
        pose proof (inv_row_index _ _ _ _ _ Hinv Hq) as Hd.
        assert (range 0 (AIMonitor.N cfg) !! k = Some (row_n q)) as Hrange
          by (rewrite Hr; by apply lookup_app_l_Some).
        apply range_lookup_Some in Hrange as [Hqn Hqk].
        assert (Ok (row_sig q) = Ok (replicate (Z.to_nat (AIMonitor.H cfg)) 0)) as Hz.
        { etrans; [symmetry; exact Hsig|].
          apply signature_at_plateau; (done || (unfold AIMonitor.Signature in *; lia)). }
        by injection Hz. }
      destruct (inv_first_seen _ _ _ Hinv i r Hi) as (j & r0 & Hocc & _ & _ & Hj & _).
      destruct (inv_first_seen _ _ _ Hinv i' r' Hi') as (j' & r0' & Hocc' & _ & _ & Hj' & _).
      unfold AIMonitor.Signature in *.
      rewrite (Hzero i r Hi Hs) in Hocc. rewrite (Hzero i' r' Hi' Hs') in Hocc'.
      destruct (first_occurrence_unique _ _ _ _ _ _ Hocc Hocc') as [Hjj _].
      apply Hj in Hnew. apply Hj' in Hnew'. subst. congruence.
    + unfold AIMonitor.simulate. rewrite Hxs. simpl. by intros ?%elem_of_nil.
Qed.

Lemma plateau_regime_is_stable_witness :
  AIMonitor.signature_at 2 [5; 6; 6; 6; 6]
    (probe_cfg 3 1 8 1 "ramp" "plateau" "delta_parity")
  = Ok (replicate (Z.to_nat 1) 0).
Proof.
  destruct (plateau_regime_is_stable (probe_cfg 3 1 8 1 "ramp" "plateau" "delta_parity"))
    as [Hsig _].
  - reflexivity.
  - left. reflexivity.
  - apply (Hsig [5; 6; 6; 6; 6] 2).
    + vm_compute. reflexivity.
    + lia.
    + simpl. lia.
    + simpl. lia.
Defined.

(* ===================================================================== *)
(** * The stability scan of any list of diffs *)
(* ===================================================================== *)

Lemma filter_ext_in {A} (P Q : A → Prop) `{∀ x, Decision (P x)} `{∀ x, Decision (Q x)}
    (l : list A) :
  (∀ x, x ∈ l → P x ↔ Q x) → filter P l = filter Q l.
Proof.
  induction l as [|x l IH]; intros HPQ; [done|].
  rewrite !filter_cons, IH.
  - pose proof (HPQ x (list_elem_of_here _ _)). repeat case_decide; tauto.
  - intros y Hy. apply HPQ. by apply list_elem_of_further.
Qed.

Lemma qualifyingb_spec L ds i : qualifyingb L ds i = true ↔ qualifying L ds i.
Proof.
  unfold qualifyingb, qualifying. destruct (ds !! i) as [d|]; split.
  - intros [H1 H2]%andb_true_iff. exists d. split; [done|]. lia.
  - intros (d' & [= <-] & H1 & H2). apply andb_true_iff. lia.
  - done.
  - by intros (d' & ? & _).
Qed.

Lemma qualifying_positions_spec L ds i :
  i ∈ qualifying_positions L ds ↔ qualifying L ds i.
Proof.
  unfold qualifying_positions. rewrite list_elem_of_filter, qualifyingb_spec.
  split; [by intros [? _]|]. intros Hq. split; [done|].
  apply elem_of_seq. pose proof (qualifying_lt _ _ _ Hq). lia.
Qed.

Lemma qualifying_positions_snoc L ds d :
  qualifying_positions L (ds ++ [d])
  = qualifying_positions L ds
    ++ (if (1 <=? d) && (L <=? Z.of_nat (zeros_before ds (length ds)))
        then [length ds] else []).
Proof.
  unfold qualifying_positions. rewrite length_app. simpl.
  rewrite Nat.add_1_r, seq_S, filter_app. simpl. f_equal.
  - apply filter_ext_in. intros i [_ Hi]%elem_of_seq. simpl in Hi.
    unfold qualifyingb. rewrite lookup_app_l by lia.
    by rewrite zeros_before_app by lia.
  - rewrite filter_cons, filter_nil. unfold qualifyingb.
    rewrite lookup_app_r, Nat.sub_diag by lia. simpl.
    rewrite zeros_before_app by lia.
    destruct ((1 <=? d) && _); by case_decide.
Qed.

(** X9.  For every list of diffs and every [L], the scan's
    [fracture_candidate] is the number of qualifying positions (a diff of
    at least 1 right after at least [L] zero diffs), and [fracture_at_n]
    is the first qualifying position other than 0, or 0 when there is
    none: a candidate at position 0 is counted but never reported as the
    first one. *)
Theorem fracture_scan_counts (L : Z) (ds : list Z) :
  AIMonitor.fracture_candidate (AIMonitor.fracture_scan L ds)
  = Z.of_nat (length (qualifying_positions L ds))
  ∧ AIMonitor.fracture_at_n (AIMonitor.fracture_scan L ds)
    = from_option Z.of_nat 0
        (head (filter (λ i, i ≠ 0%nat) (qualifying_positions L ds))).
Proof.
  induction ds as [|d ds [IHc IHa]] using rev_ind; [done|].
  rewrite fracture_scan_snoc, qualifying_positions_snoc.
  pose proof (scan_run _ _ _ (fracture_scan_inv L ds)) as Hrun.
  unfold AIMonitor.scan_step.
  destruct (Z.eqb_spec d 0) as [->|Hd]; cbn [AIMonitor.fracture_candidate
    AIMonitor.fracture_at_n].
  { replace (1 <=? 0) with false by done. simpl. by rewrite app_nil_r. }
  rewrite Hrun, (andb_comm (1 <=? d)).
  destruct ((L <=? _) && (1 <=? d)) eqn:Hq; simpl; [|by rewrite app_nil_r].
  rewrite length_app, filter_app, IHc, IHa. simpl. split; [lia|].
  destruct (filter _ (qualifying_positions L ds)) as [|i0 l] eqn:Hf; simpl.
  - rewrite filter_cons, filter_nil. unfold len.
    destruct (length ds) as [|n]; [done|]. by case_decide.
  - assert (i0 ∈ filter (λ i, i ≠ 0%nat) (qualifying_positions L ds)) as Hi0
      by (rewrite Hf; apply list_elem_of_here).
    apply list_elem_of_filter in Hi0 as [Hne _].
    destruct (Z.eqb_spec (Z.of_nat i0) 0); [lia|done].
Qed.

(** ** Bounds on the scan of a run *)

Lemma leading_zeros_le l : (leading_zeros l ≤ zero_count l)%nat.
Proof.
  unfold zero_count. induction l as [|d l IH]; simpl; [done|].
  rewrite filter_cons. case_decide; simpl; lia.
Qed.

Lemma zero_count_app l l' : zero_count (l ++ l') = (zero_count l + zero_count l')%nat.
Proof. unfold zero_count. by rewrite filter_app, length_app. Qed.

Lemma zero_count_reverse l : zero_count (reverse l) = zero_count l.
Proof.
  induction l as [|d l IH]; [done|].
  rewrite reverse_cons, zero_count_app, IH.
  change (d :: l) with ([d] ++ l). rewrite zero_count_app. lia.
Qed.

Lemma zeros_before_le ds j : (zeros_before ds j ≤ zero_count ds)%nat.
Proof.
  unfold zeros_before. etrans; [apply leading_zeros_le|].
  rewrite zero_count_reverse.
  rewrite <- (take_drop j ds) at 2. rewrite zero_count_app. lia.
Qed.

Lemma scan_candidate_le L ds :
  0 ≤ AIMonitor.fracture_candidate (AIMonitor.fracture_scan L ds)
    ≤ Z.of_nat (length ds) - Z.of_nat (zero_count ds).
Proof.
  induction ds as [|d ds IH] using rev_ind; [done|].
  rewrite fracture_scan_snoc, zero_count_app, length_app.
  unfold AIMonitor.scan_step, zero_count at 2.
  rewrite filter_cons, filter_nil.
  destruct (Z.eqb_spec d 0) as [->|Hd]; cbn [AIMonitor.fracture_candidate].
  - rewrite decide_True by done. simpl. lia.
  - rewrite decide_False by done. simpl. destruct (_ && _); lia.
Qed.

Lemma unit_steps_zero_count prev series :
  unit_steps prev series →
  Z.of_nat (zero_count (entry_new <$> series)) + len (emergence_indices_of series)
  = len series.
Proof.
  unfold emergence_indices_of, len, zero_count. rewrite length_fmap.
  revert prev. induction series as [|e series IH]; intros prev Hs; [done|].
  destruct Hs as (_ & Hb & Hs). specialize (IH _ Hs).
  rewrite fmap_cons, !filter_cons. simpl length.
  destruct Hb as [Hb|Hb]; rewrite Hb.
  - rewrite decide_True, decide_False by done. simpl length. lia.
  - rewrite decide_False, decide_True by done. simpl length. lia.
Qed.

(** X10.  In the metrics of a completed state-sequence run the longest
    stable run and the final alphabet size together do not exceed the
    number of processed indices; the number of fracture candidates is at
    most the number of emergences; and there is a candidate only if the
    longest stable run has reached [long_stable_L]. *)
Theorem stable_run_bounds (libm_log : float → float)
    (float_pow_int : float → Z → result float) (float_sum : list float → float)
    (cfg : AIMonitor.AIMConfig) written series m :
  AIMonitor.simulate cfg = (written, Ok series) →
  AIMonitor.compute_fracture_metrics libm_log float_pow_int float_sum series cfg = Ok m →
  0 ≤ AIMonitor.m_max_stable_run m
  ∧ AIMonitor.m_max_stable_run m + AIMonitor.alpha_N m ≤ Z.max 0 (AIMonitor.N cfg)
  ∧ 0 ≤ AIMonitor.fracture_candidate_count m ≤ AIMonitor.emergence_count m
  ∧ (AIMonitor.fracture_candidate_count m ≠ 0 →
     AIMonitor.long_stable_L cfg ≤ AIMonitor.m_max_stable_run m).
Proof.
  intros Hsim Hm.
  pose proof (compute_fracture_metrics_scan _ _ _ _ _ _ Hm) as (-> & _ & _ & -> & _).
  pose proof (compute_fracture_metrics_counts _ _ _ _ _ _ Hm) as (-> & -> & _).
  pose proof (simulate_series _ _ _ Hsim) as (Hn & Hsteps & _).
  destruct (unit_steps_emergences 0 series Hsteps) as [Hlast _].
  change (alpha_last_from 0 series) with (alpha_last series) in Hlast.
  pose proof (unit_steps_zero_count 0 series Hsteps) as Hzero.
  assert (len series = Z.max 0 (AIMonitor.N cfg)) as Hlen.
  { unfold len. rewrite <- (length_fmap entry_n), Hn, range_length. lia. }
  destruct (d_alpha_unit_steps 0 series Hsteps) as [Hds _].
  fold (AIMonitor.d_alpha series) in Hds.
  set (L := AIMonitor.long_stable_L cfg). set (ds := AIMonitor.d_alpha series) in *.
  pose proof (fracture_scan_inv L ds) as Hinv.
  destruct (scan_max_attained _ _ _ Hinv) as (j & _ & Hj).
  pose proof (zeros_before_le ds j) as Hjle.
  pose proof (scan_candidate_le L ds) as Hc.
  assert (Z.of_nat (length ds) = len series) as Hdl
    by (unfold len; rewrite Hds; by rewrite length_fmap).
  assert (zero_count ds = zero_count (entry_new <$> series)) as Hzd by (by rewrite Hds).
  split_and!; [lia..|].
  intros Hne.
  destruct (qualifying_positions L ds) as [|i l] eqn:Hq.
  - destruct (scan_none _ _ _ Hinv) as [Hzc _]; [|done].
    intros i Hi%qualifying_positions_spec. rewrite Hq in Hi. by apply elem_of_nil in Hi.
  - assert (qualifying L ds i) as (d & _ & _ & HL).
    { apply qualifying_positions_spec. rewrite Hq. apply list_elem_of_here. }
    pose proof (qualifying_lt L ds i) as Hlt.
    etrans; [exact HL|]. apply (scan_max_bound _ _ _ Hinv).
    assert (i ∈ qualifying_positions L ds) as Hi by (rewrite Hq; apply list_elem_of_here).
    apply qualifying_positions_spec, qualifying_lt in Hi. lia.
Qed.

Lemma stable_run_bounds_witness :
  match AIMonitor.compute_fracture_metrics sample_log sample_pow sample_sum
          scenario_A_series (scenario_A_lcg 5) with
  | Ok m => AIMonitor.m_max_stable_run m + AIMonitor.alpha_N m ≤ 5
  | Raise _ => False
  end.
Proof.
  destruct (AIMonitor.compute_fracture_metrics _ _ _ _ _) as [m|e] eqn:E.
  - apply (stable_run_bounds sample_log sample_pow sample_sum
             (scenario_A_lcg 5) scenario_A_rows scenario_A_series m); [|exact E].
    vm_compute. reflexivity.
  - vm_compute in E. discriminate E.
Defined.

(* ===================================================================== *)
(** * Regime markers and checkpoints *)
(* ===================================================================== *)

Lemma idx_map_of_snoc series e :
  idx_map_of (series ++ [e]) = <[entry_n e := entry_alpha e]> (idx_map_of series).
Proof. unfold idx_map_of. by rewrite foldl_snoc. Qed.

Lemma idx_map_of_lookup series c a :
  NoDup (entry_n <$> series) →
  idx_map_of series !! c = Some a
  ↔ ∃ e, e ∈ series ∧ entry_n e = c ∧ entry_alpha e = a.
Proof.
  induction series as [|e series IH] using rev_ind; intros Hnd.
  - unfold idx_map_of. simpl. rewrite lookup_empty. split; [done|].
    by intros (e & ?%elem_of_nil & _).
  - rewrite fmap_app in Hnd. apply NoDup_app in Hnd as (Hnd & Hnot & _).
    rewrite idx_map_of_snoc. destruct (decide (entry_n e = c)) as [<-|Hne].
    + rewrite lookup_insert_eq. split.
      * intros [= <-]. exists e. split; [|done]. apply elem_of_app. right.
        apply list_elem_of_here.
      * intros (e' & [He'|He']%elem_of_app & Hn & <-).
        -- exfalso. apply (Hnot (entry_n e)); [|simpl; apply list_elem_of_here].
           rewrite <- Hn. by apply list_elem_of_fmap_2.
        -- apply list_elem_of_singleton in He' as ->. done.
    + rewrite lookup_insert_ne by done. rewrite (IH Hnd). split.
      * intros (e' & He' & Hn & Ha). exists e'. split; [|done].
        apply elem_of_app. by left.
      * intros (e' & [He'|He']%elem_of_app & Hn & Ha); [by exists e'|].
        apply list_elem_of_singleton in He' as ->. done.
Qed.

Lemma series_position lo hi series c e :
  entry_n <$> series = range lo hi →
  (e ∈ series ∧ entry_n e = c) ↔ (lo ≤ c ∧ series !! Z.to_nat (c - lo) = Some e).
Proof.
  intros Hn. split.
  - intros [[i Hi]%list_elem_of_lookup <-].
    assert (range lo hi !! i = Some (entry_n e)) as [Hr _]%range_lookup_Some
      by (by rewrite <- Hn, list_lookup_fmap, Hi).
    split; [lia|]. by replace (Z.to_nat (entry_n e - lo)) with i by lia.
  - intros [Hlo Hi]. split; [by eapply list_elem_of_lookup_2|].
    assert (range lo hi !! Z.to_nat (c - lo) = Some (entry_n e)) as [Hr _]%range_lookup_Some
      by (by rewrite <- Hn, list_lookup_fmap, Hi).
    lia.
Qed.

Lemma range_NoDup lo hi : NoDup (range lo hi).
Proof. unfold range. apply NoDup_seqZ. Qed.

(** The checkpoint map of a series over [range lo hi]: the alpha at
    position [c - lo] for an index [c] of the range, nothing elsewhere. *)
Lemma idx_map_of_at lo hi series c :
  entry_n <$> series = range lo hi →
  idx_map_of series !! c
  = if c <? lo then None else entry_alpha <$> series !! Z.to_nat (c - lo).
Proof.
  intros Hn. apply option_eq. intros a.
  rewrite idx_map_of_lookup by (rewrite Hn; apply range_NoDup).
  destruct (Z.ltb_spec c lo) as [Hlt|Hge].
  - split; [|done]. intros (e & He & Hc & _).
    destruct (proj1 (series_position lo hi series c e Hn)); [done|lia].
  - rewrite fmap_Some. split.
    + intros (e & He & Hc & Ha). exists e. split; [|done].
      by apply (series_position lo hi series c e Hn).
    + intros (e & He & ->). exists e.
      destruct (proj2 (series_position lo hi series c e Hn)); done.
Qed.

Lemma markers_fold series cfg :
  foldl (λ '(before, at_shift, after) e,
           (if entry_n e =? AIMonitor.shift_n cfg - 1 then entry_alpha e else before,
            if entry_n e =? AIMonitor.shift_n cfg then entry_alpha e else at_shift,
            if entry_n e =? AIMonitor.N cfg - 1 then entry_alpha e else after))
        (0, 0, 0) series
  = (default 0 (idx_map_of series !! (AIMonitor.shift_n cfg - 1)),
     default 0 (idx_map_of series !! AIMonitor.shift_n cfg),
     default 0 (idx_map_of series !! (AIMonitor.N cfg - 1))).
Proof.
  induction series as [|e series IH] using rev_ind; [done|].
  rewrite foldl_snoc, IH, idx_map_of_snoc.
  assert (∀ k, default 0 (<[entry_n e := entry_alpha e]> (idx_map_of series) !! k)
               = if entry_n e =? k then entry_alpha e
                 else default 0 (idx_map_of series !! k)) as Hk.
  { intros k. destruct (Z.eqb_spec (entry_n e) k) as [<-|Hne].
    - by rewrite lookup_insert_eq.
    - by rewrite lookup_insert_ne. }
  by rewrite !Hk.
Qed.

(** The three markers are the checkpoint-map values at [shift_n - 1],
    [shift_n] and [N - 1], and 0 where the map has no such key. *)
Lemma regime_markers_lookup series cfg :
  AIMonitor.regime_markers series cfg
  = (if AIMonitor.shift_n cfg - 1 <? 0 then 0
     else default 0 (idx_map_of series !! (AIMonitor.shift_n cfg - 1)),
     default 0 (idx_map_of series !! AIMonitor.shift_n cfg),
     default 0 (idx_map_of series !! (AIMonitor.N cfg - 1))).
Proof.
  unfold AIMonitor.regime_markers. destruct series as [|e series].
  - unfold idx_map_of. simpl. rewrite !lookup_empty. simpl. by destruct (_ <? _).
  - by rewrite markers_fold.
Qed.

Lemma compute_fracture_metrics_markers libm_log float_pow_int float_sum series cfg m :
  AIMonitor.compute_fracture_metrics libm_log float_pow_int float_sum series cfg = Ok m →
  (AIMonitor.alpha_before_shift m, AIMonitor.alpha_at_shift m, AIMonitor.alpha_after m)
  = AIMonitor.regime_markers series cfg.
Proof.
  unfold AIMonitor.compute_fracture_metrics.
  destruct (metric_E_N _ _) as [e_n|]; [|done]. simpl.
  destruct (metric_Hs_N _ _) as [hs_n|]; [|done]. simpl.
  destruct (metric_C_N _ _ _) as [c_n|]; [|done]. simpl.
  destruct (gap_stats _ _ _) as [[mean var]|]; [|done]. simpl.
  destruct (AIMonitor.regime_markers _ _) as [[before at_shift] after].
  by intros [= <-].
Qed.

Lemma alpha_at_idx_map hi series k :
  entry_n <$> series = range 0 hi →
  default 0 (idx_map_of series !! k) = alpha_at series k.
Proof.
  intros Hn. rewrite (idx_map_of_at 0 hi series k Hn). unfold alpha_at.
  destruct (k <? 0); [done|]. rewrite Z.sub_0_r.
  by destruct (series !! Z.to_nat k).
Qed.

Lemma unit_steps_mono prev series : ∀ (i j : nat) e e',
  unit_steps prev series → (i ≤ j)%nat →
  series !! i = Some e → series !! j = Some e' →
  prev ≤ entry_alpha e ∧ entry_alpha e ≤ entry_alpha e'.
Proof.
  revert prev. induction series as [|e0 series IH]; intros prev i j e e' Hs Hij Hi Hj.
  - done.
  - destruct Hs as (Hd & Hb & Hs). destruct i as [|i], j as [|j]; simpl in *.
    + injection Hi as <-. injection Hj as <-. lia.
    + injection Hi as <-.
      destruct (IH _ j j e' e' Hs ltac:(lia) Hj Hj). lia.
    + lia.
    + destruct (IH _ i j e e' Hs ltac:(lia) Hi Hj). lia.
Qed.

Lemma alpha_at_last series :
  alpha_at series (len series - 1) = alpha_last series.
Proof.
  unfold alpha_at, alpha_last, len. rewrite last_lookup.
  destruct series as [|e series]; [done|].
  simpl length. destruct (Z.ltb_spec (Z.of_nat (S (length series)) - 1) 0); [lia|].
  by replace (Z.to_nat (Z.of_nat (S (length series)) - 1)) with (pred (S (length series)))
    by lia.
Qed.

(** X11.  In the metrics of a completed state-sequence run,
    [alpha_before_shift] and [alpha_at_shift] are the alphas recorded at
    the indices [shift_n - 1] and [shift_n], and 0 when that index was not
    processed; [alpha_after] equals [alpha_N].  For a switch index inside
    the run the three markers are ordered, differ by at most one between
    [shift_n - 1] and [shift_n], and [alpha_at_shift] is at least 1; for
    a switch index at or beyond [N], [alpha_at_shift] is 0. *)
Theorem regime_markers_positions (libm_log : float → float)
    (float_pow_int : float → Z → result float) (float_sum : list float → float)
    (cfg : AIMonitor.AIMConfig) written series m :
  AIMonitor.simulate cfg = (written, Ok series) →
  AIMonitor.compute_fracture_metrics libm_log float_pow_int float_sum series cfg = Ok m →
  AIMonitor.alpha_before_shift m = alpha_at series (AIMonitor.shift_n cfg - 1)
  ∧ AIMonitor.alpha_at_shift m = alpha_at series (AIMonitor.shift_n cfg)
  ∧ AIMonitor.alpha_after m = AIMonitor.alpha_N m
  ∧ (0 ≤ AIMonitor.shift_n cfg < AIMonitor.N cfg →
     AIMonitor.alpha_before_shift m ≤ AIMonitor.alpha_at_shift m
     ∧ AIMonitor.alpha_at_shift m ≤ AIMonitor.alpha_before_shift m + 1
     ∧ 1 ≤ AIMonitor.alpha_at_shift m
     ∧ AIMonitor.alpha_at_shift m ≤ AIMonitor.alpha_after m)
  ∧ (AIMonitor.N cfg ≤ AIMonitor.shift_n cfg → AIMonitor.alpha_at_shift m = 0).
Proof.
  intros Hsim Hm.
  pose proof (compute_fracture_metrics_markers _ _ _ _ _ _ Hm) as Hmark.
  pose proof (compute_fracture_metrics_counts _ _ _ _ _ _ Hm) as (HaN & _).
  pose proof (simulate_series _ _ _ Hsim) as (Hn & Hsteps & Hfirst).
  rewrite regime_markers_lookup, !(alpha_at_idx_map _ _ _ Hn) in Hmark.
  injection Hmark as Hbefore Hat Hafter.
  assert (len series = Z.max 0 (AIMonitor.N cfg)) as Hlen.
  { unfold len. rewrite <- (length_fmap entry_n), Hn, range_length. lia. }
  assert (AIMonitor.alpha_before_shift m = alpha_at series (AIMonitor.shift_n cfg - 1))
    as Hbefore'.
  { rewrite Hbefore. unfold alpha_at.
    by destruct (Z.ltb_spec (AIMonitor.shift_n cfg - 1) 0). }
  assert (AIMonitor.alpha_after m = AIMonitor.alpha_N m) as Hafter'.
  { rewrite Hafter, HaN. destruct (Z.le_gt_cases (AIMonitor.N cfg) 0) as [HN|HN].
    - assert (series = []) as ->.
      { apply (fmap_nil_inv entry_n). rewrite Hn. by apply range_nil. }
      unfold alpha_at. by rewrite (proj2 (Z.ltb_lt _ 0)) by lia.
    - rewrite <- alpha_at_last. f_equal. lia. }
  split_and!; [done..| |].
  - intros [H0 HN]. rewrite Hbefore', Hafter', HaN, Hat, <- alpha_at_last.
    unfold alpha_at.
    destruct (lookup_lt_is_Some_2 series (Z.to_nat (AIMonitor.shift_n cfg)))
      as [e He]; [unfold len in Hlen; lia|].
    destruct (lookup_lt_is_Some_2 series (Z.to_nat (len series - 1)))
      as [el Hel]; [unfold len in *; lia|].
    destruct (lookup_lt_is_Some_2 series 0) as [e0 He0]; [unfold len in Hlen; lia|].
    rewrite (proj2 (Z.ltb_ge (AIMonitor.shift_n cfg) 0)) by lia.
    rewrite (proj2 (Z.ltb_ge (len series - 1) 0)) by lia.
    rewrite He, Hel.
    destruct (unit_steps_mono 0 series 0 (Z.to_nat (AIMonitor.shift_n cfg)) e0 e Hsteps
                ltac:(lia) He0 He) as [_ H0e].
    destruct (unit_steps_mono 0 series (Z.to_nat (AIMonitor.shift_n cfg))
                (Z.to_nat (len series - 1)) e el Hsteps ltac:(lia) He Hel) as [_ Hel'].
    assert (entry_alpha e0 = 1) as Hone.
    { pose proof (Hfirst e0 He0) as Hnew.
      destruct series as [|e1 series]; [done|]. injection He0 as ->.
      destruct Hsteps as (Hd & _). lia. }
    destruct (Z.ltb_spec (AIMonitor.shift_n cfg - 1) 0) as [Hs0|Hs1].
    + replace (Z.to_nat (AIMonitor.shift_n cfg)) with 0%nat in He by lia.
      rewrite He0 in He. injection He as <-. lia.
    + destruct (lookup_lt_is_Some_2 series (Z.to_nat (AIMonitor.shift_n cfg - 1)))
        as [ep Hep]; [unfold len in Hlen; lia|].
      rewrite Hep.
      replace (Z.to_nat (AIMonitor.shift_n cfg))
        with (S (Z.to_nat (AIMonitor.shift_n cfg - 1))) in He by lia.
      destruct (unit_steps_lookup 0 series _ ep e Hsteps Hep He) as [Hd Hb]. lia.
  - intros HN. rewrite Hat. unfold alpha_at.
    destruct (Z.ltb_spec (AIMonitor.shift_n cfg) 0); [done|].
    rewrite lookup_ge_None_2; [done|]. unfold len in Hlen. lia.
Qed.

Lemma regime_markers_positions_witness :
  match AIMonitor.compute_fracture_metrics sample_log sample_pow sample_sum
          scenario_A_series (scenario_A_lcg 5) with
  | Ok m => AIMonitor.alpha_at_shift m = 0 ∧ AIMonitor.alpha_after m = AIMonitor.alpha_N m
  | Raise _ => False
  end.
Proof.
  destruct (AIMonitor.compute_fracture_metrics _ _ _ _ _) as [m|e] eqn:E.
  - destruct (regime_markers_positions sample_log sample_pow sample_sum
                (scenario_A_lcg 5) scenario_A_rows scenario_A_series m)
      as (_ & _ & Hafter & _ & Hbeyond); [vm_compute; reflexivity|exact E|].
    split; [|exact Hafter]. apply Hbeyond. simpl. lia.
  - vm_compute in E. discriminate E.
Defined.

(** ** Checkpoints *)

Lemma sorted_le_NoDup_lt (l : list Z) :
  StronglySorted Z.le l → NoDup l → StronglySorted Z.lt l.
Proof.
  induction 1 as [|x l Hs IH Hall]; intros Hnd; [constructor|].
  apply NoDup_cons in Hnd as [Hx Hnd]. constructor; [by apply IH|].
  apply Forall_forall. intros y Hy.
  pose proof (proj1 (Forall_forall _ _) Hall y Hy).
  assert (x ≠ y) by (by intros ->). lia.
Qed.

(** [sorted(set(xs))]: the members of [xs], ascending, each one once. *)
Lemma sorted_set_spec enum xs :
  set_enumeration enum →
  StronglySorted Z.lt (sorted_set enum xs) ∧ ∀ c, c ∈ sorted_set enum xs ↔ c ∈ xs.
Proof.
  intros Henum. unfold sorted_set.
  assert (merge_sort Z.le (enum (list_to_set xs)) ≡ₚ elements (list_to_set xs : gset Z))
    as Hperm by (etrans; [apply merge_sort_Permutation|apply Henum]).
  split.
  - apply sorted_le_NoDup_lt; [apply StronglySorted_merge_sort; apply _|].
    rewrite Hperm. apply NoDup_elements.
  - intros c. by rewrite Hperm, elem_of_elements, elem_of_list_to_set.
Qed.

(** The checkpoint loop over a series whose indices are [range lo hi],
    for candidates that are filtered into that range. *)
Lemma checkpoint_rows enum (cands : list Z) (P : Z → Prop) `{∀ c, Decision (P c)}
    lo hi series :
  set_enumeration enum → entry_n <$> series = range lo hi →
  (∀ c, P c → lo ≤ c < hi) →
  ∃ cps,
    map_each
      (λ c, match idx_map_of series !! c with
            | Some a => Ok (c, a) | None => Raise KeyError end)
      (sorted_set enum (filter P cands)) = Ok cps
    ∧ strictly_ascending cps
    ∧ ∀ c a, (c, a) ∈ cps
        ↔ c ∈ cands ∧ P c ∧ ∃ e, series !! Z.to_nat (c - lo) = Some e ∧ entry_alpha e = a.
Proof.
  intros Henum Hn HP.
  destruct (sorted_set_spec enum (filter P cands) Henum) as [Hsorted Hmem].
  assert (length series = Z.to_nat (hi - lo)) as Hlen
    by (by rewrite <- (length_fmap entry_n), Hn, range_length).
  assert (∀ c, P c → ∃ e, series !! Z.to_nat (c - lo) = Some e) as Hpos.
  { intros c Hc%HP. apply lookup_lt_is_Some_2. lia. }
  exists ((λ c, (c, default 0 (idx_map_of series !! c)))
            <$> sorted_set enum (filter P cands)).
  split_and!.
  - apply map_each_returns. intros c [Hc _]%Hmem%list_elem_of_filter.
    rewrite (idx_map_of_at lo hi series c Hn).
    destruct (Z.ltb_spec c lo); [apply HP in Hc; lia|].
    destruct (Hpos c Hc) as [e ->]. done.
  - unfold strictly_ascending.
    assert (∀ l : list Z,
              ((λ c, (c, default 0 (idx_map_of series !! c))) <$> l).*1 = l) as ->;
      [|done].
    intros l. induction l as [|x l IH]; [done|]. rewrite !fmap_cons, IH. done.
  - intros c a. rewrite list_elem_of_fmap. split.
    + intros (c' & [= <- ->] & [HPc Hc]%Hmem%list_elem_of_filter).
      split_and!; [done..|].
      rewrite (idx_map_of_at lo hi series c Hn).
      destruct (Z.ltb_spec c lo); [apply HP in HPc; lia|].
      destruct (Hpos c HPc) as [e He]. exists e. by rewrite He.
    + intros (Hc & HPc & e & He & <-). exists c. split.
      * rewrite (idx_map_of_at lo hi series c Hn).
        destruct (Z.ltb_spec c lo); [apply HP in HPc; lia|]. by rewrite He.
      * apply Hmem, list_elem_of_filter. done.
Qed.

Lemma last_position series :
  series ≠ [] →
  ∃ e, series !! Z.to_nat (len series - 1) = Some e ∧ entry_alpha e = alpha_last series.
Proof.
  intros Hne. unfold alpha_last, len. rewrite last_lookup.
  destruct series as [|e0 series]; [done|].
  replace (Z.to_nat (Z.of_nat (length (e0 :: series)) - 1))
    with (pred (length (e0 :: series))) by (simpl length; lia).
  destruct (lookup_lt_is_Some_2 (e0 :: series) (pred (length (e0 :: series))))
    as [e He]; [simpl; lia|].
  exists e. by rewrite He.
Qed.

(** X12.  After a completed run of either script the checkpoint loop never
    hits a missing key: it returns rows that ascend strictly in the index,
    one for each distinct candidate inside the processed range, each with
    the alpha recorded at that index; the row of the last index, with the
    final alpha, is always among them. *)
Theorem checkpoints_of_completed_run (enum : gset Z → list Z) :
  set_enumeration enum →
  (∀ cfg written series,
     AIMonitor.simulate cfg = (written, Ok series) →
     ∃ cps, AIMonitor.checkpoints enum cfg series = Ok cps
       ∧ strictly_ascending cps
       ∧ (∀ c a, (c, a) ∈ cps
            ↔ c ∈ AIMonitor.checkpoint_candidates cfg
              ∧ (0 ≤ c ∧ c ≤ AIMonitor.N cfg - 1)
              ∧ ∃ e, series !! Z.to_nat c = Some e ∧ entry_alpha e = a)
       ∧ (1 ≤ AIMonitor.N cfg → (AIMonitor.N cfg - 1, alpha_last series) ∈ cps))
  ∧ (∀ sha1 cfg written series,
       SBMTest.simulate sha1 cfg = (written, Ok series) →
       ∃ cps, SBMTest.checkpoints enum cfg series = Ok cps
         ∧ strictly_ascending cps
         ∧ (∀ c a, (c, a) ∈ cps
              ↔ c ∈ SBMTest.checkpoint_candidates cfg
                ∧ (2 ≤ c ∧ c ≤ SBMTest.N cfg)
                ∧ ∃ e, series !! Z.to_nat (c - 2) = Some e ∧ entry_alpha e = a)
         ∧ (2 ≤ SBMTest.N cfg → (SBMTest.N cfg, alpha_last series) ∈ cps)).
Proof.
  intros Henum. split.
  - intros cfg written series Hsim.
    pose proof (simulate_series _ _ _ Hsim) as (Hn & _).
    destruct (checkpoint_rows enum (AIMonitor.checkpoint_candidates cfg)
                (λ c, 0 ≤ c ∧ c ≤ AIMonitor.N cfg - 1) 0 (AIMonitor.N cfg) series
                Henum Hn ltac:(intros c; simpl; lia)) as (cps & Hcps & Hasc & Hmem).
    exists cps. split_and!; [done|done|..].
    { intros c a. rewrite Hmem. by rewrite Z.sub_0_r. }
    intros HN. apply Hmem.
    assert (len series = AIMonitor.N cfg) as Hlen.
    { unfold len. rewrite <- (length_fmap entry_n), Hn, range_length. lia. }
    split_and!; [|lia..|].
    + unfold AIMonitor.checkpoint_candidates. do 12 apply list_elem_of_further.
      apply list_elem_of_here.
    + destruct (last_position series) as (e & He & Ha).
      { intros ->. unfold len in Hlen. simpl in Hlen. lia. }
      exists e. rewrite Z.sub_0_r, <- Hlen. done.
  - intros sha1 cfg written series Hsim.
    destruct (sbm_series_unit_steps _ _ _ _ Hsim) as [_ Hn].
    destruct (checkpoint_rows enum (SBMTest.checkpoint_candidates cfg)
                (λ c, 2 ≤ c ∧ c ≤ SBMTest.N cfg) 2 (SBMTest.N cfg + 1) series
                Henum Hn ltac:(intros c; simpl; lia)) as (cps & Hcps & Hasc & Hmem).
    exists cps. split_and!; [done..|].
    intros HN. apply Hmem.
    assert (len series = SBMTest.N cfg - 1) as Hlen.
    { unfold len. rewrite <- (length_fmap entry_n), Hn, range_length. lia. }
    split_and!; [|lia..|].
    + unfold SBMTest.checkpoint_candidates. do 10 apply list_elem_of_further.
      apply list_elem_of_here.
    + destruct (last_position series) as (e & He & Ha).
      { intros ->. unfold len in Hlen. simpl in Hlen. lia. }
      exists e. split; [|done]. rewrite <- He. f_equal. lia.
Qed.

Lemma checkpoints_of_completed_run_witness :
  (∃ cps, AIMonitor.checkpoints elements (scenario_A_lcg 5) scenario_A_series = Ok cps
          ∧ strictly_ascending cps)
  ∧ (∃ cps, SBMTest.checkpoints elements scenario_B scenario_B_series = Ok cps
            ∧ strictly_ascending cps).
Proof.
  destruct (checkpoints_of_completed_run elements) as [Ha Hb].
  - intros s. reflexivity.
  - split.
    + destruct (Ha (scenario_A_lcg 5) scenario_A_rows scenario_A_series)
        as (cps & Hcps & Hasc & _); [vm_compute; reflexivity|].
      exists cps. split; [exact Hcps|exact Hasc].
    + destruct (Hb sha1_stub scenario_B scenario_B_rows scenario_B_series)
        as (cps & Hcps & Hasc & _); [vm_compute; reflexivity|].
      exists cps. split; [exact Hcps|exact Hasc].
Defined.

(** ** The switch index chosen by [main] *)

(** X13.  For [N >= 1] the switch index that [main] hands to [run] lies in
    [[0, N-1]]: an argument inside this range is kept, a negative one
    becomes [N // 2], a larger one becomes [N - 1].  For [N <= 0] the
    clamp yields [N - 1], a negative index, whatever the argument. *)
Theorem main_shift_n_clamp (N s : Z) :
  (1 ≤ N →
   0 ≤ AIMonitor.main_shift_n N s ≤ N - 1
   ∧ (0 ≤ s ≤ N - 1 → AIMonitor.main_shift_n N s = s)
   ∧ (s < 0 → AIMonitor.main_shift_n N s = N / 2)
   ∧ (N - 1 < s → AIMonitor.main_shift_n N s = N - 1))
  ∧ (N ≤ 0 → AIMonitor.main_shift_n N s = N - 1).
Proof.
  pose proof (Z.div_mod N 2 ltac:(lia)) as Hdiv.
  pose proof (Z.mod_pos_bound N 2 ltac:(lia)) as Hmod.
  unfold AIMonitor.main_shift_n. split.
  - intros HN. destruct (Z.ltb_spec s 0) as [Hs|Hs].
    + rewrite (proj2 (Z.ltb_ge (N / 2) 0)) by lia.
      rewrite (proj2 (Z.ltb_ge (N - 1) (N / 2))) by lia.
      split_and!; lia.
    + rewrite (proj2 (Z.ltb_ge s 0)) by lia.
      destruct (Z.ltb_spec (N - 1) s); split_and!; lia.
  - intros HN. destruct (Z.ltb_spec s 0) as [Hs|Hs].
    + destruct (Z.ltb_spec (N / 2) 0).
      * by rewrite (proj2 (Z.ltb_lt (N - 1) 0)) by lia.
      * by rewrite (proj2 (Z.ltb_lt (N - 1) (N / 2))) by lia.
    + rewrite (proj2 (Z.ltb_ge s 0)) by lia.
      by rewrite (proj2 (Z.ltb_lt (N - 1) s)) by lia.
Qed.

Lemma main_shift_n_clamp_witness :
  AIMonitor.main_shift_n 10 (-1) = 10 / 2 ∧ AIMonitor.main_shift_n 0 7 = 0 - 1.
Proof.
  split.
  - destruct (main_shift_n_clamp 10 (-1)) as [Hpos _].
    destruct Hpos as (_ & _ & Hneg & _); [lia|]. apply Hneg. lia.
  - destruct (main_shift_n_clamp 0 7) as [_ Hnon]. apply Hnon. lia.
Defined.

(* ===================================================================== *)
(** * Observation modes and closed forms of the stream *)
(* ===================================================================== *)

Lemma parity_bit_mod x : AIMonitor.parity_bit x = x mod 2.
Proof.
  unfold AIMonitor.parity_bit.
  assert (Z.land x 1 = x mod 2) as -> by exact (Z.land_ones x 1 ltac:(lia)).
  pose proof (Z.mod_pos_bound x 2 ltac:(lia)).
  destruct (Z.eqb_spec (x mod 2) 0); lia.
Qed.

Lemma lxor_mod_2 x y : Z.lxor x y mod 2 = (y - x) mod 2.
Proof.
  rewrite <- (Z.bit0_mod (Z.lxor x y)), <- (Z.bit0_mod (y - x)).
  rewrite Z.lxor_spec, !Z.bit0_odd, Z.odd_sub.
  by destruct (Z.odd x), (Z.odd y).
Qed.

Lemma mod_even_mod_2 a m : Z.even m = true → m ≠ 0 → (a mod m) mod 2 = a mod 2.
Proof.
  intros [k ->]%Z.even_spec Hm. rewrite (Z.mod_eq a (2 * k)) by done.
  replace (a - 2 * k * (a / (2 * k))) with (a + (- (k * (a / (2 * k)))) * 2) by lia.
  apply Z_mod_plus_full.
Qed.

Lemma land_mask_mod_2 x : Z.land x 0xFFFFFFFF mod 2 = x mod 2.
Proof.
  assert (Z.land x 0xFFFFFFFF = x mod 2 ^ 32) as ->
    by exact (Z.land_ones x 32 ltac:(lia)).
  apply Z.mod_mod_divide. exists (2 ^ 31). reflexivity.
Qed.

Lemma sweep_ext {Sig : Type} `{Countable Sig} (f g : Z → result Sig) ns st :
  (∀ n, f n = g n) → sweep f ns st = sweep g ns st.
Proof.
  intros Hfg. revert st. induction ns as [|n ns IH]; intros st; [done|].
  simpl. rewrite Hfg. destruct (g n); [apply IH|done].
Qed.

(** X14.  For an even modulus other than 0 the observation modes [delta_parity] and
    [xor_parity] cannot be told apart: they give the same bit for every
    pair of integers, hence the same signatures, result rows and alpha
    series for every configuration. *)
Theorem delta_parity_is_xor_parity (cfg : AIMonitor.AIMConfig) :
  Z.even (AIMonitor.M cfg) = true → AIMonitor.M cfg ≠ 0 →
  (∀ x0 x1, AIMonitor.obs_bit x0 x1 (with_obs cfg "delta_parity")
            = AIMonitor.obs_bit x0 x1 (with_obs cfg "xor_parity"))
  ∧ (∀ n xs, AIMonitor.signature_at n xs (with_obs cfg "delta_parity")
             = AIMonitor.signature_at n xs (with_obs cfg "xor_parity"))
  ∧ AIMonitor.simulate (with_obs cfg "delta_parity")
    = AIMonitor.simulate (with_obs cfg "xor_parity").
Proof.
  intros Heven HM.
  assert (∀ x0 x1, AIMonitor.obs_bit x0 x1 (with_obs cfg "delta_parity")
                   = AIMonitor.obs_bit x0 x1 (with_obs cfg "xor_parity")) as Hbit.
  { intros x0 x1. unfold AIMonitor.obs_bit. simpl.
    rewrite py_mod_returns by done. cbn [mbind result_bind]. f_equal.
    rewrite !parity_bit_mod, land_mask_mod_2, lxor_mod_2, mod_even_mod_2 by done. done. }
  assert (∀ n xs, AIMonitor.signature_at n xs (with_obs cfg "delta_parity")
                  = AIMonitor.signature_at n xs (with_obs cfg "xor_parity")) as Hsig.
  { intros n xs. unfold AIMonitor.signature_at. apply for_each_ext.
    intros sig k _.
    destruct (getitem xs (n + k)) as [x0|]; [|done].
    destruct (getitem xs (n + k + 1)) as [x1|]; [|done].
    cbn [mbind result_bind]. by rewrite Hbit. }
  split_and!; [done..|].
  unfold AIMonitor.simulate.
  change (AIMonitor.build_stream (with_obs cfg "delta_parity"))
    with (AIMonitor.build_stream (with_obs cfg "xor_parity")).
  destruct (AIMonitor.build_stream _) as [xs|]; [|done].
  change (AIMonitor.N (with_obs cfg "delta_parity"))
    with (AIMonitor.N (with_obs cfg "xor_parity")).
  by rewrite (sweep_ext _ (λ n, AIMonitor.signature_at n xs (with_obs cfg "xor_parity"))).
Qed.

Lemma delta_parity_is_xor_parity_witness :
  AIMonitor.simulate (with_obs (scenario_A_lcg 5) "delta_parity")
  = AIMonitor.simulate (with_obs (scenario_A_lcg 5) "xor_parity").
Proof.
  destruct (delta_parity_is_xor_parity (scenario_A_lcg 5)) as (_ & _ & Hsim).
  - reflexivity.
  - simpl. lia.
  - exact Hsim.
Defined.

(** ** The ramp in closed form *)

Lemma triangular_succ t : triangular (t + 1) = triangular t + (t + 1).
Proof.
  unfold triangular.
  replace ((t + 1) * (t + 1 + 1)) with (t * (t + 1) + (t + 1) * 2) by lia.
  by rewrite Z.div_add by lia.
Qed.

(** X15.  While the pre regime is a ramp, the stream has a closed form:
    for [0 <= t <= shift_n] within the stream ([t <= N + H]) the state at
    [t] is the seed plus the [t]-th triangular number, reduced modulo
    [M]. *)
Theorem ramp_closed_form (cfg : AIMonitor.AIMConfig) (xs : list Z) (t : Z) :
  AIMonitor.build_stream cfg = Ok xs →
  AIMonitor.pre_mode cfg = "ramp" →
  0 ≤ t → t ≤ AIMonitor.shift_n cfg → t ≤ AIMonitor.N cfg + AIMonitor.H cfg →
  xs !! Z.to_nat t = Some ((AIMonitor.seed cfg + triangular t) mod AIMonitor.M cfg).
Proof.
  intros Hxs Hpre Ht. pose proof (build_stream_inv cfg xs Hxs) as (_ & H0 & _ & Hrec).
  pose proof (build_stream_ok cfg xs Hxs) as (HM & _).
  rewrite <- (Z2Nat.id t Ht). generalize (Z.to_nat t). clear t Ht. intros d.
  rewrite Nat2Z.id. induction d as [|d IH]; intros Hshift Hlen.
  - rewrite H0. by rewrite Z.add_0_r.
  - destruct (Hrec (Z.of_nat d) ltac:(lia)) as (x & x' & Hx & Hx' & Hstep).
    rewrite Nat2Z.id, IH in Hx by lia. injection Hx as <-.
    replace (Z.to_nat (Z.of_nat d + 1)) with (S d) in Hx' by lia. rewrite Hx'.
    unfold regime_step in Hstep. rewrite (proj2 (Z.ltb_lt _ _)) in Hstep by lia.
    rewrite Hpre in Hstep.
    apply stream_step_ok in Hstep as [(? & _) | [(? & _) | (_ & _ & ->)]]; [done..|].
    f_equal. rewrite Z.add_mod_idemp_l by done. f_equal.
    replace (Z.of_nat (S d)) with (Z.of_nat d + 1) by lia.
    rewrite triangular_succ. lia.
Qed.

Lemma ramp_closed_form_witness :
  [5; 6; 0; 3; 7] !! Z.to_nat 3 = Some ((123456789 + triangular 3) mod 8).
Proof.
  apply (ramp_closed_form (probe_cfg 3 1 8 4 "ramp" "plateau" "delta_parity")
           [5; 6; 0; 3; 7] 3).
  - vm_compute. reflexivity.
  - reflexivity.
  - lia.
  - simpl. lia.
  - simpl. lia.
Defined.

(* ===================================================================== *)
(** * The index operators *)
(* ===================================================================== *)

(** ** [digitsum_mod9] *)

(** The digit sum keeps the residue modulo 9. *)
Lemma sdig_loop_mod9 (fuel : nat) : ∀ s x r,
  SBMTest.sdig_loop fuel s x = Ok r → r mod 9 = (s + x) mod 9.
Proof.
  induction fuel as [|fuel IH]; intros s x r; [done|].
  cbn [SBMTest.sdig_loop]. destruct (Z.eqb_spec x 0) as [->|Hne].
  - intros [= <-]. by rewrite Z.add_0_r.
  - intros Hr%IH. rewrite Hr.
    pose proof (Z.div_mod x 10 ltac:(lia)) as Hx.
    replace (s + x) with (s + x mod 10 + x / 10 + (x / 10) * 9) by lia.
    by rewrite Z_mod_plus_full.
Qed.

Lemma sdig_mod9 x : 0 ≤ x → ∃ r, SBMTest.sdig x = Ok r ∧ 0 ≤ r ∧ r mod 9 = x mod 9.
Proof.
  intros Hx. destruct (sdig_returns x Hx) as (r & Hr & Hr0).
  exists r. split_and!; [done..|]. by apply sdig_loop_mod9 in Hr.
Qed.

Lemma digitsum_loop_closed (ks : list Z) : ∀ x (sig : list Z),
  0 ≤ x →
  ∃ x', for_each (λ '(x, sig) _, x' ← SBMTest.sdig x; Ok (x', sig ++ [x mod 9]))
                 ks (x, sig)
        = Ok (x', sig ++ replicate (length ks) (x mod 9)).
Proof.
  induction ks as [|k ks IH]; intros x sig Hx.
  - exists x. simpl. by rewrite app_nil_r.
  - cbn [for_each]. destruct (sdig_mod9 x Hx) as (r & -> & Hr & Hmod).
    cbn [mbind result_bind]. destruct (IH r (sig ++ [x mod 9]) Hr) as (x' & ->).
    exists x'. by rewrite Hmod, <- app_assoc.
Qed.

Lemma op_digitsum_closed n cfg :
  0 ≤ n →
  SBMTest.op_digitsum_mod9_signature n cfg
  = Ok (SBMTest.SigTrace (replicate (Z.to_nat (SBMTest.H cfg)) (n mod 9))).
Proof.
  intros Hn. unfold SBMTest.op_digitsum_mod9_signature.
  destruct (digitsum_loop_closed (range 0 (SBMTest.H cfg)) n [] Hn) as (x' & ->).
  cbn [mbind result_bind]. by rewrite range_length, Z.sub_0_r.
Qed.

(** X16.  On a non-negative index the [digitsum_mod9] signature is [H]
    copies of [n % 9]: taking digit sums never changes the residue modulo
    9.  On a negative index the operator does not return when [H >= 1]
    ([sdig] loops for ever), and with [H <= 0] it returns the empty
    tuple. *)
Theorem digitsum_signature_closed_form (n : Z) (cfg : SBMTest.SBMConfig) :
  (0 ≤ n →
   SBMTest.op_digitsum_mod9_signature n cfg
   = Ok (SBMTest.SigTrace (replicate (Z.to_nat (SBMTest.H cfg)) (n mod 9))))
  ∧ (n < 0 → 1 ≤ SBMTest.H cfg →
     SBMTest.op_digitsum_mod9_signature n cfg = Raise Diverges)
  ∧ (SBMTest.H cfg ≤ 0 →
     SBMTest.op_digitsum_mod9_signature n cfg = Ok (SBMTest.SigTrace [])).
Proof.
  split_and!.
  - intros Hn. unfold SBMTest.op_digitsum_mod9_signature.
    destruct (digitsum_loop_closed (range 0 (SBMTest.H cfg)) n [] Hn) as (x' & ->).
    cbn [mbind result_bind]. by rewrite range_length, Z.sub_0_r.
  - intros Hn HH. unfold SBMTest.op_digitsum_mod9_signature.
    rewrite range_cons by lia. cbn [for_each]. unfold SBMTest.sdig.
    by rewrite sdig_loop_negative.
  - intros HH. unfold SBMTest.op_digitsum_mod9_signature.
    by rewrite range_nil by lia.
Qed.

Lemma digitsum_signature_closed_form_witness :
  SBMTest.op_digitsum_mod9_signature 49 scenario_B
  = Ok (SBMTest.SigTrace (replicate (Z.to_nat 2) (49 mod 9)))
  ∧ SBMTest.op_digitsum_mod9_signature (-7) scenario_B = Raise Diverges.
Proof.
  destruct (digitsum_signature_closed_form 49 scenario_B) as (Hpos & _).
  destruct (digitsum_signature_closed_form (-7) scenario_B) as (_ & Hneg & _).
  split.
  - apply Hpos. lia.
  - apply Hneg; simpl; lia.
Defined.

(** ** Saturation of the [digitsum_mod9] alphabet *)

(** The rows of an index-operator run carry the operator's signature of
    their index, and their position is their index less 2. *)
Lemma sbm_rows_sig sha1 cfg sig_fn (k : nat) r :
  SBMTest.get_signature_fn sha1 (SBMTest.op cfg) = Ok sig_fn →
  (SBMTest.simulate sha1 cfg).1 !! k = Some r →
  sig_fn (row_n r) cfg = Ok (row_sig r) ∧ row_n r = 2 + Z.of_nat k.
Proof.
  intros Hfn Hr.
  destruct (sbm_simulate_tracker sha1 cfg sig_fn Hfn)
    as (done & rest & st & Hrange & _ & Hinv & Hrows & _).
  rewrite Hrows in Hr. split.
  - apply (inv_sig _ _ _ Hinv). by eapply list_elem_of_lookup_2.
  - pose proof (inv_row_index _ _ _ _ _ Hinv Hr) as Hd.
    assert (range 2 (SBMTest.N cfg + 1) !! k = Some (row_n r)) as Hk
      by (rewrite Hrange; by apply lookup_app_l_Some).
    by apply range_lookup_Some in Hk as [-> _].
Qed.

(** The signatures of [k] consecutive indices from 2 on, for a signature
    that is a one-to-one function of the residue modulo 9. *)
Lemma residue_signatures_count {Sig : Type} `{Countable Sig} (g : Z → Sig) (k : nat) :
  (∀ a b, g a = g b ↔ a mod 9 = b mod 9) →
  size (list_to_set (g <$> seqZ 2 (Z.of_nat k)) : gset Sig) = (k `min` 9)%nat.
Proof.
  intros Hg.
  assert (Hsmall : ∀ j : nat, (j ≤ 9)%nat →
            size (list_to_set (g <$> seqZ 2 (Z.of_nat j)) : gset Sig) = j).
  { intros j Hj. rewrite size_list_to_set.
    - by rewrite length_fmap, length_seqZ, Nat2Z.id.
    - apply NoDup_fmap_2_strong; [|apply NoDup_seqZ].
      intros a b Ha%elem_of_seqZ Hb%elem_of_seqZ Hab%Hg.
      revert Hab. Z.div_mod_to_equations. lia. }
  destruct (Nat.le_gt_cases k 9) as [Hk|Hk].
  - rewrite Hsmall by done. lia.
  - replace (k `min` 9)%nat with 9%nat by lia. rewrite <- (Hsmall 9%nat) by done.
    f_equal. apply set_eq. intros s.
    rewrite !elem_of_list_to_set, !list_elem_of_fmap. split.
    + intros (n & -> & Hn%elem_of_seqZ). exists (2 + (n - 2) mod 9). split.
      * apply Hg. Z.div_mod_to_equations. lia.
      * apply elem_of_seqZ. Z.div_mod_to_equations. lia.
    + intros (n & -> & Hn%elem_of_seqZ). exists n. split; [done|].
      apply elem_of_seqZ. lia.
Qed.

Lemma replicate_eq_iff {A} (h : nat) (a b : A) :
  (0 < h)%nat → replicate h a = replicate h b ↔ a = b.
Proof.
  intros Hh. destruct h as [|h]; [lia|]. split; [by intros [= ->]|by intros ->].
Qed.

(** X17.  A [digitsum_mod9] run with [H >= 1] always completes, every
    record carries [H] copies of [n % 9], and the alphabet saturates at
    nine signatures: the alpha recorded at index [n] is [min(n - 1, 9)],
    so nothing new appears after [n = 10]. *)
Theorem digitsum_alpha_saturates (sha1 : list Byte.byte → list Byte.byte)
    (cfg : SBMTest.SBMConfig) :
  SBMTest.op cfg = "digitsum_mod9" → 1 ≤ SBMTest.H cfg →
  ∃ written series,
    SBMTest.simulate sha1 cfg = (written, Ok series)
    ∧ (∀ r, r ∈ written →
         row_sig r
         = SBMTest.SigTrace (replicate (Z.to_nat (SBMTest.H cfg)) (row_n r mod 9)))
    ∧ (∀ e, e ∈ series → entry_alpha e = Z.min (entry_n e - 1) 9).
Proof.
  intros Hop HH.
  destruct (sbm_simulate_returns sha1 cfg) as [series Hseries].
  { right. right. by left. }
  destruct (SBMTest.simulate sha1 cfg) as [written outcome] eqn:Hsim.
  simpl in Hseries. subst outcome. exists written, series.
  assert (Hfn : SBMTest.get_signature_fn sha1 (SBMTest.op cfg)
                = Ok SBMTest.op_digitsum_mod9_signature) by (by rewrite Hop).
  set (g := λ n : Z,
         SBMTest.SigTrace (replicate (Z.to_nat (SBMTest.H cfg)) (n mod 9))).
  assert (Hrow : ∀ (k : nat) r, written !! k = Some r →
            row_sig r = g (row_n r) ∧ row_n r = 2 + Z.of_nat k).
  { intros k r Hr.
    destruct (sbm_rows_sig sha1 cfg _ k r Hfn) as [Hsig Hk]; [by rewrite Hsim|].
    split; [|done]. rewrite op_digitsum_closed in Hsig by lia. by injection Hsig. }
  split_and!; [done| |].
  - intros r [k Hk]%list_elem_of_lookup. by destruct (Hrow k r Hk).
  - intros e [i Hi]%list_elem_of_lookup.
    rewrite (sbm_simulate_counts sha1 cfg written series i e Hsim Hi).
    destruct (sbm_series_unit_steps _ _ _ _ Hsim) as [_ Hn].
    assert (entry_n e = 2 + Z.of_nat i) as ->.
    { assert (range 2 (SBMTest.N cfg + 1) !! i = Some (entry_n e)) as Hk
        by (by rewrite <- Hn, list_lookup_fmap, Hi).
      by apply range_lookup_Some in Hk as [-> _]. }
    assert (length written = length series) as Hlen.
    { destruct (sbm_simulate_domain sha1 cfg) as [_ Hfull].
      rewrite Hsim in Hfull. destruct (Hfull series eq_refl) as [Hw Hs]. simpl in Hw.
      by rewrite <- (length_fmap row_n), Hw, <- Hs, length_fmap. }
    unfold distinct_signatures.
    assert ((list_to_set (row_sig <$> take (S i) written) : gset SBMTest.Signature)
            = list_to_set (g <$> seqZ 2 (Z.of_nat (S i)))) as ->.
    { apply set_eq. intros s.
      rewrite !elem_of_list_to_set, !list_elem_of_fmap. split.
      - intros (r & -> & (k & Hk & Hki)%elem_of_take).
        destruct (Hrow k r Hk) as [Hsig Hrn]. exists (row_n r). split; [done|].
        apply elem_of_seqZ. lia.
      - intros (n & -> & Hn2%elem_of_seqZ).
        destruct (lookup_lt_is_Some_2 written (Z.to_nat (n - 2))) as [r Hr].
        { apply lookup_lt_Some in Hi. lia. }
        destruct (Hrow _ r Hr) as [Hsig Hrn]. exists r. split.
        + rewrite Hsig. f_equal. lia.
        + apply elem_of_take. exists (Z.to_nat (n - 2)). split; [done|lia]. }
    rewrite residue_signatures_count; [lia|].
    intros a b. unfold g. split.
    + intros [= Hab]. by apply replicate_eq_iff in Hab; [|lia].
    + by intros ->.
Qed.

Lemma digitsum_alpha_saturates_witness :
  ∃ written series,
    SBMTest.simulate sha1_stub scenario_B = (written, Ok series)
    ∧ (∀ e, e ∈ series → entry_alpha e = Z.min (entry_n e - 1) 9).
Proof.
  destruct (digitsum_alpha_saturates sha1_stub scenario_B)
    as (written & series & Hsim & _ & Halpha).
  - reflexivity.
  - simpl. lia.
  - exists written, series. split; [exact Hsim|exact Halpha].
Defined.

(** ** [collatz_parity] *)

Lemma land_1_mod x : Z.land x 1 = x mod 2.
Proof. exact (Z.land_ones x 1 ltac:(lia)). Qed.

Lemma collatz_fold_congruent (ks : list Z) : ∀ x y (sig : list Z),
  (2 ^ Z.of_nat (length ks) | x - y) →
  (foldl (λ '(x, sig) _,
            (if Z.land x 1 =? 0 then x / 2 else 3 * x + 1,
             sig ++ [SBMTest.odd_bit x]))
         (x, sig) ks).2
  = (foldl (λ '(x, sig) _,
              (if Z.land x 1 =? 0 then x / 2 else 3 * x + 1,
               sig ++ [SBMTest.odd_bit x]))
           (y, sig) ks).2.
Proof.
  induction ks as [|k ks IH]; intros x y sig Hxy; [done|].
  cbn [foldl]. simpl length in Hxy.
  rewrite Nat2Z.inj_succ, Z.pow_succ_r in Hxy by lia.
  destruct Hxy as [q Hq].
  pose proof (Z.div_mod x 2 ltac:(lia)) as Hx.
  pose proof (Z.div_mod y 2 ltac:(lia)) as Hy.
  pose proof (Z.mod_pos_bound x 2 ltac:(lia)) as Hxb.
  pose proof (Z.mod_pos_bound y 2 ltac:(lia)) as Hyb.
  assert (x mod 2 = y mod 2) as Hpar.
  { assert (x mod 2 - y mod 2 = 2 * (q * 2 ^ Z.of_nat (length ks) - x / 2 + y / 2))
      by lia. lia. }
  unfold SBMTest.odd_bit. rewrite !land_1_mod, Hpar.
  destruct (Z.eqb_spec (y mod 2) 0) as [Hev|Hodd]; apply IH.
  - exists q. lia.
  - exists (3 * q * 2). lia.
Qed.

(** X18.  The [collatz_parity] signature of an index depends only on the
    index modulo [2^H]: two indices that agree modulo [2^H] have the same
    [H] parity bits, so the signature of [n + 2^H] is that of [n]. *)
Theorem collatz_signature_periodic (n n' : Z) (cfg : SBMTest.SBMConfig) :
  0 ≤ SBMTest.H cfg →
  n mod 2 ^ SBMTest.H cfg = n' mod 2 ^ SBMTest.H cfg →
  SBMTest.op_collatz_parity_signature n cfg
  = SBMTest.op_collatz_parity_signature n' cfg.
Proof.
  intros HH Hmod. unfold SBMTest.op_collatz_parity_signature.
  pose proof (collatz_fold_congruent (range 0 (SBMTest.H cfg)) n n' []) as Hfold.
  rewrite range_length, Z.sub_0_r, Z2Nat.id in Hfold by done.
  destruct (foldl _ (n, []) _) as [x sig], (foldl _ (n', []) _) as [x' sig'].
  simpl in Hfold. rewrite Hfold; [done|].
  exists (n / 2 ^ SBMTest.H cfg - n' / 2 ^ SBMTest.H cfg).
  pose proof (Z.pow_pos_nonneg 2 (SBMTest.H cfg) ltac:(lia) HH) as Hpos.
  pose proof (Z.div_mod n (2 ^ SBMTest.H cfg) ltac:(lia)).
  pose proof (Z.div_mod n' (2 ^ SBMTest.H cfg) ltac:(lia)). lia.
Qed.

Lemma collatz_signature_periodic_witness :
  SBMTest.op_collatz_parity_signature 7 scenario_B
  = SBMTest.op_collatz_parity_signature 3 scenario_B.
Proof.
  apply (collatz_signature_periodic 7 3 scenario_B).
  - simpl. lia.
  - reflexivity.
Defined.

(** ** The parity operators *)

Lemma odd_bit_is_bit x : is_bit (SBMTest.odd_bit x).
Proof. unfold SBMTest.odd_bit, is_bit. destruct (_ =? _); auto. Qed.

Lemma parity_fold_bits (next : Z → Z) (ks : list Z) : ∀ x (sig : list Z),
  ∃ x' bits,
    foldl (λ '(x, sig) _, (next x, sig ++ [SBMTest.odd_bit x])) (x, sig) ks
    = (x', sig ++ bits)
    ∧ length bits = length ks ∧ Forall is_bit bits.
Proof.
  induction ks as [|k ks IH]; intros x sig.
  - exists x, []. by rewrite app_nil_r.
  - cbn [foldl].
    destruct (IH (next x) (sig ++ [SBMTest.odd_bit x])) as (x' & bits & -> & Hlen & Hbits).
    exists x', (SBMTest.odd_bit x :: bits). split_and!.
    + by rewrite <- app_assoc.
    + simpl. by rewrite Hlen.
    + constructor; [apply odd_bit_is_bit|done].
Qed.

Lemma parity_operator_bits sha1 op sig_fn n (cfg : SBMTest.SBMConfig) :
  parity_operator op → SBMTest.get_signature_fn sha1 op = Ok sig_fn →
  ∃ bits, sig_fn n cfg = Ok (SBMTest.SigTrace bits)
          ∧ length bits = Z.to_nat (SBMTest.H cfg) ∧ Forall is_bit bits.
Proof.
  assert (Hlen : length (range 0 (SBMTest.H cfg)) = Z.to_nat (SBMTest.H cfg))
    by (by rewrite range_length, Z.sub_0_r).
  intros [-> | [-> | ->]] [= <-].
  - unfold SBMTest.op_collatz_parity_signature.
    destruct (parity_fold_bits (λ x, if Z.land x 1 =? 0 then x / 2 else 3 * x + 1)
                (range 0 (SBMTest.H cfg)) n []) as (x' & bits & Heq & Hl & Hb).
    cbv beta in Heq. rewrite Heq. exists bits. by rewrite <- Hlen.
  - unfold SBMTest.op_xorshift_parity_signature.
    destruct (parity_fold_bits SBMTest.xorshift32
                (range 0 (SBMTest.H cfg)) (Z.land n 0xFFFFFFFF) [])
      as (x' & bits & Heq & Hl & Hb).
    rewrite Heq. exists bits. by rewrite <- Hlen.
  - unfold SBMTest.op_sha1_parity_signature.
    destruct (parity_fold_bits (SBMTest.sha1_step sha1)
                (range 0 (SBMTest.H cfg)) (Z.land n 0xFFFFFFFF) [])
      as (x' & bits & Heq & Hl & Hb).
    rewrite Heq. exists bits. by rewrite <- Hlen.
Qed.

(** X19.  In a run of [collatz_parity], [xorshift_parity] or
    [sha1_parity] every record carries a tuple of exactly [H] bits, and
    with [H >= 0] no recorded alpha exceeds [2^H]. *)
Theorem parity_operator_alpha_bound (sha1 : list Byte.byte → list Byte.byte)
    (cfg : SBMTest.SBMConfig) written series :
  parity_operator (SBMTest.op cfg) →
  SBMTest.simulate sha1 cfg = (written, Ok series) →
  (∀ r, r ∈ written →
     ∃ bits, row_sig r = SBMTest.SigTrace bits
             ∧ length bits = Z.to_nat (SBMTest.H cfg) ∧ Forall is_bit bits)
  ∧ (0 ≤ SBMTest.H cfg → ∀ e, e ∈ series → entry_alpha e ≤ 2 ^ SBMTest.H cfg).
Proof.
  intros Hop Hsim.
  destruct (SBMTest.get_signature_fn sha1 (SBMTest.op cfg)) as [sig_fn|err] eqn:Hfn;
    [|by destruct Hop as [Hop | [Hop | Hop]]; rewrite Hop in Hfn].
  assert (Hrows : ∀ r, r ∈ written →
            ∃ bits, row_sig r = SBMTest.SigTrace bits
                    ∧ length bits = Z.to_nat (SBMTest.H cfg) ∧ Forall is_bit bits).
  { intros r [k Hk]%list_elem_of_lookup.
    destruct (sbm_rows_sig sha1 cfg sig_fn k r Hfn) as [Hsig _]; [by rewrite Hsim|].
    destruct (parity_operator_bits sha1 _ sig_fn (row_n r) cfg Hop Hfn)
      as (bits & Hbits & Hl & Hb).
    exists bits. split; [congruence|done]. }
  split; [done|]. intros HH e [i Hi]%list_elem_of_lookup.
  rewrite (sbm_simulate_counts sha1 cfg written series i e Hsim Hi).
  assert (Hin : ∀ r, r ∈ take (S i) written →
            row_sig r ∈ SBMTest.SigTrace <$> bit_lists (Z.to_nat (SBMTest.H cfg))).
  { intros r (k & Hk & _)%elem_of_take.
    destruct (Hrows r) as (bits & -> & Hl & Hb); [by eapply list_elem_of_lookup_2|].
    apply list_elem_of_fmap_2. rewrite <- Hl. by apply bit_lists_complete. }
  apply distinct_signatures_bound in Hin.
  rewrite length_fmap, bit_lists_length in Hin.
  apply Nat2Z.inj_le in Hin. rewrite Nat2Z.inj_pow in Hin.
  rewrite Z2Nat.id in Hin by done. exact Hin.
Qed.

Lemma parity_operator_alpha_bound_witness :
  entry_alpha (5, 3, 0) ≤ 2 ^ 2.
Proof.
  destruct (parity_operator_alpha_bound sha1_stub
              {| SBMTest.op := "collatz_parity"; SBMTest.H := 2; SBMTest.N := 5;
                 SBMTest.bands := (3, 11, 31, 101) |}
              [(2, SBMTest.SigTrace [0; 1], 1, 2); (3, SBMTest.SigTrace [1; 0], 1, 3);
               (4, SBMTest.SigTrace [0; 0], 1, 4); (5, SBMTest.SigTrace [1; 0], 0, 3)]
              [(2, 1, 1); (3, 2, 1); (4, 3, 1); (5, 3, 0)]) as [_ Hbound].
  - left. reflexivity.
  - vm_compute. reflexivity.
  - apply Hbound; [simpl; lia|].
    do 3 apply list_elem_of_further. apply list_elem_of_here.
Defined.

(** ** [ssnt_closure] *)

Lemma d_min_zero_prime n : 2 ≤ n → SBMTest.d_min n = 0 ↔ Z.prime n.
Proof.
  intros Hn. destruct (Z.le_gt_cases n 3) as [Hs|Hl].
  - rewrite d_min_small by done.
    assert (n = 2 ∨ n = 3) as Hc by lia.
    rewrite decide_True by done. split; [|done]. intros _.
    destruct Hc as [-> | ->]; [apply Z.prime_2|apply Z.prime_3].
  - rewrite d_min_large by lia.
    destruct (list_find _ _) as [[i d]|] eqn:Hfind.
    + destruct (trial_division_found n i d Hl Hfind) as (Hd & Hdiv & Hmin).
      split; [lia|].
      intros [_ Hp]. destruct (Hp d); [|done].
      pose proof (Z.sqrt_spec n ltac:(lia)) as Hsq. simpl in Hsq. nia.
    + split; [|done]. intros _. by apply trial_division_none.
Qed.

Lemma band_from_dmin_names d thresholds :
  SBMTest.band_from_dmin d thresholds ∈ band_names
  ∧ (SBMTest.band_from_dmin d thresholds = "P" ↔ d = 0).
Proof.
  unfold SBMTest.band_from_dmin, band_names.
  destruct thresholds as [[[t1 t2] t3] t4].
  destruct (Z.eqb_spec d 0) as [->|Hd].
  { split; [apply list_elem_of_here|done]. }
  repeat (destruct (_ <=? _);
          [split; [repeat first [apply list_elem_of_here | apply list_elem_of_further]
                  |by split]|]).
  split; [repeat first [apply list_elem_of_here | apply list_elem_of_further]
         |by split].
Qed.

(** X20.  For an index [n >= 2] the [ssnt_closure] signature is the pair
    [("P", 0)] when [n] is prime, whatever [H] and the thresholds are; a
    signature returned for a composite [n] has one of the bands A to E,
    never P; and with [H <= 1] the bucket is 0. *)
Theorem ssnt_band_P_iff_prime (n : Z) (cfg : SBMTest.SBMConfig) :
  2 ≤ n →
  (Z.prime n → SBMTest.op_ssnt_signature n cfg = Ok (SBMTest.SigBand "P" 0))
  ∧ (∀ s, SBMTest.op_ssnt_signature n cfg = Ok s →
       ∃ b k, s = SBMTest.SigBand b k
              ∧ b ∈ band_names
              ∧ (b = "P" ↔ Z.prime n)
              ∧ (SBMTest.H cfg ≤ 1 → k = 0)).
Proof.
  intros Hn. pose proof (d_min_zero_prime n Hn) as Hprime.
  destruct (band_from_dmin_names (SBMTest.d_min n) (SBMTest.bands cfg)) as [Hname HP].
  unfold SBMTest.op_ssnt_signature. split.
  - intros Hp%Hprime. rewrite Hp. done.
  - intros s. destruct (Z.eqb_spec (SBMTest.d_min n) 0) as [Hd|Hd].
    + intros [= <-]. eexists _, 0. split_and!; [done|done| |done].
      rewrite HP. done.
    + destruct (math_sqrt n) as [sq|]; [|done]. cbn [mbind result_bind].
      destruct (int_truediv_float _ _) as [hn|]; [|done]. cbn [mbind result_bind].
      destruct (SBMTest.bucket01 hn (SBMTest.H cfg)) as [k|] eqn:Hk; [|done].
      cbn [mbind result_bind]. intros [= <-].
      eexists _, k. split_and!; [done|done| |].
      * rewrite HP. done.
      * intros HH. unfold SBMTest.bucket01 in Hk.
        rewrite (proj2 (Z.leb_le _ _) HH) in Hk. by injection Hk.
Qed.

Lemma ssnt_band_P_iff_prime_witness :
  SBMTest.op_ssnt_signature 3 scenario_B = Ok (SBMTest.SigBand "P" 0).
Proof.
  destruct (ssnt_band_P_iff_prime 3 scenario_B) as [Hp _].
  - lia.
  - apply Hp. apply Z.prime_3.
Defined.

(* ===================================================================== *)
(** * The mean gap *)
(* ===================================================================== *)

Lemma foldl_add_acc xs : ∀ acc, foldl Z.add acc xs = acc + foldl Z.add 0 xs.
Proof.
  induction xs as [|x xs IH]; intros acc; simpl; [lia|].
  rewrite IH, (IH (0 + x)). lia.
Qed.

Lemma sum_int_cons x xs : sum_int (x :: xs) = x + sum_int xs.
Proof. unfold sum_int. simpl. rewrite foldl_add_acc. lia. Qed.

(** The gaps telescope: their sum is the last index less the first. *)
Lemma gaps_telescope es' : ∀ e0,
  sum_int (zip_with (λ e e', e' - e) (e0 :: es') es')
  = default 0 (last (e0 :: es')) - e0.
Proof.
  induction es' as [|e1 es' IH]; intros e0.
  - simpl. unfold sum_int. simpl. lia.
  - change (zip_with (λ e e', e' - e) (e0 :: e1 :: es') (e1 :: es'))
      with ((e1 - e0) :: zip_with (λ e e', e' - e) (e1 :: es') es').
    rewrite sum_int_cons, IH, (last_cons e0).
    destruct (last (e1 :: es')) as [l|] eqn:Hl; simpl; [lia|].
    by apply last_None in Hl.
Qed.

Lemma gaps_of_cons e0 es' :
  2 ≤ len (e0 :: es') →
  sum_int (gaps_of (e0 :: es')) = last_emergence_of (e0 :: es') - e0
  ∧ len (gaps_of (e0 :: es')) = len (e0 :: es') - 1.
Proof.
  intros Hlen. split; [|rewrite gaps_of_length; lia].
  unfold gaps_of, last_emergence_of.
  rewrite (proj2 (Z.leb_le _ _) Hlen), (proj2 (Z.ltb_lt 0 _)) by lia.
  apply gaps_telescope.
Qed.

(** The emergence indices of a series start with the index of its first
    entry when that entry is new. *)
Lemma emergence_indices_head lo hi series :
  entry_n <$> series = range lo hi →
  (∀ e, series !! 0%nat = Some e → entry_new e = 1) →
  emergence_indices_of series = []
  ∨ ∃ es', emergence_indices_of series = lo :: es'.
Proof.
  intros Hn Hfirst. destruct series as [|e series]; [by left|]. right.
  unfold emergence_indices_of. rewrite filter_cons.
  rewrite decide_True by (by apply Hfirst). rewrite fmap_cons.
  destruct (Z.le_gt_cases hi lo) as [Hle|Hlt].
  - by rewrite range_nil in Hn.
  - rewrite range_cons in Hn by done. injection Hn as -> _. by eexists.
Qed.

Lemma gap_stats_mean float_pow_int float_sum gaps mean var :
  gap_stats float_pow_int float_sum gaps = Ok (mean, var) → len gaps ≠ 0 →
  ∃ d, float_of_int (len gaps) = Ok d ∧ int_truediv_float (sum_int gaps) d = Ok mean.
Proof.
  unfold gap_stats. destruct (Z.eqb_spec (len gaps) 0) as [H0|H0]; [done|].
  destruct (float_of_int (len gaps)) as [d|]; [|done]. cbn [mbind result_bind].
  destruct (int_truediv_float _ _) as [mean_gap|] eqn:Hmean; [|done].
  cbn [mbind result_bind].
  destruct (if len gaps =? 1 then _ else _) as [v|]; [|done].
  cbn [mbind result_bind]. intros [= <- <-] _. by exists d.
Qed.

Lemma compute_fracture_metrics_gaps libm_log float_pow_int float_sum series cfg m :
  AIMonitor.compute_fracture_metrics libm_log float_pow_int float_sum series cfg = Ok m →
  gap_stats float_pow_int float_sum (gaps_of (emergence_indices_of series))
  = Ok (AIMonitor.mean_gap m, AIMonitor.var_gap m).
Proof.
  unfold AIMonitor.compute_fracture_metrics.
  destruct (metric_E_N _ _) as [e_n|]; [|done]. simpl.
  destruct (metric_Hs_N _ _) as [hs_n|]; [|done]. simpl.
  destruct (metric_C_N _ _ _) as [c_n|]; [|done]. simpl.
  destruct (gap_stats _ _ _) as [[mean var]|]; [|done]. simpl.
  destruct (AIMonitor.regime_markers _ _) as [[before at_shift] after].
  by intros [= <-].
Qed.

Lemma compute_metrics_gaps libm_log float_pow_int float_sum cfg series m :
  SBMTest.compute_metrics libm_log float_pow_int float_sum cfg series = Ok m →
  gap_stats float_pow_int float_sum (gaps_of (emergence_indices_of series))
  = Ok (SBMTest.mean_gap m, SBMTest.var_gap m)
  ∧ SBMTest.last_emergence_n m = last_emergence_of (emergence_indices_of series).
Proof.
  unfold SBMTest.compute_metrics.
  destruct (metric_E_N _ _) as [e_n|]; [|done]. simpl.
  destruct (metric_Hs_N _ _) as [hs_n|]; [|done]. simpl.
  destruct (metric_C_N _ _ _) as [c_n|]; [|done]. simpl.
  destruct (gap_stats _ _ _) as [[mean var]|]; [|done]. simpl.
  by intros [= <-].
Qed.

Lemma sbm_series_first_new sha1 cfg written series e :
  SBMTest.simulate sha1 cfg = (written, Ok series) →
  series !! 0%nat = Some e → entry_new e = 1.
Proof.
  intros Hsim.
  destruct (SBMTest.get_signature_fn sha1 (SBMTest.op cfg)) as [sig_fn|err] eqn:Hfn.
  - destruct (sbm_simulate_tracker sha1 cfg sig_fn Hfn)
      as (done & rest & st & _ & _ & Hinv & _ & Hser).
    destruct (Hser series) as [-> _]; [by rewrite Hsim|].
    by apply (inv_first_new _ _ _ _ Hinv).
  - unfold SBMTest.simulate in Hsim. by rewrite Hfn in Hsim.
Qed.

(** X21.  In the metrics of a completed run with at least two emergences
    the gaps between consecutive emergence indices telescope, so
    [mean_gap] is the float quotient of the distance from the first index
    of the run to the last emergence by [emergence_count - 1]:
    [last_emergence_n / float(emergence_count - 1)] for the state-sequence
    script, whose first index is 0, and
    [(last_emergence_n - 2) / float(emergence_count - 1)] for the
    index-operator script, whose first index is 2. *)
Theorem mean_gap_telescopes (libm_log : float → float)
    (float_pow_int : float → Z → result float) (float_sum : list float → float) :
  (∀ cfg written series m,
     AIMonitor.simulate cfg = (written, Ok series) →
     AIMonitor.compute_fracture_metrics libm_log float_pow_int float_sum series cfg
       = Ok m →
     2 ≤ AIMonitor.emergence_count m →
     ∃ d, float_of_int (AIMonitor.emergence_count m - 1) = Ok d
          ∧ int_truediv_float (AIMonitor.last_emergence_n m) d
            = Ok (AIMonitor.mean_gap m))
  ∧ (∀ sha1 cfg written series m,
       SBMTest.simulate sha1 cfg = (written, Ok series) →
       SBMTest.compute_metrics libm_log float_pow_int float_sum cfg series = Ok m →
       2 ≤ SBMTest.emergence_count m →
       ∃ d, float_of_int (SBMTest.emergence_count m - 1) = Ok d
            ∧ int_truediv_float (SBMTest.last_emergence_n m - 2) d
              = Ok (SBMTest.mean_gap m)).
Proof.
  split.
  - intros cfg written series m Hsim Hm.
    pose proof (compute_fracture_metrics_counts _ _ _ _ _ _ Hm) as (_ & -> & ->).
    pose proof (compute_fracture_metrics_gaps _ _ _ _ _ _ Hm) as Hgaps.
    pose proof (simulate_series _ _ _ Hsim) as (Hn & _ & Hfirst).
    intros Hcount.
    destruct (emergence_indices_head 0 _ series Hn Hfirst) as [Hes | [es' Hes]];
      rewrite Hes in *; [unfold len in Hcount; simpl in Hcount; lia|].
    destruct (gaps_of_cons 0 es' Hcount) as [Hsum Hlen].
    destruct (gap_stats_mean _ _ _ _ _ Hgaps) as (d & Hd & Hmean); [lia|].
    exists d. rewrite <- Hlen. split; [done|].
    by rewrite Hsum, Z.sub_0_r in Hmean.
  - intros sha1 cfg written series m Hsim Hm.
    pose proof (compute_metrics_counts _ _ _ _ _ _ Hm) as (_ & ->).
    pose proof (compute_metrics_gaps _ _ _ _ _ _ Hm) as (Hgaps & ->).
    destruct (sbm_series_unit_steps _ _ _ _ Hsim) as [_ Hn].
    pose proof (λ e, sbm_series_first_new _ _ _ _ e Hsim) as Hfirst.
    intros Hcount.
    destruct (emergence_indices_head 2 _ series Hn Hfirst) as [Hes | [es' Hes]];
      rewrite Hes in *; [unfold len in Hcount; simpl in Hcount; lia|].
    destruct (gaps_of_cons 2 es' Hcount) as [Hsum Hlen].
    destruct (gap_stats_mean _ _ _ _ _ Hgaps) as (d & Hd & Hmean); [lia|].
    exists d. rewrite <- Hlen. split; [done|].
    by rewrite Hsum in Hmean.
Qed.

Lemma mean_gap_telescopes_witness :
  match AIMonitor.compute_fracture_metrics sample_log sample_pow sample_sum
          scenario_A_series (scenario_A_lcg 5) with
  | Ok m => ∃ d, float_of_int (AIMonitor.emergence_count m - 1) = Ok d
                 ∧ int_truediv_float (AIMonitor.last_emergence_n m) d
                   = Ok (AIMonitor.mean_gap m)
  | Raise _ => False
  end.
Proof.
  destruct (mean_gap_telescopes sample_log sample_pow sample_sum) as [Ha _].
  destruct (AIMonitor.compute_fracture_metrics _ _ _ _ _) as [m|e] eqn:E.
  - apply (Ha (scenario_A_lcg 5) scenario_A_rows scenario_A_series m); [|exact E|].
    + vm_compute. reflexivity.
    + vm_compute in E. injection E as <-. simpl. lia.
  - vm_compute in E. discriminate E.
Defined.

(* ===================================================================== *)
(** * Outcome of the simulation phase; the last emergence *)
(* ===================================================================== *)

(** X22.  The simulation phase of a state-sequence run completes, with
    one record per index of [range(0, N)], whenever [M] is not 0 (a
    negative modulus included), [N + H >= 0], and the two regime modes
    and the observation mode are known; with [M] not 0 and [N + H < 0]
    the state list is empty and the run stops with [IndexError] before
    any record. *)
Theorem simulate_outcome (cfg : AIMonitor.AIMConfig) :
  (AIMonitor.M cfg ≠ 0 → 0 ≤ AIMonitor.N cfg + AIMonitor.H cfg →
   known_mode (AIMonitor.pre_mode cfg) → known_mode (AIMonitor.post_mode cfg) →
   known_obs (AIMonitor.obs cfg) →
   ∃ written series,
     AIMonitor.simulate cfg = (written, Ok series)
     ∧ row_n <$> written = range 0 (AIMonitor.N cfg)
     ∧ len written = Z.max 0 (AIMonitor.N cfg)
     ∧ len series = Z.max 0 (AIMonitor.N cfg))
  ∧ (AIMonitor.M cfg ≠ 0 → AIMonitor.N cfg + AIMonitor.H cfg < 0 →
     AIMonitor.simulate cfg = ([], Raise IndexError)).
Proof.
  split.
  - intros HM HT Hpre Hpost Hobs.
    destruct (simulate_returns cfg HM HT Hpre Hpost Hobs) as (written & series & Hsim).
    exists written, series.
    pose proof (simulate_series _ _ _ Hsim) as (Hn & _).
    assert (row_n <$> written = range 0 (AIMonitor.N cfg)) as Hrows.
    { destruct (AIMonitor.build_stream cfg) as [xs|] eqn:Hxs.
      - destruct (aim_simulate_tracker cfg xs Hxs)
          as (done & rest & st & Hr & _ & Hinv & Hw & Hser).
        rewrite Hsim in Hw, Hser. simpl in Hw, Hser.
        destruct (Hser series eq_refl) as [_ ->].
        by rewrite Hw, (inv_rows_n _ _ _ Hinv), Hr, app_nil_r.
      - unfold AIMonitor.simulate in Hsim. by rewrite Hxs in Hsim. }
    split_and!; [done..| |].
    + unfold len. rewrite <- (length_fmap row_n), Hrows, range_length. lia.
    + unfold len. rewrite <- (length_fmap entry_n), Hn, range_length. lia.
  - intros HM HT. unfold AIMonitor.simulate, AIMonitor.build_stream.
    rewrite py_mod_returns by done. cbn [mbind result_bind].
    replace (Z.to_nat (AIMonitor.N cfg + AIMonitor.H cfg + 1)) with 0%nat by lia.
    done.
Qed.

Lemma simulate_outcome_witness :
  (∃ written series,
     AIMonitor.simulate (probe_cfg 3 (-1) (-8) 1 "ramp" "plateau" "x_lsb")
     = (written, Ok series) ∧ len series = Z.max 0 3)
  ∧ AIMonitor.simulate (probe_cfg 1 (-5) 8 0 "ramp" "plateau" "x_lsb")
    = ([], Raise IndexError).
Proof.
  split.
  - destruct (simulate_outcome (probe_cfg 3 (-1) (-8) 1 "ramp" "plateau" "x_lsb"))
      as [Hok _].
    destruct Hok as (written & series & Hsim & _ & _ & Hlen).
    + simpl. lia.
    + simpl. lia.
    + right. right. reflexivity.
    + right. left. reflexivity.
    + right. right. left. reflexivity.
    + exists written, series. split; [exact Hsim|exact Hlen].
  - destruct (simulate_outcome (probe_cfg 1 (-5) 8 0 "ramp" "plateau" "x_lsb"))
      as [_ Herr].
    apply Herr; simpl; lia.
Defined.

(** ** The last emergence *)

Lemma unit_steps_flat prev series :
  unit_steps prev series → emergence_indices_of series = [] →
  Forall (λ e, entry_new e = 0 ∧ entry_alpha e = prev) series
  ∧ alpha_last_from prev series = prev.
Proof.
  unfold emergence_indices_of.
  revert prev. induction series as [|e series IH]; intros prev Hs Hnone; [done|].
  destruct Hs as (Hd & Hb & Hs). rewrite filter_cons in Hnone.
  destruct (decide (entry_new e = 1)) as [Hnew|Hnew]; [done|].
  assert (entry_new e = 0) as H0 by (by destruct Hb).
  assert (entry_alpha e = prev) as Ha by lia. rewrite Ha in Hs.
  destruct (IH prev Hs Hnone) as [IH1 IH2].
  split; [by constructor|]. by rewrite alpha_last_from_cons, Ha.
Qed.

Lemma last_emergence_split prev series :
  unit_steps prev series → emergence_indices_of series ≠ [] →
  ∃ l1 e l2,
    series = l1 ++ e :: l2 ∧ entry_new e = 1
    ∧ last_emergence_of (emergence_indices_of series) = entry_n e
    ∧ Forall (λ e', entry_new e' = 0 ∧ entry_alpha e' = entry_alpha e) l2
    ∧ alpha_last_from prev series = entry_alpha e.
Proof.
  revert prev. induction series as [|e0 series IH]; intros prev Hs Hne; [done|].
  destruct Hs as (Hd & Hb & Hs).
  destruct (emergence_indices_of series) as [|n ns] eqn:Hes.
  - destruct (unit_steps_flat _ _ Hs Hes) as [Hflat Hlast].
    unfold emergence_indices_of in Hne, Hes |- *. apply fmap_nil_inv in Hes.
    rewrite filter_cons, Hes in Hne |- *.
    destruct (decide (entry_new e0 = 1)) as [Hnew|Hnew]; [|done].
    exists [], e0, series. split_and!; try done.
    by rewrite alpha_last_from_cons.
  - destruct (IH (entry_alpha e0) Hs) as (l1 & e & l2 & -> & Hnew & Hlast & Hflat & Ha);
      [congruence|].
    exists (e0 :: l1), e, l2. split_and!; try done.
    + rewrite <- Hlast. unfold emergence_indices_of in Hes |- *.
      rewrite filter_cons.
      destruct (decide (entry_new e0 = 1)); [|by rewrite Hes].
      rewrite fmap_cons, Hes. unfold last_emergence_of, len. simpl length.
      rewrite !(proj2 (Z.ltb_lt 0 _)) by lia. by rewrite last_cons_cons.
    + by rewrite alpha_last_from_cons.
Qed.

(** The entries of a series over [range lo hi] that come after a given
    entry are those with a larger index. *)
Lemma series_after lo hi l1 e l2 e' :
  entry_n <$> (l1 ++ e :: l2) = range lo hi →
  e' ∈ l1 ++ e :: l2 → entry_n e < entry_n e' → e' ∈ l2.
Proof.
  intros Hn [i Hi]%list_elem_of_lookup Hlt.
  assert (∀ (k : nat) x, (l1 ++ e :: l2) !! k = Some x → entry_n x = lo + Z.of_nat k)
    as Hidx.
  { intros k x Hk.
    assert (range lo hi !! k = Some (entry_n x)) as Hr
      by (by rewrite <- Hn, list_lookup_fmap, Hk).
    by apply range_lookup_Some in Hr as [-> _]. }
  pose proof (Hidx i e' Hi) as Hi'.
  pose proof (Hidx (length l1) e (list_lookup_middle _ _ _ _ eq_refl)) as He.
  apply lookup_app_Some in Hi as [Hi | [Hge Hi]].
  - apply lookup_lt_Some in Hi. lia.
  - destruct (i - length l1)%nat as [|j] eqn:Hj; [lia|].
    simpl in Hi. by eapply list_elem_of_lookup_2.
Qed.

Lemma last_emergence_of_series lo hi series :
  entry_n <$> series = range lo hi → lo < hi →
  unit_steps 0 series →
  (∀ e, series !! 0%nat = Some e → entry_new e = 1) →
  ∃ e, e ∈ series
       ∧ entry_n e = last_emergence_of (emergence_indices_of series)
       ∧ entry_new e = 1
       ∧ entry_alpha e = alpha_last series
       ∧ ∀ e', e' ∈ series → entry_n e < entry_n e' →
           entry_new e' = 0 ∧ entry_alpha e' = alpha_last series.
Proof.
  intros Hn Hlt Hsteps Hfirst.
  destruct (last_emergence_split 0 series Hsteps)
    as (l1 & e & l2 & -> & Hnew & Hlast & Hflat & Ha).
  { destruct (emergence_indices_head lo hi series Hn Hfirst) as [Hes | [es' ->]]; [|done].
    destruct series as [|e0 series]; [by rewrite range_cons in Hn by done|].
    unfold emergence_indices_of in Hes. rewrite filter_cons in Hes.
    by rewrite decide_True in Hes by (by apply Hfirst). }
  change (alpha_last_from 0 (l1 ++ e :: l2)) with (alpha_last (l1 ++ e :: l2)) in Ha.
  exists e. split_and!; [|done..|].
  - apply elem_of_app. right. apply list_elem_of_here.
  - intros e' He' Hgt. rewrite Ha.
    apply (proj1 (Forall_forall _ _) Hflat).
    by eapply series_after.
Qed.

(** X23.  In the metrics of a completed run over at least one index,
    [last_emergence_n] is the index of a record that is new and already
    carries the final alpha; every record after it is not new and carries
    the same alpha. *)
Theorem last_emergence_is_final (libm_log : float → float)
    (float_pow_int : float → Z → result float) (float_sum : list float → float) :
  (∀ cfg written series m,
     AIMonitor.simulate cfg = (written, Ok series) →
     AIMonitor.compute_fracture_metrics libm_log float_pow_int float_sum series cfg
       = Ok m →
     1 ≤ AIMonitor.N cfg →
     ∃ e, e ∈ series ∧ entry_n e = AIMonitor.last_emergence_n m
          ∧ entry_new e = 1 ∧ entry_alpha e = AIMonitor.alpha_N m
          ∧ ∀ e', e' ∈ series → AIMonitor.last_emergence_n m < entry_n e' →
              entry_new e' = 0 ∧ entry_alpha e' = AIMonitor.alpha_N m)
  ∧ (∀ sha1 cfg written series m,
       SBMTest.simulate sha1 cfg = (written, Ok series) →
       SBMTest.compute_metrics libm_log float_pow_int float_sum cfg series = Ok m →
       2 ≤ SBMTest.N cfg →
       ∃ e, e ∈ series ∧ entry_n e = SBMTest.last_emergence_n m
            ∧ entry_new e = 1 ∧ entry_alpha e = SBMTest.alpha_N m
            ∧ ∀ e', e' ∈ series → SBMTest.last_emergence_n m < entry_n e' →
                entry_new e' = 0 ∧ entry_alpha e' = SBMTest.alpha_N m).
Proof.
  split.
  - intros cfg written series m Hsim Hm HN.
    pose proof (compute_fracture_metrics_counts _ _ _ _ _ _ Hm) as (-> & _ & ->).
    pose proof (simulate_series _ _ _ Hsim) as (Hn & Hsteps & Hfirst).
    destruct (last_emergence_of_series 0 _ series Hn ltac:(lia) Hsteps Hfirst)
      as (e & He & Hidx & Hnew & Ha & Hafter).
    exists e. split_and!; [done..|]. intros e' He' Hgt. apply Hafter; [done|lia].
  - intros sha1 cfg written series m Hsim Hm HN.
    pose proof (compute_metrics_counts _ _ _ _ _ _ Hm) as (-> & _).
    pose proof (compute_metrics_gaps _ _ _ _ _ _ Hm) as (_ & ->).
    destruct (sbm_series_unit_steps _ _ _ _ Hsim) as [Hsteps Hn].
    pose proof (λ e, sbm_series_first_new _ _ _ _ e Hsim) as Hfirst.
    destruct (last_emergence_of_series 2 _ series Hn ltac:(lia) Hsteps Hfirst)
      as (e & He & Hidx & Hnew & Ha & Hafter).
    exists e. split_and!; [done..|]. intros e' He' Hgt. apply Hafter; [done|lia].
Qed.

Lemma last_emergence_is_final_witness :
  match AIMonitor.compute_fracture_metrics sample_log sample_pow sample_sum
          scenario_A_series (scenario_A_lcg 5) with
  | Ok m => ∃ e, e ∈ scenario_A_series ∧ entry_n e = AIMonitor.last_emergence_n m
                 ∧ entry_new e = 1 ∧ entry_alpha e = AIMonitor.alpha_N m
  | Raise _ => False
  end.
Proof.
  destruct (last_emergence_is_final sample_log sample_pow sample_sum) as [Ha _].
  destruct (AIMonitor.compute_fracture_metrics _ _ _ _ _) as [m|e] eqn:E.
  - destruct (Ha (scenario_A_lcg 5) scenario_A_rows scenario_A_series m)
      as (e & He & Hidx & Hnew & Halpha & _); [vm_compute; reflexivity|exact E| |].
    + simpl. lia.
    + exists e. split_and!; [exact He|exact Hidx|exact Hnew|exact Halpha].
  - vm_compute in E. discriminate E.
Defined.

(* ===================================================================== *)
(** * The plotting script on the series of a run *)
(* ===================================================================== *)

Lemma zip_series (l : list (Z * Z * Z)) :
  zip (entry_n <$> l) (entry_alpha <$> l) = (λ e, (entry_n e, entry_alpha e)) <$> l.
Proof.
  induction l as [|e l IH]; [done|]. rewrite !fmap_cons. cbn [zip_with]. by f_equal.
Qed.

(** The emergence loop over the entries that follow an entry with alpha
    [last]. *)
Lemma emergence_fold (l : list (Z * Z * Z)) : ∀ (eN eA : list Z) last,
  unit_steps last l →
  foldl (λ '(eN, eA, last) '(n, a),
           if a =? last then (eN, eA, last) else (eN ++ [n], eA ++ [a], a))
        (eN, eA, last) ((λ e, (entry_n e, entry_alpha e)) <$> l)
  = (eN ++ emergence_indices_of l,
     eA ++ (entry_alpha <$> filter (λ e, entry_new e = 1) l),
     alpha_last_from last l).
Proof.
  unfold emergence_indices_of.
  induction l as [|e l IH]; intros eN eA last Hs.
  - simpl. by rewrite !app_nil_r.
  - destruct Hs as (Hd & Hb & Hs). rewrite fmap_cons. cbn [foldl].
    rewrite filter_cons, alpha_last_from_cons.
    destruct (Z.eqb_spec (entry_alpha e) last) as [Heq|Hne].
    + rewrite decide_False by lia. rewrite Heq in Hs |- *. by apply IH.
    + rewrite decide_True by lia. rewrite IH by done.
      by rewrite !fmap_cons, <- !app_assoc.
Qed.

(** The alphas of the new entries count up from [prev + 1]. *)
Lemma emergence_alphas prev series :
  unit_steps prev series →
  entry_alpha <$> filter (λ e, entry_new e = 1) series
  = range (prev + 1) (alpha_last_from prev series + 1).
Proof.
  revert prev. induction series as [|e series IH]; intros prev Hs.
  - unfold alpha_last_from. simpl. by rewrite range_nil by lia.
  - pose proof (unit_steps_emergences _ _ Hs) as [Hlast _].
    destruct Hs as (Hd & Hb & Hs).
    pose proof (unit_steps_emergences _ _ Hs) as [Hlast' _].
    rewrite filter_cons, alpha_last_from_cons. destruct Hb as [Hb|Hb].
    + rewrite decide_False by lia. rewrite (IH (entry_alpha e)) by done.
      f_equal. lia.
    + rewrite decide_True by done. rewrite fmap_cons, (IH (entry_alpha e)) by done.
      unfold len in Hlast'.
      rewrite (range_cons (prev + 1)) by lia. f_equal; [lia|]. f_equal. lia.
Qed.

(** X24.  Applied to the index column and the alpha column of a completed
    run of either script, [filter_emergence_points] of the plotting
    script returns exactly the emergence indices that the metrics code
    computes, paired with the alphas 1, 2, ..., [alpha_N]. *)
Theorem emergence_points_of_run :
  (∀ cfg written series,
     AIMonitor.simulate cfg = (written, Ok series) →
     PlotAlpha.filter_emergence_points (entry_n <$> series) (entry_alpha <$> series)
     = (emergence_indices_of series, range 1 (alpha_last series + 1)))
  ∧ (∀ sha1 cfg written series,
       SBMTest.simulate sha1 cfg = (written, Ok series) →
       PlotAlpha.filter_emergence_points (entry_n <$> series) (entry_alpha <$> series)
       = (emergence_indices_of series, range 1 (alpha_last series + 1))).
Proof.
  assert (Hgen : ∀ series, unit_steps 0 series →
            (∀ e, series !! 0%nat = Some e → entry_new e = 1) →
            PlotAlpha.filter_emergence_points (entry_n <$> series)
              (entry_alpha <$> series)
            = (emergence_indices_of series, range 1 (alpha_last series + 1))).
  { intros series Hsteps Hfirst.
    change (alpha_last series) with (alpha_last_from 0 series).
    pose proof (emergence_alphas 0 series Hsteps) as Halphas.
    change (0 + 1) with 1 in Halphas. rewrite <- Halphas. clear Halphas.
    destruct series as [|e series]; [done|].
    pose proof (Hfirst e eq_refl) as Hnew. destruct Hsteps as (Hd & _ & Hs).
    unfold PlotAlpha.filter_emergence_points. rewrite !fmap_cons. cbv beta iota.
    rewrite zip_series.
    rewrite emergence_fold by done.
    unfold emergence_indices_of. rewrite filter_cons, decide_True by done.
    by rewrite !fmap_cons. }
  split.
  - intros cfg written series Hsim.
    pose proof (simulate_series _ _ _ Hsim) as (_ & Hsteps & Hfirst). by apply Hgen.
  - intros sha1 cfg written series Hsim.
    destruct (sbm_series_unit_steps _ _ _ _ Hsim) as [Hsteps _].
    apply Hgen; [done|]. intros e. by apply (sbm_series_first_new _ _ _ _ e Hsim).
Qed.

Lemma emergence_points_of_run_witness :
  PlotAlpha.filter_emergence_points (entry_n <$> scenario_A_series)
    (entry_alpha <$> scenario_A_series)
  = (emergence_indices_of scenario_A_series, range 1 (alpha_last scenario_A_series + 1)).
Proof.
  destruct emergence_points_of_run as [Ha _].
  apply (Ha (scenario_A_lcg 5) scenario_A_rows scenario_A_series).
  vm_compute. reflexivity.
Defined.

(** The delta loop over the entries that follow an entry with alpha
    [last]. *)
Lemma delta_fold (l : list (Z * Z * Z)) : ∀ (dN dA : list Z) last,
  unit_steps last l →
  foldl (λ '(dN, dA, last) '(n, a),
           let d := a - last in
           if d =? 0 then (dN, dA, a) else (dN ++ [n], dA ++ [d], a))
        (dN, dA, last) ((λ e, (entry_n e, entry_alpha e)) <$> l)
  = (dN ++ emergence_indices_of l,
     dA ++ replicate (length (emergence_indices_of l)) 1,
     alpha_last_from last l).
Proof.
  unfold emergence_indices_of.
  induction l as [|e l IH]; intros dN dA last Hs.
  - simpl. by rewrite !app_nil_r.
  - destruct Hs as (Hd & Hb & Hs). rewrite fmap_cons. cbn [foldl]. cbv zeta.
    rewrite filter_cons, alpha_last_from_cons.
    destruct (Z.eqb_spec (entry_alpha e - last) 0) as [Heq|Hne].
    + rewrite decide_False by lia. by apply IH.
    + rewrite decide_True by lia. rewrite IH by done.
      replace (entry_alpha e - last) with 1 by lia.
      by rewrite !fmap_cons, <- !app_assoc.
Qed.

(** X25.  Applied to the index column and the alpha column of a completed
    run of either script, [compute_delta_series] returns the emergence
    indices after the first one, each with the difference 1: the delta
    plot of a run has no other value. *)
Theorem delta_series_of_run :
  (∀ cfg written series,
     AIMonitor.simulate cfg = (written, Ok series) →
     PlotAlpha.compute_delta_series (entry_n <$> series) (entry_alpha <$> series)
     = (drop 1 (emergence_indices_of series),
        replicate (length (emergence_indices_of series) - 1) 1))
  ∧ (∀ sha1 cfg written series,
       SBMTest.simulate sha1 cfg = (written, Ok series) →
       PlotAlpha.compute_delta_series (entry_n <$> series) (entry_alpha <$> series)
       = (drop 1 (emergence_indices_of series),
          replicate (length (emergence_indices_of series) - 1) 1)).
Proof.
  assert (Hgen : ∀ series, unit_steps 0 series →
            (∀ e, series !! 0%nat = Some e → entry_new e = 1) →
            PlotAlpha.compute_delta_series (entry_n <$> series)
              (entry_alpha <$> series)
            = (drop 1 (emergence_indices_of series),
               replicate (length (emergence_indices_of series) - 1) 1)).
  { intros series Hsteps Hfirst.
    destruct series as [|e series]; [done|].
    pose proof (Hfirst e eq_refl) as Hnew. destruct Hsteps as (Hd & _ & Hs).
    unfold PlotAlpha.compute_delta_series. rewrite !fmap_cons. cbv beta iota.
    rewrite zip_series.
    rewrite delta_fold by done.
    unfold emergence_indices_of. rewrite filter_cons, decide_True by done.
    rewrite !fmap_cons. simpl. by rewrite Nat.sub_0_r. }
  split.
  - intros cfg written series Hsim.
    pose proof (simulate_series _ _ _ Hsim) as (_ & Hsteps & Hfirst). by apply Hgen.
  - intros sha1 cfg written series Hsim.
    destruct (sbm_series_unit_steps _ _ _ _ Hsim) as [Hsteps _].
    apply Hgen; [done|]. intros e. by apply (sbm_series_first_new _ _ _ _ e Hsim).
Qed.

Lemma delta_series_of_run_witness :
  PlotAlpha.compute_delta_series (entry_n <$> scenario_B_series)
    (entry_alpha <$> scenario_B_series)
  = (drop 1 (emergence_indices_of scenario_B_series),
     replicate (length (emergence_indices_of scenario_B_series) - 1) 1).
Proof.
  destruct delta_series_of_run as [_ Hb].
  apply (Hb sha1_stub scenario_B scenario_B_rows scenario_B_series).
  vm_compute. reflexivity.
Defined.

(** ** The cap on the index *)

Lemma cap_loop_prefix (c : Z) (pairs : list (Z * Z)) : ∀ outN outY,
  ∃ k : nat,
    PlotAlpha.cap_loop c pairs outN outY
    = (outN ++ take k pairs.*1, outY ++ take k pairs.*2)
    ∧ (k ≤ length pairs)%nat
    ∧ Forall (λ n, n ≤ c) (take k pairs.*1)
    ∧ ((k < length pairs)%nat → ∃ n, pairs.*1 !! k = Some n ∧ c < n).
Proof.
  induction pairs as [|[n y] pairs IH]; intros outN outY.
  - exists 0%nat. simpl. rewrite !app_nil_r. split_and!; [done..|]. lia.
  - cbn [PlotAlpha.cap_loop]. destruct (Z.leb_spec n c) as [Hle|Hgt].
    + destruct (IH (outN ++ [n]) (outY ++ [y])) as (k & -> & Hk & Hall & Hnext).
      exists (S k). rewrite !fmap_cons. simpl. rewrite <- !app_assoc.
      split_and!; [done|lia|by constructor|].
      intros Hlt. apply Hnext. lia.
    + exists 0%nat. simpl. rewrite !app_nil_r.
      split_and!; [done|lia|done|]. intros _. by exists n.
Qed.

Lemma filter_all {A} (P : A → Prop) `{∀ x, Decision (P x)} (l : list A) :
  Forall P l → filter P l = l.
Proof.
  induction 1 as [|x l Hx _ IH]; [done|].
  by rewrite filter_cons, decide_True, IH.
Qed.

Lemma filter_none {A} (P : A → Prop) `{∀ x, Decision (P x)} (l : list A) :
  Forall (λ x, ¬ P x) l → filter P l = [].
Proof.
  induction 1 as [|x l Hx _ IH]; [done|].
  by rewrite filter_cons, decide_False, IH.
Qed.

(** X26.  For index and value lists of equal length, [cap_by_N] with a cap
    returns the same number [k] of leading indices and values: the longest
    prefix whose indices are all at most the cap (it stops at the first
    index above the cap).  When the indices ascend this is every point
    whose index is at most the cap; without a cap the lists are returned
    unchanged. *)
Theorem cap_by_N_prefix (Ns Ys : list Z) (c : Z) :
  length Ns = length Ys →
  (∃ k : nat,
     PlotAlpha.cap_by_N Ns Ys (Some c) = (take k Ns, take k Ys)
     ∧ (k ≤ length Ns)%nat
     ∧ Forall (λ n, n ≤ c) (take k Ns)
     ∧ ((k < length Ns)%nat → ∃ n, Ns !! k = Some n ∧ c < n)
     ∧ (ascending Ns → take k Ns = filter (λ n, n ≤ c) Ns))
  ∧ PlotAlpha.cap_by_N Ns Ys None = (Ns, Ys).
Proof.
  intros Hlen. split; [|done].
  unfold PlotAlpha.cap_by_N.
  destruct (cap_loop_prefix c (zip Ns Ys) [] []) as (k & Hcap & Hk & Hall & Hnext).
  rewrite fst_zip, snd_zip in Hcap by lia.
  rewrite fst_zip in Hall, Hnext by lia.
  rewrite length_zip_with in Hk, Hnext.
  exists k. split_and!; [done|lia|done| |].
  - intros Hlt. apply Hnext. lia.
  - intros Hasc. rewrite <- (take_drop k Ns) at 2.
    rewrite filter_app, filter_all by done.
    rewrite filter_none; [by rewrite app_nil_r|].
    apply Forall_forall. intros n [j Hj]%list_elem_of_lookup.
    rewrite lookup_drop in Hj.
    destruct (Hnext ltac:(apply lookup_lt_Some in Hj; lia)) as (n0 & Hn0 & Hgt).
    pose proof (Hasc k (k + j)%nat n0 n ltac:(lia) Hn0 Hj). lia.
Qed.

Lemma cap_by_N_prefix_witness :
  ∃ k : nat,
    PlotAlpha.cap_by_N [2; 3; 4; 5] [1; 2; 3; 3] (Some 3)
    = (take k [2; 3; 4; 5], take k [1; 2; 3; 3])
    ∧ (k < length [2; 3; 4; 5])%nat.
Proof.
  destruct (cap_by_N_prefix [2; 3; 4; 5] [1; 2; 3; 3] 3) as [Hcap _].
  - reflexivity.
  - destruct Hcap as (k & Heq & Hk & Hall & _).
    exists k. split; [exact Heq|].
    destruct k as [|[|[|k]]]; simpl; try lia.
    apply Forall_cons in Hall as [_ Hall]. apply Forall_cons in Hall as [_ Hall].
    apply Forall_cons in Hall as [H4 _]. lia.
Defined.
